(** * mysecretapp: a shallow embedding of the trust core

    The development follows the source files of the application:

    - [SecureStorage]  (utils/SecureStorage): encrypted key/value storage,
      with the migration of legacy plaintext records;
    - [AuthHelper]     (utils/AuthHelper.ts, app/(tabs)/index.tsx): creation
      and loading of the identity;
    - [Account]        (settings screen, root layout): the wipe of the
      account, asked for or after inactivity;
    - [SafetyNumber]   (contact details screen): the safety number;
    - [LockScreen]     (lock screen component): PIN lock-out;
    - [Dispatcher]     (app/(tabs)/_layout.tsx, app/chat.tsx,
      utils/BadgeManager.ts and the contact screens): the contact list, the
      inbound dispatcher, the ephemeral sweep, the unread counts and the
      sending side.

    JavaScript built-ins and third-party libraries (tweetnacl, base-64,
    expo-crypto, JSON) are not part of the repository: each module takes
    them as the fields of a [Platform] class, with the laws it needs stated
    as hypotheses, and gives one executable instance on which the
    statements are run. *)

From Stdlib Require Import ZArith NArith String Ascii List Lia Bool.
From Stdlib Require Import DecimalString DecimalPos DecimalZ.
From stdpp Require Import base option list gmap strings.

Local Open Scope list_scope.

(** ** Results of calls that may throw *)

Inductive Result (A : Type) : Type :=
| Returned (a : A)
| Threw.
Arguments Returned {A} a.
Arguments Threw {A}.

(** ** JavaScript strings

    A JavaScript string is a sequence of UTF-16 code units; a [Uint8Array]
    is a sequence of bytes.  [js] embeds an ASCII literal. *)

Abbreviation jsstring := (list N).
Abbreviation bytes := (list ascii).

Definition js (s : string) : jsstring :=
  map N_of_ascii (list_ascii_of_string s).

(** [bytes[i] = str.charCodeAt(i) & 0xFF] *)
Definition stringToUint8Array (str : jsstring) : bytes :=
  map (fun c => ascii_of_N (N.land c 255)) str.

(** [str += String.fromCharCode(arr[i])] *)
Definition uint8ArrayToString (arr : bytes) : jsstring :=
  map N_of_ascii arr.

Lemma land_255_small (c : N) : (c < 256)%N -> N.land c 255 = c.
Proof.
  intros Hc. change 255%N with (N.ones 8).
  rewrite N.land_ones. apply N.mod_small. exact Hc.
Qed.

Lemma land_255_lt (c : N) : (N.land c 255 < 256)%N.
Proof.
  change 255%N with (N.ones 8). rewrite N.land_ones.
  apply N.mod_lt. discriminate.
Qed.

Lemma uint8ArrayToString_stringToUint8Array (s : jsstring) :
  uint8ArrayToString (stringToUint8Array s) = map (fun c => N.land c 255) s.
Proof.
  unfold uint8ArrayToString, stringToUint8Array.
  rewrite map_map. apply map_ext. intros c.
  apply N_ascii_embedding, land_255_lt.
Qed.

Lemma stringToUint8Array_uint8ArrayToString (b : bytes) :
  stringToUint8Array (uint8ArrayToString b) = b.
Proof.
  unfold uint8ArrayToString, stringToUint8Array.
  rewrite map_map. rewrite <- (map_id b) at 2. apply map_ext. intros a.
  rewrite land_255_small by apply N_ascii_bounded.
  apply ascii_N_embedding.
Qed.

Lemma latin1_roundtrip (s : jsstring) :
  Forall (fun c => (c < 256)%N) s ->
  uint8ArrayToString (stringToUint8Array s) = s.
Proof.
  intros Hs. rewrite uint8ArrayToString_stringToUint8Array.
  induction Hs as [|c s Hc _ IH]; simpl; [reflexivity|].
  rewrite land_255_small by exact Hc. now rewrite IH.
Qed.

(** ** Hexadecimal

    [fromHex] is [hex.match(/.{1,2}/g)!.map(byte => parseInt(byte, 16))], as the
    source files define it. *)

Definition isLineTerminator (c : N) : bool :=
  (c =? 10)%N || (c =? 13)%N || (c =? 8232)%N || (c =? 8233)%N.

Definition isWhiteSpace (c : N) : bool :=
  (c =? 9)%N || (c =? 11)%N || (c =? 12)%N || (c =? 32)%N || (c =? 160)%N
  || (c =? 5760)%N || ((8192 <=? c)%N && (c <=? 8202)%N) || (c =? 8239)%N
  || (c =? 8287)%N || (c =? 12288)%N || (c =? 65279)%N || isLineTerminator c.

Definition hexDigit (c : N) : option Z :=
  if ((48 <=? c) && (c <=? 57))%N then Some (Z.of_N c - 48)%Z
  else if ((97 <=? c) && (c <=? 102))%N then Some (Z.of_N c - 87)%Z
  else if ((65 <=? c) && (c <=? 70))%N then Some (Z.of_N c - 55)%Z
  else None.

(** The matches of [/.{1,2}/g]: greedy runs of one or two code units that are
    not line terminators. *)
Fixpoint hexChunks (hex : jsstring) : list jsstring :=
  match hex with
  | [] => []
  | c :: rest =>
      if isLineTerminator c then hexChunks rest
      else match rest with
           | [] => [[c]]
           | d :: rest' =>
               if isLineTerminator d then [c] :: hexChunks rest'
               else [c; d] :: hexChunks rest'
           end
  end.

Fixpoint dropWhiteSpace (s : jsstring) : jsstring :=
  match s with
  | c :: rest => if isWhiteSpace c then dropWhiteSpace rest else s
  | [] => []
  end.

(** The digits of the longest prefix that is a numeral in base 16. *)
Fixpoint hexPrefix (s : jsstring) : list Z :=
  match s with
  | c :: rest => match hexDigit c with
                 | Some d => d :: hexPrefix rest
                 | None => []
                 end
  | [] => []
  end.

(** [parseInt(s, 16)]; [None] is [NaN]. *)
Definition parseInt16 (s : jsstring) : option Z :=
  let s1 := dropWhiteSpace s in
  let '(negative, s2) :=
    match s1 with
    | 45%N :: rest => (true, rest)
    | 43%N :: rest => (false, rest)
    | _ => (false, s1)
    end in
  let s3 :=
    match s2 with
    | 48%N :: x :: rest => if ((x =? 120) || (x =? 88))%N then rest else s2
    | _ => s2
    end in
  match hexPrefix s3 with
  | [] => None
  | ds => let v := fold_left (fun acc d => (16 * acc + d)%Z) ds 0%Z in
          Some (if negative then (- v)%Z else v)
  end.

(** Storing a number in a [Uint8Array]: [NaN] is 0, others wrap modulo 256. *)
Definition toUint8 (v : option Z) : ascii :=
  match v with
  | None => zero
  | Some z => ascii_of_N (Z.to_N (z mod 256))
  end.

(** [match] returns [null] when nothing matches, and [.map] then throws. *)
Definition fromHex (hex : jsstring) : Result bytes :=
  match hexChunks hex with
  | [] => Threw
  | cs => Returned (map (fun chunk => toUint8 (parseInt16 chunk)) cs)
  end.

(** [toHex]: [('00' + x.toString(16)).slice(-2)] for every byte, joined. *)
Definition hexChar (n : N) : N :=
  if (n <? 10)%N then (48 + n)%N else (87 + n)%N.

Definition toHex (buffer : bytes) : jsstring :=
  flat_map (fun a => let x := N_of_ascii a in
                     [hexChar (x / 16); hexChar (x mod 16)]) buffer.

(** [n.toString()] for an integer, and for [NaN]. *)
Definition numberToString (v : option Z) : jsstring :=
  match v with
  | None => js "NaN"
  | Some z => js (DecimalString.NilZero.string_of_int (Z.to_int z))
  end.

(** [s.padStart(n, '0')] and [s.slice(-n)]. *)
Definition padStart0 (n : nat) (s : jsstring) : jsstring :=
  repeat 48%N (n - length s) ++ s.

Definition sliceLast (n : nat) (s : jsstring) : jsstring :=
  drop (length s - n) s.

(** [s.startsWith(p)] *)
Fixpoint startsWith (p s : jsstring) : bool :=
  match p, s with
  | [], _ => true
  | _ :: _, [] => false
  | x :: p', y :: s' => (x =? y)%N && startsWith p' s'
  end.

Definition jsstring_eqb (a b : jsstring) : bool := bool_decide (a = b).

(** ** JSON values

    What [JSON.parse] returns.  Numbers are kept as integers: the code only
    tests them for truthiness and type. *)

#[local] Set Warnings "-register-all".

Inductive json : Type :=
| JNull
| JBool (b : bool)
| JNumber (z : Z)
| JString (s : jsstring)
| JArray (items : list json)
| JObject (fields : list (jsstring * json)).

Fixpoint assoc (name : jsstring) (fields : list (jsstring * json)) : option json :=
  match fields with
  | [] => None
  | (k, v) :: rest => if jsstring_eqb k name then Some v else assoc name rest
  end.

(** [v.name]: reading a property of [null] throws; a property that is not
    there is [undefined] ([None]).  Only own data properties of parsed
    objects are read by the code. *)
Definition getProp (v : json) (name : jsstring) : Result (option json) :=
  match v with
  | JNull => Threw
  | JObject fields => Returned (assoc name fields)
  | _ => Returned None
  end.

(** Truthiness of a value, and of a property that may be [undefined]. *)
Definition truthy (v : json) : bool :=
  match v with
  | JNull => false
  | JBool b => b
  | JNumber z => negb (z =? 0)%Z
  | JString s => negb (jsstring_eqb s [])
  | JArray _ | JObject _ => true
  end.

(** [s === v] for a string [s]. *)
Definition strictEqString (s : jsstring) (v : json) : bool :=
  match v with
  | JString t => jsstring_eqb s t
  | _ => false
  end.

Definition truthyProp (v : option json) : bool :=
  match v with
  | Some x => truthy x
  | None => false
  end.

(** ** Round trips of bytes and hexadecimal text

    What a string becomes on its way through a byte array. *)
Definition lowBytes (s : jsstring) : jsstring := map (fun c => N.land c 255) s.

Lemma lowBytes_roundtrip (s : jsstring) :
  uint8ArrayToString (stringToUint8Array s) = lowBytes s.
Proof. apply uint8ArrayToString_stringToUint8Array. Qed.

Lemma lowBytes_latin1 (s : jsstring) :
  Forall (fun c => (c < 256)%N) s -> lowBytes s = s.
Proof. intros H. rewrite <- lowBytes_roundtrip. now apply latin1_roundtrip. Qed.

Lemma lowBytes_app (s t : jsstring) : lowBytes (s ++ t) = lowBytes s ++ lowBytes t.
Proof. apply map_app. Qed.

Lemma lowBytes_js (s : string) : lowBytes (js s) = js s.
Proof.
  apply lowBytes_latin1. unfold js. apply Forall_forall. intros c Hc.
  apply list_elem_of_In, in_map_iff in Hc as (a & <- & _). apply N_ascii_bounded.
Qed.

Definition hexPair (a : ascii) : jsstring :=
  [hexChar (N_of_ascii a / 16); hexChar (N_of_ascii a mod 16)].

Lemma hex_byte_roundtrip (a : ascii) :
  isLineTerminator (hexChar (N_of_ascii a / 16)) = false /\
  isLineTerminator (hexChar (N_of_ascii a mod 16)) = false /\
  toUint8 (parseInt16 (hexPair a)) = a.
Proof.
  destruct a as [[] [] [] [] [] [] [] []]; vm_compute; repeat split.
Qed.

Lemma hexChunks_toHex (b : bytes) : hexChunks (toHex b) = map hexPair b.
Proof.
  induction b as [|a b IH]; [reflexivity|].
  destruct (hex_byte_roundtrip a) as (H1 & H2 & _).
  change (toHex (a :: b)) with (hexPair a ++ toHex b).
  unfold hexPair at 1. cbn [app hexChunks]. rewrite H1, H2.
  cbn [map]. f_equal. exact IH.
Qed.

Lemma toHex_length (b : bytes) : length (toHex b) = (2 * length b)%nat.
Proof.
  induction b as [|a b IH]; [reflexivity|].
  change (toHex (a :: b)) with (hexPair a ++ toHex b).
  rewrite length_app, IH. simpl. lia.
Qed.

Definition isLowerHexDigit (c : N) : bool :=
  ((48 <=? c) && (c <=? 57))%N || ((97 <=? c) && (c <=? 102))%N.

Lemma hexPair_digits (a : ascii) : forallb isLowerHexDigit (hexPair a) = true.
Proof. destruct a as [[] [] [] [] [] [] [] []]; vm_compute; reflexivity. Qed.

Lemma toHex_digits (b : bytes) : forallb isLowerHexDigit (toHex b) = true.
Proof.
  induction b as [|a b IH]; [reflexivity|].
  change (toHex (a :: b)) with (hexPair a ++ toHex b).
  rewrite forallb_app, hexPair_digits, IH. reflexivity.
Qed.

Lemma fromHex_toHex_cons (a : ascii) (b : bytes) :
  fromHex (toHex (a :: b)) = Returned (a :: b).
Proof.
  unfold fromHex. rewrite hexChunks_toHex. cbn [map].
  f_equal. f_equal.
  - apply hex_byte_roundtrip.
  - rewrite map_map. rewrite <- (map_id b) at 2. apply map_ext.
    intros x. apply hex_byte_roundtrip.
Qed.

(** X1.  [fromHex] undoes [toHex] on every byte array that is not empty:
    the text [toHex] makes has two lower-case hexadecimal digits for each
    byte, and [fromHex] reads the bytes back. *)
Theorem X1_hex_roundtrip (b : bytes) :
  b <> [] ->
  fromHex (toHex b) = Returned b /\
  length (toHex b) = (2 * length b)%nat /\
  forallb isLowerHexDigit (toHex b) = true.
Proof.
  intros Hb. destruct b as [|a b]; [congruence|].
  split; [apply fromHex_toHex_cons|].
  split; [apply toHex_length | apply toHex_digits].
Qed.

Lemma X1_witness :
  fromHex (toHex ["a"%char; zero; "255"%char])
  = Returned ["a"%char; zero; "255"%char] /\
  length (toHex ["a"%char; zero; "255"%char])
  = (2 * length ["a"%char; zero; "255"%char])%nat /\
  forallb isLowerHexDigit (toHex ["a"%char; zero; "255"%char]) = true.
Proof. apply (X1_hex_roundtrip ["a"%char; zero; "255"%char]). discriminate. Defined.

(** On the empty array [toHex] gives the empty text, on which [fromHex]
    throws: [match] returns [null]. *)
Lemma fromHex_empty : fromHex [] = Threw /\ toHex [] = [].
Proof. split; reflexivity. Qed.

(** ** Secure storage (utils/SecureStorage) *)

Module SecureStorage.

Definition STORAGE_KEY : jsstring := js "my_permanent_secret_key_v1".

(** [nacl.secretbox.nonceLength], [nacl.secretbox.overheadLength] and
    [nacl.secretbox.keyLength]. *)
Definition nonceLength : nat := 24.
Definition overheadLength : nat := 16.
Definition keyLength : nat := 32.

(** *** The platform *)

Class Platform : Type := {
  (** [nacl.secretbox(message, nonce, key)].  tweetnacl throws on a nonce or
      key of the wrong size; the statements below give it 24 and 32 bytes. *)
  secretbox : bytes -> bytes -> bytes -> bytes;
  (** [nacl.secretbox.open(box, nonce, key)]; [None] when authentication
      fails.  tweetnacl throws on a nonce or key of the wrong size; at its one
      call site both outcomes lead to the same branch. *)
  secretbox_open : bytes -> bytes -> bytes -> option bytes;
  (** [encode] and [decode] of base-64; [None] when [decode] throws. *)
  encodeBase64 : jsstring -> jsstring;
  decodeBase64 : jsstring -> option jsstring;
  (** [JSON.parse(raw)] returns instead of throwing. *)
  JSON_parses : jsstring -> bool;
  (** [Crypto.digestStringAsync(SHA256, s)], in hexadecimal. *)
  sha256 : jsstring -> jsstring
}.

Definition isLowerHex (c : N) : Prop :=
  (48 <= c <= 57)%N \/ (97 <= c <= 102)%N.

Class PlatformLaws (P : Platform) : Prop := {
  secretbox_open_secretbox :
    forall m n k, length n = nonceLength -> length k = keyLength ->
      secretbox_open (secretbox m n k) n k = Some m;
  secretbox_length :
    forall m n k, length (secretbox m n k) = (overheadLength + length m)%nat;
  decodeBase64_encodeBase64 :
    forall b : bytes,
      decodeBase64 (encodeBase64 (uint8ArrayToString b))
      = Some (uint8ArrayToString b);
  encodeBase64_nonempty :
    forall s, s <> [] -> encodeBase64 s <> [];
  sha256_length : forall s, length (sha256 s) = 64%nat;
  sha256_hex : forall s, Forall isLowerHex (sha256 s)
}.

(** *** The module state: the two stores and the cached key *)

Record State : Type := mkState {
  AsyncStorage : gmap jsstring jsstring;
  SecureStore : gmap jsstring jsstring;
  cachedEncKey : option bytes
}.

Definition setItem (key value : jsstring) (st : State) : State :=
  mkState (<[key := value]> (AsyncStorage st)) (SecureStore st) (cachedEncKey st).

Definition removeItem (key : jsstring) (st : State) : State :=
  mkState (delete key (AsyncStorage st)) (SecureStore st) (cachedEncKey st).

Section WithPlatform.
Context {P : Platform}.

(** The key derived from the stored secret: extract, then expand under the
    domain separator, then the first 64 hex digits as 32 bytes. *)
Definition deriveKey (stored : jsstring) : Result bytes :=
  let extractHex := sha256 stored in
  let expandHex := sha256 (js "ghost:secure_storage:v1:" ++ extractHex) in
  fromHex (take 64 expandHex).

Definition getEncryptionKey (st : State) : Result (option bytes) * State :=
  match cachedEncKey st with
  | Some k => (Returned (Some k), st)
  | None =>
      match SecureStore st !! STORAGE_KEY with
      | None => (Returned None, st)
      | Some [] => (Returned None, st)
      | Some stored =>
          match deriveKey stored with
          | Threw => (Threw, st)
          | Returned k =>
              (Returned (Some k),
               mkState (AsyncStorage st) (SecureStore st) (Some k))
          end
      end
  end.

Definition clearSecureStorageCache (st : State) : State :=
  mkState (AsyncStorage st) (SecureStore st) None.

(** [nonce || secretbox(value)], base-64 encoded. *)
Definition seal (nonce : bytes) (value : jsstring) (encKey : bytes) : jsstring :=
  let messageBytes := stringToUint8Array value in
  let encrypted := secretbox messageBytes nonce encKey in
  let fullMessage := nonce ++ encrypted in
  encodeBase64 (uint8ArrayToString fullMessage).

(** [secureSet(key, value)]; [nonce] is the outcome of [nacl.randomBytes]. *)
Definition secureSet (nonce : bytes) (key value : jsstring) (st : State)
  : Result unit * State :=
  match getEncryptionKey st with
  | (Threw, st1) => (Threw, st1)
  | (Returned None, st1) => (Threw, st1)
  | (Returned (Some encKey), st1) =>
      (Returned tt, setItem key (seal nonce value encKey) st1)
  end.

Definition migrateLegacyData (nonce : bytes) (key raw : jsstring)
    (encKey : bytes) (st : State) : option jsstring * State :=
  if JSON_parses raw then
    (Some raw, setItem key (seal nonce raw encKey) st)
  else
    (None, removeItem key st).

(** [secureGet(key)]; [nonce] is drawn only when the record is migrated. *)
Definition secureGet (nonce : bytes) (key : jsstring) (st : State)
  : Result (option jsstring) * State :=
  match AsyncStorage st !! key with
  | None => (Returned None, st)
  | Some [] => (Returned None, st)
  | Some raw =>
      match getEncryptionKey st with
      | (Threw, st1) => (Threw, st1)
      | (Returned None, st1) => (Returned None, st1)
      | (Returned (Some encKey), st1) =>
          let migrate :=
            let '(r, st2) := migrateLegacyData nonce key raw encKey st1 in
            (Returned r, st2) in
          match decodeBase64 raw with
          | None => migrate
          | Some decoded =>
              let fullMessage := stringToUint8Array decoded in
              if (length fullMessage <? nonceLength + overheadLength)%nat
              then migrate
              else
                let nonce' := take nonceLength fullMessage in
                let ciphertext := drop nonceLength fullMessage in
                match secretbox_open ciphertext nonce' encKey with
                | None => migrate
                | Some decrypted =>
                    (Returned (Some (uint8ArrayToString decrypted)), st1)
                end
          end
      end
  end.

Definition secureClear (key : jsstring) (st : State) : State :=
  removeItem key st.

End WithPlatform.

(** *** Predicates of the statements *)

Section Predicates.
Context {P : Platform}.

(** The encryption key can be obtained: it is cached (with the size
    tweetnacl accepts), or a non-empty secret is stored. *)
Definition keyAvailable (st : State) : Prop :=
  match cachedEncKey st with
  | Some k => length k = keyLength
  | None => exists stored, SecureStore st !! STORAGE_KEY = Some stored /\ stored <> []
  end.

(** The stored blob decodes to fewer bytes than a nonce and an authenticator. *)
Definition tooShort (raw : jsstring) : Prop :=
  exists decoded, decodeBase64 raw = Some decoded /\
    (length (stringToUint8Array decoded) < nonceLength + overheadLength)%nat.

(** The stored blob is long enough but does not open under the key. *)
Definition failsDecryption (raw : jsstring) (encKey : bytes) : Prop :=
  exists decoded, decodeBase64 raw = Some decoded /\
    (nonceLength + overheadLength <= length (stringToUint8Array decoded))%nat /\
    secretbox_open (drop nonceLength (stringToUint8Array decoded))
                   (take nonceLength (stringToUint8Array decoded)) encKey = None.

End Predicates.

(** *** An executable platform

    The authenticator is the first 16 bytes of the key (padded with zeros);
    the transport encoding is the identity on strings of bytes; the digest is
    constant; a text parses as JSON when it starts with a brace or bracket. *)

Definition modelTag (k : bytes) : bytes := take 16 (k ++ repeat zero 16).

Definition bytes_eqb (a b : bytes) : bool := bool_decide (a = b).

Definition modelPlatform : Platform := {|
  secretbox := fun m n k => modelTag k ++ m;
  secretbox_open := fun c n k =>
    if (16 <=? length c)%nat && bytes_eqb (take 16 c) (modelTag k)
    then Some (drop 16 c) else None;
  encodeBase64 := fun s => s;
  decodeBase64 := fun s => if forallb (fun c => (c <? 256)%N) s then Some s else None;
  JSON_parses := fun s => match s with
                          | 123%N :: _ | 91%N :: _ => true
                          | _ => false
                          end;
  sha256 := fun _ => repeat 48%N 64
|}.

Lemma modelTag_length (k : bytes) : length (modelTag k) = 16%nat.
Proof.
  unfold modelTag. rewrite length_take, length_app, repeat_length. lia.
Qed.

Lemma forallb_uint8ArrayToString (b : bytes) :
  forallb (fun c => (c <? 256)%N) (uint8ArrayToString b) = true.
Proof.
  induction b as [|a b IH]; simpl; [reflexivity|].
  rewrite IH, andb_true_r. apply N.ltb_lt, N_ascii_bounded.
Qed.

Lemma storage_model_laws : PlatformLaws modelPlatform.
Proof.
  split.
  - intros m n k _ _. simpl.
    rewrite length_app, modelTag_length.
    replace (16 <=? 16 + length m)%nat with true
      by (symmetry; apply Nat.leb_le; lia).
    rewrite take_app_length' by (symmetry; apply modelTag_length).
    unfold bytes_eqb. rewrite bool_decide_eq_true_2 by reflexivity. simpl.
    now rewrite drop_app_length' by (symmetry; apply modelTag_length).
  - intros m n k. simpl. now rewrite length_app, modelTag_length.
  - intros b. simpl. now rewrite forallb_uint8ArrayToString.
  - intros s Hs. exact Hs.
  - intros s. reflexivity.
  - intros s. unfold sha256, modelPlatform. apply Forall_forall. intros x Hx.
    apply list_elem_of_In, repeat_spec in Hx. subst x. left. lia.
Qed.

(** *** Theorems *)

Lemma hexChunks_length (n : nat) :
  forall s : jsstring,
    length s = (2 * n)%nat ->
    Forall (fun c => isLineTerminator c = false) s ->
    length (hexChunks s) = n.
Proof.
  induction n as [|n IH]; intros s Hlen Hs.
  - destruct s; [reflexivity | discriminate].
  - destruct s as [|c [|d s]]; simpl in Hlen; try lia.
    inversion Hs as [|? ? Hc Hs']; subst.
    inversion Hs' as [|? ? Hd Hs'']; subst.
    simpl. rewrite Hc, Hd. simpl. f_equal. apply IH; [lia | assumption].
Qed.

Lemma isLowerHex_not_terminator (c : N) : isLowerHex c -> isLineTerminator c = false.
Proof.
  unfold isLowerHex, isLineTerminator. intros H.
  repeat (apply orb_false_intro); apply N.eqb_neq; lia.
Qed.

Section Theorems.
Context {P : Platform} {L : PlatformLaws P}.

Lemma deriveKey_returns (stored : jsstring) :
  exists k, deriveKey stored = Returned k /\ length k = keyLength.
Proof.
  unfold deriveKey, fromHex.
  set (h := sha256 (js "ghost:secure_storage:v1:" ++ sha256 stored)).
  assert (Hlen : length h = 64%nat) by apply sha256_length.
  rewrite take_ge by lia.
  assert (Hc : length (hexChunks h) = 32%nat).
  { apply hexChunks_length; [exact Hlen|].
    eapply Forall_impl; [apply sha256_hex|].
    intros c Hc. now apply isLowerHex_not_terminator. }
  destruct (hexChunks h) as [|c cs] eqn:E; [discriminate|].
  eexists. split; [reflexivity|].
  rewrite length_map. exact Hc.
Qed.

Lemma getEncryptionKey_available (st : State) :
  keyAvailable st ->
  exists k, length k = keyLength /\
    getEncryptionKey st
    = (Returned (Some k), mkState (AsyncStorage st) (SecureStore st) (Some k)).
Proof.
  unfold keyAvailable, getEncryptionKey.
  destruct st as [a s [k|]]; simpl.
  - intros Hk. exists k. split; [exact Hk | reflexivity].
  - intros (stored & Hs & Hne). rewrite Hs.
    destruct stored as [|c stored]; [congruence|].
    destruct (deriveKey_returns (c :: stored)) as (k & -> & Hk).
    exists k. split; [exact Hk | reflexivity].
Qed.

Lemma seal_nonempty (nonce : bytes) (value : jsstring) (k : bytes) :
  length nonce = nonceLength -> seal nonce value k <> [].
Proof.
  intros Hn. unfold seal. apply encodeBase64_nonempty.
  destruct nonce; [discriminate | discriminate].
Qed.

(** What a read returns after a write under the same key: the value with
    every code unit reduced to its low byte. *)
Lemma secureGet_secureSet_low_bytes
    (st : State) (nonce nonce' : bytes) (key value : jsstring) :
  length nonce = nonceLength ->
  keyAvailable st ->
  exists st1 st2,
    secureSet nonce key value st = (Returned tt, st1) /\
    secureGet nonce' key st1
    = (Returned (Some (map (fun c => N.land c 255) value)), st2).
Proof.
  intros Hn Hav.
  destruct (getEncryptionKey_available st Hav) as (k & Hk & Hget).
  unfold secureSet. rewrite Hget.
  eexists. eexists. split; [reflexivity|].
  unfold secureGet, setItem. cbn [AsyncStorage SecureStore cachedEncKey].
  rewrite lookup_insert_eq.
  pose proof (seal_nonempty nonce value k Hn) as Hne.
  destruct (seal nonce value k) as [|c raw] eqn:Eseal; [congruence|].
  rewrite <- Eseal. clear Hne.
  unfold getEncryptionKey. cbn [cachedEncKey].
  unfold seal at 1. rewrite decodeBase64_encodeBase64.
  rewrite stringToUint8Array_uint8ArrayToString.
  assert (Hlen : (length (nonce ++ secretbox (stringToUint8Array value) nonce k)
                  <? nonceLength + overheadLength)%nat = false).
  { apply Nat.ltb_ge. rewrite length_app, secretbox_length. lia. }
  rewrite Hlen.
  rewrite take_app_length' by (symmetry; exact Hn).
  rewrite drop_app_length' by (symmetry; exact Hn).
  rewrite secretbox_open_secretbox by assumption.
  rewrite uint8ArrayToString_stringToUint8Array. reflexivity.
Qed.

End Theorems.

(** *** A concrete store *)

Definition exampleNonce : bytes := repeat "n"%char 24.

Definition exampleStore : State := {|
  AsyncStorage := {[ js "legacy_profile" := js "[1,2,3]" ;
                     js "damaged" := js "not json at all" ]};
  SecureStore := {[ STORAGE_KEY := js "c2VjcmV0" ]};
  cachedEncKey := None
|}.

Definition exampleKey : bytes := repeat zero 32.

Definition exampleStoreCached : State :=
  mkState (AsyncStorage exampleStore) (SecureStore exampleStore) (Some exampleKey).

Lemma exampleStore_keyAvailable : keyAvailable exampleStore.
Proof.
  unfold keyAvailable; simpl. exists (js "c2VjcmV0").
  split; [reflexivity | discriminate].
Qed.

Lemma exampleStore_getEncryptionKey :
  getEncryptionKey (P := modelPlatform) exampleStore
  = (Returned (Some exampleKey), exampleStoreCached).
Proof. vm_compute. reflexivity. Qed.

Section Properties.
Context {P : Platform}.

(** C3 (as the code has it).  After [secureSet(k, v)], with the encryption key
    available, [secureGet(k)] returns [v] with every UTF-16 code unit reduced
    to its low 8 bits ([charCodeAt(i) & 0xFF]); the value read is the value
    written exactly when every code unit of [v] is below 256. *)
Theorem C3_secureGet_after_secureSet
    (L : PlatformLaws P)
    (st : State) (nonce nonce' : bytes) (key value : jsstring) :
  length nonce = nonceLength ->
  keyAvailable st ->
  exists st1 st2 r,
    secureSet nonce key value st = (Returned tt, st1) /\
    secureGet nonce' key st1 = (Returned (Some r), st2) /\
    r = map (fun c => N.land c 255) value /\
    (r = value <-> Forall (fun c => (c < 256)%N) value).
Proof.
  intros Hn Hav.
  destruct (secureGet_secureSet_low_bytes st nonce nonce' key value Hn Hav)
    as (st1 & st2 & Hset & Hget).
  exists st1, st2, (map (fun c => N.land c 255) value).
  repeat split; try assumption.
  - intros Heq. clear -Heq.
    induction value as [|c v IH]; [constructor|].
    simpl in Heq. injection Heq as Hc Hv.
    constructor; [|now apply IH].
    rewrite <- Hc. apply land_255_lt.
  - intros Hall. rewrite <- uint8ArrayToString_stringToUint8Array.
    now apply latin1_roundtrip.
Qed.

End Properties.

(** The write and read of the one-character text U+20AC on the concrete
    store: the text read back is U+00AC. *)
Lemma C3_witness_euro :
  exists st1 st2 r,
    secureSet (P := modelPlatform) exampleNonce (js "k") [8364%N] exampleStore
    = (Returned tt, st1) /\
    secureGet (P := modelPlatform) exampleNonce (js "k") st1
    = (Returned (Some r), st2) /\
    r = [172%N] /\
    (r = [8364%N] <-> Forall (fun c => (c < 256)%N) [8364%N]).
Proof.
  exact (C3_secureGet_after_secureSet storage_model_laws exampleStore
           exampleNonce exampleNonce (js "k") [8364%N]
           eq_refl exampleStore_keyAvailable).
Defined.

(** A record that is neither an envelope nor JSON is deleted. *)
Lemma secureGet_damaged :
  secureGet (P := modelPlatform) exampleNonce (js "damaged") exampleStore
  = (Returned None, removeItem (js "damaged") exampleStoreCached).
Proof. vm_compute. reflexivity. Qed.

(** *** Migration, and what the storage keys share
*)

Section Migration.
Context {P : Platform}.

(** [migrateToSecure(key)]; [nonce] is drawn only when the value is stored
    again.  [result] of the trial opening is an array, truthy even when
    empty. *)
Definition migrateToSecure (nonce : bytes) (key : jsstring) (st : State)
  : Result unit * State :=
  match AsyncStorage st !! key with
  | None => (Returned tt, st)
  | Some [] => (Returned tt, st)
  | Some raw =>
      match getEncryptionKey st with
      | (Threw, st1) => (Threw, st1)
      | (Returned None, st1) => (Returned tt, st1)
      | (Returned (Some encKey), st1) =>
          let alreadyEncrypted :=
            match decodeBase64 raw with
            | None => false
            | Some decoded =>
                let fullMessage := stringToUint8Array decoded in
                if (nonceLength + overheadLength <=? length fullMessage)%nat then
                  let nonce' := take nonceLength fullMessage in
                  let ciphertext := drop nonceLength fullMessage in
                  match secretbox_open ciphertext nonce' encKey with
                  | Some _ => true
                  | None => false
                  end
                else false
            end in
          if alreadyEncrypted then (Returned tt, st1)
          else secureSet nonce key raw st1
      end
  end.

(** No identity: nothing is cached and no secret is stored. *)
Definition noIdentity (st : State) : Prop :=
  cachedEncKey st = None /\
  (SecureStore st !! STORAGE_KEY = None \/ SecureStore st !! STORAGE_KEY = Some []).

(** The content of a blob that is an envelope under the key. *)
Definition opened (raw : jsstring) (encKey : bytes) : option bytes :=
  match decodeBase64 raw with
  | None => None
  | Some decoded =>
      let fullMessage := stringToUint8Array decoded in
      if (length fullMessage <? nonceLength + overheadLength)%nat then None
      else secretbox_open (drop nonceLength fullMessage)
                          (take nonceLength fullMessage) encKey
  end.


Lemma getEncryptionKey_none (st : State) :
  noIdentity st -> getEncryptionKey st = (Returned None, st).
Proof.
  intros [Hc [Hs|Hs]]; unfold getEncryptionKey; now rewrite Hc, Hs.
Qed.

(** X2.  Without an identity - no key cached and no secret stored, or an
    empty one - nothing is read, nothing is written and nothing is
    migrated: [secureGet] returns [null], [secureSet] throws,
    [migrateToSecure] returns, and the stores are as they were. *)
Theorem X2_without_identity
    (st : State) (nonce : bytes) (key value : jsstring) :
  noIdentity st ->
  secureGet nonce key st = (Returned None, st) /\
  secureSet nonce key value st = (Threw, st) /\
  migrateToSecure nonce key st = (Returned tt, st).
Proof.
  intros Hno. pose proof (getEncryptionKey_none st Hno) as Hk.
  unfold secureGet, secureSet, migrateToSecure. rewrite Hk.
  destruct (AsyncStorage st !! key) as [[|c raw]|]; repeat split; reflexivity.
Qed.

(** Reading with a key in hand. *)
Lemma secureGet_with_key
    (st st1 : State) (nonce : bytes) (key raw : jsstring) (encKey : bytes) :
  AsyncStorage st !! key = Some raw -> raw <> [] ->
  getEncryptionKey st = (Returned (Some encKey), st1) ->
  secureGet nonce key st
  = match opened raw encKey with
    | Some decrypted => (Returned (Some (uint8ArrayToString decrypted)), st1)
    | None =>
        let '(r, st2) := migrateLegacyData nonce key raw encKey st1 in (Returned r, st2)
    end.
Proof.
  intros Hraw Hne Hkey. unfold secureGet, opened. rewrite Hraw.
  destruct raw as [|c raw']; [congruence|]. rewrite Hkey.
  destruct (decodeBase64 (c :: raw')) as [decoded|]; [|reflexivity].
  cbv zeta. destruct (_ <? _)%nat; [reflexivity|].
  now destruct (secretbox_open _ _ _).
Qed.

Lemma getEncryptionKey_cached (a s : gmap jsstring jsstring) (k : bytes) :
  getEncryptionKey (mkState a s (Some k)) = (Returned (Some k), mkState a s (Some k)).
Proof. reflexivity. Qed.

Context {L : PlatformLaws P}.

Lemma opened_seal (nonce : bytes) (value : jsstring) (k : bytes) :
  length nonce = nonceLength -> length k = keyLength ->
  opened (seal nonce value k) k = Some (stringToUint8Array value).
Proof.
  intros Hn Hk. unfold opened, seal.
  rewrite decodeBase64_encodeBase64, stringToUint8Array_uint8ArrayToString.
  cbv zeta.
  replace (_ <? _)%nat with false
    by (symmetry; apply Nat.ltb_ge; rewrite length_app, secretbox_length; lia).
  rewrite take_app_length' by (symmetry; exact Hn).
  rewrite drop_app_length' by (symmetry; exact Hn).
  now apply secretbox_open_secretbox.
Qed.


Lemma getEncryptionKey_state (st st1 : State) (k : bytes) :
  getEncryptionKey st = (Returned (Some k), st1) ->
  st1 = mkState (AsyncStorage st) (SecureStore st) (Some k).
Proof.
  unfold getEncryptionKey. destruct st as [a s [c|]];
    cbn [cachedEncKey SecureStore AsyncStorage].
  - now intros [= -> <-].
  - destruct (s !! STORAGE_KEY) as [[|x stored]|]; try discriminate.
    destruct (deriveKey (x :: stored)); [|discriminate]. now intros [= -> <-].
Qed.

Lemma alreadyEncrypted_opened (raw : jsstring) (encKey : bytes) :
  match decodeBase64 raw with
  | None => false
  | Some decoded =>
      let fullMessage := stringToUint8Array decoded in
      if (nonceLength + overheadLength <=? length fullMessage)%nat then
        let nonce' := take nonceLength fullMessage in
        let ciphertext := drop nonceLength fullMessage in
        match secretbox_open ciphertext nonce' encKey with
        | Some _ => true
        | None => false
        end
      else false
  end = match opened raw encKey with Some _ => true | None => false end.
Proof.
  unfold opened. destruct (decodeBase64 raw) as [decoded|]; [|reflexivity].
  cbv zeta.
  destruct (Nat.leb_spec (nonceLength + overheadLength)
              (length (stringToUint8Array decoded))) as [Hle|Hlt].
  - replace (_ <? _)%nat with false by (symmetry; apply Nat.ltb_ge; lia).
    reflexivity.
  - replace (_ <? _)%nat with true by (symmetry; apply Nat.ltb_lt; lia).
    reflexivity.
Qed.

(** Reading an envelope made under the key in hand. *)
Lemma secureGet_sealed
    (a s : gmap jsstring jsstring) (nonce nonce' : bytes) (key value : jsstring)
    (k : bytes) :
  length nonce = nonceLength -> length k = keyLength ->
  a !! key = Some (seal nonce value k) ->
  secureGet nonce' key (mkState a s (Some k))
  = (Returned (Some (lowBytes value)), mkState a s (Some k)).
Proof.
  intros Hn Hk Ha.
  rewrite (secureGet_with_key (mkState a s (Some k)) (mkState a s (Some k)) nonce' key
             (seal nonce value k) k Ha (seal_nonempty nonce value k Hn) eq_refl).
  rewrite opened_seal by assumption.
  unfold lowBytes. now rewrite uint8ArrayToString_stringToUint8Array.
Qed.

(** The blob is handed to the legacy migration exactly when it does not open
    as an envelope. *)
Lemma not_opened (raw : jsstring) (encKey : bytes) :
  tooShort raw \/ failsDecryption raw encKey \/ decodeBase64 raw = None ->
  opened raw encKey = None.
Proof.
  unfold opened.
  intros [(d & Hd & Hshort) | [(d & Hd & Hlong & Hopen) | Hd]]; rewrite Hd;
    [|cbv zeta|reflexivity].
  - cbv zeta. apply Nat.ltb_lt in Hshort. now rewrite Hshort.
  - apply Nat.ltb_ge in Hlong. now rewrite Hlong.
Qed.

(** C4 (as the code has it).  When a blob is stored and the encryption key is
    available, a blob that is too short to be an envelope, that does not open
    under the key, or that is not base-64 at all, is handed to the legacy
    migration, which touches the entry of that storage key and no other.  If
    the blob parses as JSON, the read returns it as it was and replaces the
    entry by an envelope that opens under the key to the low bytes of the
    blob ([charCodeAt(i) & 0xFF]): the next read returns the blob with every
    code unit reduced to its low byte, which is the blob exactly when it has
    no code unit above 255.  If the blob does not parse, the read returns
    nothing and removes the entry: the storage key is absent afterwards and
    the next read returns nothing. *)
Theorem C4_legacy_migration
    (st st1 : State) (nonce nonce' : bytes) (key raw : jsstring) (encKey : bytes) :
  AsyncStorage st !! key = Some raw ->
  raw <> [] ->
  getEncryptionKey st = (Returned (Some encKey), st1) ->
  length encKey = keyLength ->
  length nonce = nonceLength ->
  tooShort raw \/ failsDecryption raw encKey \/ decodeBase64 raw = None ->
  exists st2,
    secureGet nonce key st
    = (Returned (if JSON_parses raw then Some raw else None), st2) /\
    (forall other, other <> key ->
       AsyncStorage st2 !! other = AsyncStorage st !! other) /\
    SecureStore st2 = SecureStore st /\
    (JSON_parses raw = true ->
     AsyncStorage st2 !! key = Some (seal nonce raw encKey) /\
     opened (seal nonce raw encKey) encKey = Some (stringToUint8Array raw) /\
     secureGet nonce' key st2 = (Returned (Some (lowBytes raw)), st2) /\
     (lowBytes raw = raw <-> Forall (fun c => (c < 256)%N) raw)) /\
    (JSON_parses raw = false ->
     AsyncStorage st2 !! key = None /\
     secureGet nonce' key st2 = (Returned None, st2)).
Proof.
  intros Hraw Hne Hkey Hk Hn Hbad.
  rewrite (secureGet_with_key st st1 nonce key raw encKey Hraw Hne Hkey).
  rewrite (not_opened raw encKey Hbad).
  apply getEncryptionKey_state in Hkey. subst st1.
  unfold migrateLegacyData. destruct (JSON_parses raw) eqn:Hjson.
  - eexists. split; [reflexivity|].
    unfold setItem. cbn [AsyncStorage SecureStore cachedEncKey].
    split; [intros other Hother; now apply lookup_insert_ne|].
    split; [reflexivity|]. split; [|discriminate].
    intros _. split; [apply lookup_insert_eq|].
    split; [now apply opened_seal|]. split.
    + apply (secureGet_sealed _ _ nonce); try assumption. apply lookup_insert_eq.
    + split.
      * intros Heq. rewrite <- Heq. unfold lowBytes.
        apply Forall_forall. intros c Hc.
        apply list_elem_of_In, in_map_iff in Hc as (x & <- & _). apply land_255_lt.
      * apply lowBytes_latin1.
  - eexists. split; [reflexivity|].
    unfold removeItem. cbn [AsyncStorage SecureStore cachedEncKey].
    split; [intros other Hother; now apply lookup_delete_ne|].
    split; [reflexivity|]. split; [discriminate|].
    intros _. split; [apply lookup_delete_eq|].
    unfold secureGet. cbn [AsyncStorage]. now rewrite lookup_delete_eq.
Qed.

(** X3.  Writing or removing one storage key leaves the others alone: the
    stored entry of another key is unchanged by [secureSet], and what
    [secureGet] returns for another key is the same after [secureSet] and
    after [secureClear] as before. *)
Theorem X3_keys_independent
    (st : State) (nonce nonce' : bytes) (key other value : jsstring) :
  other <> key ->
  keyAvailable st ->
  AsyncStorage (snd (secureSet nonce key value st)) !! other = AsyncStorage st !! other /\
  fst (secureGet nonce' other (snd (secureSet nonce key value st)))
  = fst (secureGet nonce' other st) /\
  fst (secureGet nonce' other (secureClear key st))
  = fst (secureGet nonce' other st).
Proof.
  intros Hne Hav.
  destruct (getEncryptionKey_available st Hav) as (k & Hk & Hget).
  unfold secureSet. rewrite Hget. cbn [snd].
  split; [unfold setItem; cbn [AsyncStorage]; now apply lookup_insert_ne|]. split.
  - unfold secureGet at 1 2, setItem. cbn [AsyncStorage SecureStore cachedEncKey].
    rewrite lookup_insert_ne by congruence.
    destruct (AsyncStorage st !! other) as [[|c raw]|]; try reflexivity.
    rewrite Hget, getEncryptionKey_cached.
    destruct (decodeBase64 (c :: raw)) as [decoded|];
      [|unfold migrateLegacyData; now destruct (JSON_parses _)].
    cbv zeta. destruct (_ <? _)%nat;
      [unfold migrateLegacyData; now destruct (JSON_parses _)|].
    destruct (secretbox_open _ _ _); [reflexivity|].
    unfold migrateLegacyData; now destruct (JSON_parses _).
  - unfold secureClear, removeItem, secureGet. cbn [AsyncStorage].
    rewrite lookup_delete_ne by congruence.
    destruct (AsyncStorage st !! other) as [[|c raw]|]; try reflexivity.
    rewrite Hget.
    assert (Hget' : getEncryptionKey
                      (mkState (delete key (AsyncStorage st)) (SecureStore st)
                               (cachedEncKey st))
                    = (Returned (Some k),
                       mkState (delete key (AsyncStorage st)) (SecureStore st) (Some k))).
    { revert Hget. unfold getEncryptionKey. cbn [cachedEncKey SecureStore AsyncStorage].
      destruct (cachedEncKey st); [now intros [= ->]|].
      destruct (SecureStore st !! STORAGE_KEY) as [[|x stored]|]; try discriminate.
      destruct (deriveKey (x :: stored)); [|discriminate]. now intros [= ->]. }
    rewrite Hget'.
    destruct (decodeBase64 (c :: raw)) as [decoded|];
      [|unfold migrateLegacyData; now destruct (JSON_parses _)].
    cbv zeta. destruct (_ <? _)%nat;
      [unfold migrateLegacyData; now destruct (JSON_parses _)|].
    destruct (secretbox_open _ _ _); [reflexivity|].
    unfold migrateLegacyData; now destruct (JSON_parses _).
Qed.

(** X4.  A legacy record is migrated once.  The first read returns the
    record as it was stored and replaces it by an envelope; the envelope
    opens under the key, so that the next read returns the record with
    every code unit reduced to its low byte and rewrites nothing.  The two
    reads agree when the record has no code unit above 255. *)
Theorem X4_migration_settles
    (st st1 : State) (nonce nonce' : bytes) (key raw : jsstring) (encKey : bytes) :
  AsyncStorage st !! key = Some raw ->
  raw <> [] ->
  getEncryptionKey st = (Returned (Some encKey), st1) ->
  length encKey = keyLength ->
  length nonce = nonceLength ->
  opened raw encKey = None ->
  JSON_parses raw = true ->
  exists st2,
    secureGet nonce key st = (Returned (Some raw), st2) /\
    opened (seal nonce raw encKey) encKey = Some (stringToUint8Array raw) /\
    secureGet nonce' key st2 = (Returned (Some (lowBytes raw)), st2) /\
    (Forall (fun c => (c < 256)%N) raw -> lowBytes raw = raw).
Proof.
  intros Hraw Hne Hkey Hk Hn Hop Hjson.
  rewrite (secureGet_with_key st st1 nonce key raw encKey Hraw Hne Hkey), Hop.
  unfold migrateLegacyData. rewrite Hjson.
  apply getEncryptionKey_state in Hkey. subst st1.
  eexists. split; [reflexivity|]. split; [now apply opened_seal|]. split.
  - unfold setItem. cbn [AsyncStorage SecureStore cachedEncKey].
    apply (secureGet_sealed _ _ nonce); try assumption. apply lookup_insert_eq.
  - intros Hall. unfold lowBytes.
    rewrite <- uint8ArrayToString_stringToUint8Array. now apply latin1_roundtrip.
Qed.

(** X5.  [migrateToSecure] leaves an entry that opens under the key as it
    is and replaces any other non-empty entry by the envelope of its text;
    afterwards [secureGet] returns the content, and a second
    [migrateToSecure] changes nothing. *)
Theorem X5_migrateToSecure
    (st st1 : State) (nonce nonce' : bytes) (key raw : jsstring) (encKey : bytes) :
  AsyncStorage st !! key = Some raw ->
  raw <> [] ->
  getEncryptionKey st = (Returned (Some encKey), st1) ->
  length encKey = keyLength ->
  length nonce = nonceLength ->
  exists st2,
    migrateToSecure nonce key st = (Returned tt, st2) /\
    AsyncStorage st2
    = match opened raw encKey with
      | Some _ => AsyncStorage st
      | None => <[key := seal nonce raw encKey]> (AsyncStorage st)
      end /\
    secureGet nonce' key st2
    = (Returned (Some match opened raw encKey with
                      | Some content => uint8ArrayToString content
                      | None => lowBytes raw
                      end), st2) /\
    migrateToSecure nonce' key st2 = (Returned tt, st2).
Proof.
  intros Hraw Hne Hkey Hk Hn.
  pose proof (getEncryptionKey_state st st1 encKey Hkey) as ->.
  unfold migrateToSecure at 1. rewrite Hraw.
  destruct raw as [|c raw']; [congruence|]. set (raw := c :: raw') in *.
  rewrite Hkey. cbv zeta. rewrite alreadyEncrypted_opened.
  destruct (opened raw encKey) as [content|] eqn:Hop.
  - eexists. split; [reflexivity|]. split; [reflexivity|]. split.
    + rewrite (secureGet_with_key
                 (mkState (AsyncStorage st) (SecureStore st) (Some encKey)) _
                 nonce' key raw encKey Hraw Hne (getEncryptionKey_cached _ _ _)).
      now rewrite Hop.
    + unfold migrateToSecure. cbn [AsyncStorage]. rewrite Hraw. unfold raw at 1.
      rewrite getEncryptionKey_cached. cbv zeta.
      rewrite alreadyEncrypted_opened. now rewrite Hop.
  - unfold secureSet. rewrite getEncryptionKey_cached.
    unfold setItem. cbn [AsyncStorage SecureStore cachedEncKey].
    eexists. split; [reflexivity|]. split; [reflexivity|]. split.
    + apply (secureGet_sealed _ _ nonce); try assumption. apply lookup_insert_eq.
    + unfold migrateToSecure. cbn [AsyncStorage]. rewrite lookup_insert_eq.
      pose proof (seal_nonempty nonce raw encKey Hn) as Hs.
      destruct (seal nonce raw encKey) as [|x sealed] eqn:Es; [congruence|].
      rewrite getEncryptionKey_cached. cbv zeta.
      rewrite alreadyEncrypted_opened, <- Es, opened_seal by assumption.
      reflexivity.
Qed.

(** X6.  A value written by [secureSet] is readable after the cached key
    is dropped by [clearSecureStorageCache], as it is at a restart: the key
    derived again from the stored secret opens the envelope. *)
Theorem X6_survives_restart
    (st : State) (nonce nonce' : bytes) (key value : jsstring) :
  cachedEncKey st = None ->
  keyAvailable st ->
  length nonce = nonceLength ->
  exists st1 st2,
    secureSet nonce key value st = (Returned tt, st1) /\
    cachedEncKey (clearSecureStorageCache st1) = None /\
    secureGet nonce' key (clearSecureStorageCache st1)
    = (Returned (Some (lowBytes value)), st2).
Proof.
  intros Hc Hav Hn.
  destruct (getEncryptionKey_available st Hav) as (k & Hk & Hget).
  unfold secureSet. rewrite Hget.
  eexists. eexists. split; [reflexivity|]. split; [reflexivity|].
  unfold clearSecureStorageCache, setItem. cbn [AsyncStorage SecureStore cachedEncKey].
  assert (Hget' : forall a,
            getEncryptionKey (mkState a (SecureStore st) None)
            = (Returned (Some k), mkState a (SecureStore st) (Some k))).
  { intros a. revert Hget. unfold getEncryptionKey. rewrite Hc.
    cbn [cachedEncKey SecureStore AsyncStorage].
    destruct (SecureStore st !! STORAGE_KEY) as [[|x stored]|]; try discriminate.
    destruct (deriveKey (x :: stored)); [|discriminate]. now intros [= ->]. }
  set (a := <[key := seal nonce value k]> (AsyncStorage st)).
  assert (Ha : a !! key = Some (seal nonce value k)) by apply lookup_insert_eq.
  rewrite (secureGet_with_key (mkState a (SecureStore st) None) _ nonce' key
             (seal nonce value k) k Ha (seal_nonempty nonce value k Hn) (Hget' a)).
  rewrite opened_seal by assumption.
  unfold lowBytes. now rewrite uint8ArrayToString_stringToUint8Array.
Qed.

End Migration.

(** A device that holds two legacy records in plain text: a JSON text with
    the character U+20AC, and a text that is not JSON. *)
Definition legacyStore : State := {|
  AsyncStorage := {[ js "legacy_note" := [91; 34; 8364; 34; 93]%N ;
                     js "damaged" := js "not json at all" ]};
  SecureStore := {[ STORAGE_KEY := js "c2VjcmV0" ]};
  cachedEncKey := None
|}.

Definition legacyStoreCached : State :=
  mkState (AsyncStorage legacyStore) (SecureStore legacyStore) (Some exampleKey).

Lemma legacyStore_getEncryptionKey :
  getEncryptionKey (P := modelPlatform) legacyStore
  = (Returned (Some exampleKey), legacyStoreCached).
Proof. vm_compute. reflexivity. Qed.

(** The legacy record with U+20AC is returned as it is by the read that
    migrates it, and with U+00AC by the next read. *)
Lemma C4_witness_legacy :
  exists st2,
    secureGet (P := modelPlatform) exampleNonce (js "legacy_note") legacyStore
    = (Returned (Some [91; 34; 8364; 34; 93]%N), st2) /\
    opened (P := modelPlatform)
      (seal (P := modelPlatform) exampleNonce [91; 34; 8364; 34; 93]%N exampleKey)
      exampleKey
    = Some (stringToUint8Array [91; 34; 172; 34; 93]%N) /\
    secureGet (P := modelPlatform) exampleNonce (js "legacy_note") st2
    = (Returned (Some [91; 34; 172; 34; 93]%N), st2).
Proof.
  destruct (C4_legacy_migration (P := modelPlatform) (L := storage_model_laws)
              legacyStore legacyStoreCached exampleNonce exampleNonce
              (js "legacy_note") [91; 34; 8364; 34; 93]%N exampleKey)
    as (st2 & Hfirst & _ & _ & Hjson & _).
  - vm_compute. reflexivity.
  - discriminate.
  - exact legacyStore_getEncryptionKey.
  - reflexivity.
  - reflexivity.
  - right. right. vm_compute. reflexivity.
  - destruct Hjson as (_ & Hopen & Hsecond & _); [reflexivity|].
    exists st2. split; [exact Hfirst|]. split; [exact Hopen | exact Hsecond].
Defined.

(** The record that is not JSON is removed by the read. *)
Example legacy_discarded :
  exists st2,
    secureGet (P := modelPlatform) exampleNonce (js "damaged") legacyStore
    = (Returned None, st2) /\
    AsyncStorage st2 !! js "damaged" = None /\
    AsyncStorage st2 !! js "legacy_note" = AsyncStorage legacyStore !! js "legacy_note".
Proof. eexists. vm_compute. repeat split. Qed.

(** A legacy record without a code unit above 255 is migrated as it is. *)
Example legacy_migrated :
  exists st2,
    secureGet (P := modelPlatform) exampleNonce (js "legacy_profile") exampleStore
    = (Returned (Some (js "[1,2,3]")), st2) /\
    secureGet (P := modelPlatform) exampleNonce (js "legacy_profile") st2
    = (Returned (Some (js "[1,2,3]")), st2).
Proof. eexists. vm_compute. split; reflexivity. Qed.

(** A device on which no identity was ever created. *)
Definition freshStore : State := {|
  AsyncStorage := {[ js "my_profile_v1" := js "{}" ]};
  SecureStore := ∅;
  cachedEncKey := None
|}.

Lemma X2_witness :
  secureGet (P := modelPlatform) exampleNonce (js "my_profile_v1") freshStore
  = (Returned None, freshStore) /\
  secureSet (P := modelPlatform) exampleNonce (js "my_profile_v1") (js "{}") freshStore
  = (Threw, freshStore) /\
  migrateToSecure (P := modelPlatform) exampleNonce (js "my_profile_v1") freshStore
  = (Returned tt, freshStore).
Proof.
  apply (X2_without_identity (P := modelPlatform) freshStore exampleNonce
           (js "my_profile_v1") (js "{}")).
  split; [reflexivity | left; reflexivity].
Defined.

Lemma X3_witness :
  AsyncStorage (snd (secureSet (P := modelPlatform) exampleNonce (js "k") (js "v")
                       exampleStore)) !! js "legacy_profile"
  = AsyncStorage exampleStore !! js "legacy_profile" /\
  fst (secureGet (P := modelPlatform) exampleNonce (js "legacy_profile")
         (snd (secureSet (P := modelPlatform) exampleNonce (js "k") (js "v") exampleStore)))
  = fst (secureGet (P := modelPlatform) exampleNonce (js "legacy_profile") exampleStore) /\
  fst (secureGet (P := modelPlatform) exampleNonce (js "legacy_profile")
         (secureClear (js "k") exampleStore))
  = fst (secureGet (P := modelPlatform) exampleNonce (js "legacy_profile") exampleStore).
Proof.
  apply (X3_keys_independent (P := modelPlatform) (L := storage_model_laws) exampleStore exampleNonce exampleNonce
           (js "k") (js "legacy_profile") (js "v")).
  - intros H. vm_compute in H. discriminate.
  - exact exampleStore_keyAvailable.
Defined.

Lemma X4_witness :
  exists st2,
    secureGet (P := modelPlatform) exampleNonce (js "legacy_profile") exampleStore
    = (Returned (Some (js "[1,2,3]")), st2) /\
    opened (P := modelPlatform)
      (seal (P := modelPlatform) exampleNonce (js "[1,2,3]") exampleKey) exampleKey
    = Some (stringToUint8Array (js "[1,2,3]")) /\
    secureGet (P := modelPlatform) exampleNonce (js "legacy_profile") st2
    = (Returned (Some (lowBytes (js "[1,2,3]"))), st2) /\
    (Forall (fun c => (c < 256)%N) (js "[1,2,3]") -> lowBytes (js "[1,2,3]") = js "[1,2,3]").
Proof.
  refine (X4_migration_settles (P := modelPlatform) (L := storage_model_laws)
            exampleStore exampleStoreCached exampleNonce exampleNonce
            (js "legacy_profile") (js "[1,2,3]") exampleKey
            _ _ exampleStore_getEncryptionKey eq_refl eq_refl _ _).
  - vm_compute. reflexivity.
  - discriminate.
  - vm_compute. reflexivity.
  - reflexivity.
Defined.

Lemma X5_witness :
  exists st2,
    migrateToSecure (P := modelPlatform) exampleNonce (js "legacy_profile") exampleStore
    = (Returned tt, st2) /\
    AsyncStorage st2
    = match opened (P := modelPlatform) (js "[1,2,3]") exampleKey with
      | Some _ => AsyncStorage exampleStore
      | None => <[js "legacy_profile" :=
                    seal (P := modelPlatform) exampleNonce (js "[1,2,3]") exampleKey]>
                  (AsyncStorage exampleStore)
      end /\
    secureGet (P := modelPlatform) exampleNonce (js "legacy_profile") st2
    = (Returned (Some match opened (P := modelPlatform) (js "[1,2,3]") exampleKey with
                      | Some content => uint8ArrayToString content
                      | None => lowBytes (js "[1,2,3]")
                      end), st2) /\
    migrateToSecure (P := modelPlatform) exampleNonce (js "legacy_profile") st2
    = (Returned tt, st2).
Proof.
  refine (X5_migrateToSecure (P := modelPlatform) (L := storage_model_laws)
            exampleStore exampleStoreCached exampleNonce exampleNonce
            (js "legacy_profile") (js "[1,2,3]") exampleKey
            _ _ exampleStore_getEncryptionKey eq_refl eq_refl).
  - vm_compute. reflexivity.
  - discriminate.
Defined.

Lemma X6_witness :
  exists st1 st2,
    secureSet (P := modelPlatform) exampleNonce (js "k") (js "v") exampleStore
    = (Returned tt, st1) /\
    cachedEncKey (clearSecureStorageCache st1) = None /\
    secureGet (P := modelPlatform) exampleNonce (js "k") (clearSecureStorageCache st1)
    = (Returned (Some (lowBytes (js "v"))), st2).
Proof.
  exact (X6_survives_restart (P := modelPlatform) (L := storage_model_laws)
           exampleStore exampleNonce exampleNonce (js "k") (js "v")
           eq_refl exampleStore_keyAvailable eq_refl).
Defined.

End SecureStorage.

(** ** Identity creation (utils/AuthHelper.ts, app/(tabs)/index.tsx) *)

Module AuthHelper.

Definition STORAGE_KEY : jsstring := js "my_permanent_secret_key_v1".

Class Platform : Type := {
  encodeBase64 : jsstring -> jsstring;
  (** [None] when [decode] throws. *)
  decodeBase64 : jsstring -> option jsstring;
  (** [nacl.box.keyPair.fromSecretKey(sk).publicKey]; [None] when it throws
      (a secret key of the wrong size). *)
  publicKeyOf : bytes -> option bytes;
  sha256 : jsstring -> jsstring;
  toUpperCase : jsstring -> jsstring
}.

(** The value of [nacl.box.keyPair()]: drawn by the caller's random source. *)
Record BoxKeyPair : Type := mkBoxKeyPair {
  publicKey : bytes;
  secretKey : bytes
}.

Record SignKeyPair : Type := mkSignKeyPair {
  signPublicKey : bytes;
  signSecretKey : bytes
}.

(** The secure store and the module-level caches. *)
Record State : Type := mkState {
  SecureStore : gmap jsstring jsstring;
  cachedSigningKeyPair : option SignKeyPair;
  cachedMyID : option jsstring;
  cachedBoxSecretKey : option bytes
}.

Definition clearAuthCache (st : State) : State :=
  mkState (SecureStore st) None None None.

Section WithPlatform.
Context {P : Platform}.

(** [generateNewIdentity()] *)
Definition generateNewIdentity (boxKeyPair : BoxKeyPair) (st : State)
  : Result unit * State :=
  let secretKeyB64 := encodeBase64 (uint8ArrayToString (secretKey boxKeyPair)) in
  let st1 := mkState (<[STORAGE_KEY := secretKeyB64]> (SecureStore st))
                     (cachedSigningKeyPair st) (cachedMyID st)
                     (cachedBoxSecretKey st) in
  (Returned tt, clearAuthCache st1).

(** [hash.substring(0, 12).toUpperCase()] of the digest of the public key
    in hexadecimal. *)
Definition computeID (pk : bytes) : jsstring :=
  toUpperCase (take 12 (sha256 (toHex pk))).

(** [setupIdentity()] of the home screen; the result is the identifier it
    shows, [None] when the body threw (it is caught and logged).  [fresh] is
    the key pair [nacl.box.keyPair()] would draw. *)
Definition setupIdentity (fresh : BoxKeyPair) (st : State)
  : option jsstring * State :=
  match SecureStore st !! STORAGE_KEY with
  | Some ((_ :: _) as stored) =>
      match decodeBase64 stored with
      | None => (None, st)
      | Some decoded =>
          match publicKeyOf (stringToUint8Array decoded) with
          | None => (None, st)
          | Some pk => (Some (computeID pk), st)
          end
      end
  | _ =>
      let st1 := mkState
        (<[STORAGE_KEY := encodeBase64 (uint8ArrayToString (secretKey fresh))]>
           (SecureStore st))
        (cachedSigningKeyPair st) (cachedMyID st) (cachedBoxSecretKey st) in
      (Some (computeID (publicKey fresh)), st1)
  end.

(** An identity exists: a non-empty secret is stored. *)
Definition identityExists (st : State) : Prop :=
  exists stored, SecureStore st !! STORAGE_KEY = Some stored /\ stored <> [].

(** C6 (as the code has it).  [generateNewIdentity] always returns: it writes
    the encoded secret key, and nothing else, under the identity's storage
    key, whether or not an identity was stored before, and clears the cached
    identity.  [setupIdentity] writes a fresh secret key only when none is
    stored and leaves a stored identity as it is. *)
Theorem C6_generateNewIdentity_overwrites (kp : BoxKeyPair) (st : State) :
  exists st1,
    generateNewIdentity kp st = (Returned tt, st1) /\
    SecureStore st1 !! STORAGE_KEY
      = Some (encodeBase64 (uint8ArrayToString (secretKey kp))) /\
    (forall k, k <> STORAGE_KEY -> SecureStore st1 !! k = SecureStore st !! k) /\
    cachedSigningKeyPair st1 = None /\ cachedMyID st1 = None /\
    cachedBoxSecretKey st1 = None /\
    (identityExists st -> snd (setupIdentity kp st) = st) /\
    (SecureStore st !! STORAGE_KEY = None ->
     SecureStore (snd (setupIdentity kp st))
     = <[STORAGE_KEY := encodeBase64 (uint8ArrayToString (secretKey kp))]>
         (SecureStore st)).
Proof.
  eexists. split; [reflexivity|]. simpl.
  split; [apply lookup_insert_eq|].
  split; [intros k Hk; now apply lookup_insert_ne|].
  repeat (split; [reflexivity|]).
  split.
  - intros (stored & Hs & Hne). unfold setupIdentity. rewrite Hs.
    destruct stored as [|c stored]; [congruence|].
    destruct (decodeBase64 (c :: stored)); [|reflexivity].
    now destruct (publicKeyOf _).
  - intros Hnone. unfold setupIdentity. now rewrite Hnone.
Qed.

End WithPlatform.

(** *** A concrete run *)

Definition modelPlatform : Platform := {|
  encodeBase64 := fun s => s;
  decodeBase64 := fun s => Some s;
  publicKeyOf := fun sk => if (length sk =? 32)%nat then Some (rev sk) else None;
  sha256 := fun s => take 64 (s ++ repeat 48%N 64);
  toUpperCase := map (fun c => if ((97 <=? c) && (c <=? 122))%N then (c - 32)%N else c)
|}.

Definition oldSecret : bytes := repeat "a"%char 32.
Definition newKeyPair : BoxKeyPair :=
  mkBoxKeyPair (repeat "P"%char 32) (repeat "b"%char 32).

Definition onboarded : State :=
  mkState {[ STORAGE_KEY := uint8ArrayToString oldSecret ]} None None (Some oldSecret).

(** The claim - the call fails when an identity exists - is false on
    [onboarded]: the call returns and the stored secret is replaced. *)
Lemma C6_counterexample :
  identityExists onboarded /\
  fst (generateNewIdentity (P := modelPlatform) newKeyPair onboarded) = Returned tt /\
  SecureStore (snd (generateNewIdentity (P := modelPlatform) newKeyPair onboarded))
    !! STORAGE_KEY = Some (uint8ArrayToString (secretKey newKeyPair)) /\
  uint8ArrayToString (secretKey newKeyPair) <> uint8ArrayToString oldSecret.
Proof.
  split.
  - exists (uint8ArrayToString oldSecret). split; [reflexivity | discriminate].
  - split; [reflexivity|]. split; [reflexivity | discriminate].
Qed.

(** *** Loading the identity *)

Class Signing : Type := {
  (** [nacl.sign.keyPair.fromSeed(seed)]; [None] when it throws (a seed that
      is not 32 bytes long). *)
  signKeyPairFromSeed : bytes -> option SignKeyPair;
  (** [nacl.sign.detached(message, secretKey)] *)
  signDetached : bytes -> bytes -> bytes
}.

Record Identity : Type := mkIdentity {
  signingKeyPair : SignKeyPair;
  myID : jsstring;
  boxSecretKey : bytes
}.

Section Loading.
Context {P : Platform} {S : Signing}.

(** [loadIdentity()]: the cached identity when the three caches are truthy,
    else the identity derived from the stored secret, which is then cached.
    Nothing is caught: an exception leaves the caches as they were. *)
Definition loadIdentity (st : State) : Result (option Identity) * State :=
  match cachedSigningKeyPair st, cachedMyID st, cachedBoxSecretKey st with
  | Some skp, Some ((_ :: _) as id), Some sk =>
      (Returned (Some (mkIdentity skp id sk)), st)
  | _, _, _ =>
      match SecureStore st !! STORAGE_KEY with
      | Some ((_ :: _) as stored) =>
          match decodeBase64 stored with
          | None => (Threw, st)
          | Some decoded =>
              let boxSecretKey := stringToUint8Array decoded in
              match publicKeyOf boxSecretKey with
              | None => (Threw, st)
              | Some pk =>
                  let myID := computeID pk in
                  let seedHex := sha256 decoded in
                  match fromHex (take 64 seedHex) with
                  | Threw => (Threw, st)
                  | Returned seed =>
                      match signKeyPairFromSeed seed with
                      | None => (Threw, st)
                      | Some signingKeyPair =>
                          (Returned (Some (mkIdentity signingKeyPair myID boxSecretKey)),
                           mkState (SecureStore st) (Some signingKeyPair)
                                   (Some myID) (Some boxSecretKey))
                      end
                  end
              end
          end
      | _ => (Returned None, st)
      end
  end.

(** [getMyID()] and [getBoxSecretKey()] *)
Definition getMyID (st : State) : Result (option jsstring) * State :=
  match loadIdentity st with
  | (Returned identity, st1) => (Returned (option_map myID identity), st1)
  | (Threw, st1) => (Threw, st1)
  end.

Definition getBoxSecretKey (st : State) : Result (option bytes) * State :=
  match loadIdentity st with
  | (Returned identity, st1) => (Returned (option_map boxSecretKey identity), st1)
  | (Threw, st1) => (Threw, st1)
  end.

(** [getBoxPublicKeyHex()] *)
Definition getBoxPublicKeyHex (st : State) : Result (option jsstring) * State :=
  match loadIdentity st with
  | (Returned None, st1) => (Returned None, st1)
  | (Returned (Some identity), st1) =>
      match publicKeyOf (boxSecretKey identity) with
      | Some pk => (Returned (Some (toHex pk)), st1)
      | None => (Threw, st1)
      end
  | (Threw, st1) => (Threw, st1)
  end.

(** [getSigningPublicKeyHex()] *)
Definition getSigningPublicKeyHex (st : State) : Result (option jsstring) * State :=
  match loadIdentity st with
  | (Returned None, st1) => (Returned None, st1)
  | (Returned (Some identity), st1) =>
      (Returned (Some (toHex (signPublicKey (signingKeyPair identity)))), st1)
  | (Threw, st1) => (Threw, st1)
  end.

(** [getAuthHeaders(path, method)]: the headers as a list of names and
    values; [timestamp] is [Date.now()]. *)
Definition getAuthHeaders (timestamp : Z) (path method : jsstring) (st : State)
  : Result (list (jsstring * jsstring)) * State :=
  match loadIdentity st with
  | (Returned None, st1) => (Returned [], st1)
  | (Returned (Some identity), st1) =>
      let timestamp := numberToString (Some timestamp) in
      let message := myID identity ++ js ":" ++ timestamp ++ js ":"
                       ++ toUpperCase method ++ js ":" ++ path in
      let messageBytes := stringToUint8Array message in
      let signature :=
        signDetached messageBytes (signSecretKey (signingKeyPair identity)) in
      (Returned [(js "X-Ghost-ID", myID identity);
                 (js "X-Ghost-Timestamp", timestamp);
                 (js "X-Ghost-Signature", encodeBase64 (uint8ArrayToString signature))],
       st1)
  | (Threw, st1) => (Threw, st1)
  end.

End Loading.

(** What the statements ask of the libraries. *)
Class IdentityLaws (P : Platform) (S : Signing) : Prop := {
  decodeBase64_encodeBase64 :
    forall b : bytes,
      decodeBase64 (encodeBase64 (uint8ArrayToString b)) = Some (uint8ArrayToString b);
  encodeBase64_nonempty : forall s, s <> [] -> encodeBase64 s <> [];
  sha256_length : forall s, length (sha256 s) = 64%nat;
  sha256_hex : forall s, Forall SecureStorage.isLowerHex (sha256 s);
  toUpperCase_length : forall s, length (toUpperCase s) = length s;
  fromSeed_defined :
    forall seed, length seed = 32%nat -> is_Some (signKeyPairFromSeed seed)
}.

(** A key pair as [nacl.box.keyPair()] makes them. *)
Definition genuine {P : Platform} (kp : BoxKeyPair) : Prop :=
  secretKey kp <> [] /\ publicKeyOf (secretKey kp) = Some (publicKey kp).

Section LoadingTheorems.
Context {P : Platform} {S : Signing}.

Lemma computeID_length (L : IdentityLaws P S) (pk : bytes) :
  length (computeID pk) = 12%nat.
Proof.
  unfold computeID. rewrite toUpperCase_length, length_take, sha256_length. reflexivity.
Qed.

Lemma seed_returns (L : IdentityLaws P S) (decoded : jsstring) :
  exists seed, fromHex (take 64 (sha256 decoded)) = Returned seed /\ length seed = 32%nat.
Proof.
  unfold fromHex.
  assert (Hlen : length (sha256 decoded) = 64%nat) by apply sha256_length.
  rewrite take_ge by lia.
  assert (Hc : length (hexChunks (sha256 decoded)) = 32%nat).
  { apply SecureStorage.hexChunks_length; [exact Hlen|].
    eapply Forall_impl; [apply sha256_hex|].
    intros c Hc. now apply SecureStorage.isLowerHex_not_terminator. }
  destruct (hexChunks (sha256 decoded)) as [|c cs] eqn:E; [discriminate|].
  eexists. split; [reflexivity|]. rewrite length_map. exact Hc.
Qed.

(** Loading from the store, when the caches are not all set. *)
Lemma loadIdentity_from_store
    (L : IdentityLaws P S) (st : State) (sk pk : bytes) :
  sk <> [] ->
  publicKeyOf sk = Some pk ->
  cachedMyID st = None ->
  SecureStore st !! STORAGE_KEY = Some (encodeBase64 (uint8ArrayToString sk)) ->
  exists skp,
    loadIdentity st
    = (Returned (Some (mkIdentity skp (computeID pk) sk)),
       mkState (SecureStore st) (Some skp) (Some (computeID pk)) (Some sk)).
Proof.
  intros Hsk Hpk Hc Hstore.
  assert (Hne : encodeBase64 (uint8ArrayToString sk) <> []).
  { apply encodeBase64_nonempty. destruct sk; [congruence | discriminate]. }
  destruct (seed_returns L (uint8ArrayToString sk)) as (seed & Hseed & Hlen).
  destruct (fromSeed_defined seed Hlen) as [skp Hskp].
  exists skp. unfold loadIdentity. rewrite Hc, Hstore.
  destruct (encodeBase64 (uint8ArrayToString sk)) as [|c stored] eqn:E; [congruence|].
  rewrite <- E, decodeBase64_encodeBase64, stringToUint8Array_uint8ArrayToString, Hpk.
  cbv zeta. rewrite Hseed, Hskp.
  now destruct (cachedSigningKeyPair st).
Qed.

Lemma loadIdentity_cached (st : State) (skp : SignKeyPair) (id : jsstring) (sk : bytes) :
  id <> [] ->
  cachedSigningKeyPair st = Some skp -> cachedMyID st = Some id ->
  cachedBoxSecretKey st = Some sk ->
  loadIdentity st = (Returned (Some (mkIdentity skp id sk)), st).
Proof.
  intros Hid H1 H2 H3. unfold loadIdentity. rewrite H1, H2, H3.
  destruct id; [congruence | reflexivity].
Qed.

(** X7.  After [generateNewIdentity], whatever identity was cached before,
    [loadIdentity] returns the new secret key with the identifier of its
    public key, and caches them: the next [getMyID] and [getBoxSecretKey]
    answer from the cache. *)
Theorem X7_generate_then_load
    (L : IdentityLaws P S) (kp : BoxKeyPair) (st : State) :
  genuine kp ->
  exists identity st1 st2,
    generateNewIdentity kp st = (Returned tt, st1) /\
    loadIdentity st1 = (Returned (Some identity), st2) /\
    boxSecretKey identity = secretKey kp /\
    myID identity = computeID (publicKey kp) /\
    getMyID st2 = (Returned (Some (computeID (publicKey kp))), st2) /\
    getBoxSecretKey st2 = (Returned (Some (secretKey kp)), st2).
Proof.
  intros [Hsk Hpk].
  unfold generateNewIdentity, clearAuthCache. cbn [SecureStore].
  set (store := <[STORAGE_KEY := _]> (SecureStore st)).
  destruct (loadIdentity_from_store L (mkState store None None None)
              (secretKey kp) (publicKey kp) Hsk Hpk eq_refl)
    as [skp Hload]; [apply lookup_insert_eq|].
  eexists. eexists. eexists. split; [reflexivity|]. split; [exact Hload|].
  split; [reflexivity|]. split; [reflexivity|].
  assert (Hid : computeID (publicKey kp) <> []).
  { intros H0. pose proof (computeID_length L (publicKey kp)) as Hl.
    rewrite H0 in Hl. discriminate. }
  unfold getMyID, getBoxSecretKey.
  rewrite (loadIdentity_cached _ skp (computeID (publicKey kp)) (secretKey kp))
    by (assumption || reflexivity).
  split; reflexivity.
Qed.

(** X8.  The identifier the home screen shows is the identifier the requests
    are signed with: when [loadIdentity] derives an identity from the store,
    [setupIdentity] computes the same identifier and writes nothing, and the
    [X-Ghost-ID] header of a request carries it; when nothing is stored, the
    identity the home screen creates is the one [loadIdentity] then loads. *)
Theorem X8_home_identifier
    (L : IdentityLaws P S) (fresh : BoxKeyPair) (st : State) :
  (forall identity st1,
     cachedMyID st = None ->
     loadIdentity st = (Returned (Some identity), st1) ->
     setupIdentity fresh st = (Some (myID identity), st) /\
     forall timestamp path method, exists signature,
       fst (getAuthHeaders timestamp path method st)
       = Returned [(js "X-Ghost-ID", myID identity);
                   (js "X-Ghost-Timestamp", numberToString (Some timestamp));
                   (js "X-Ghost-Signature", signature)]) /\
  (genuine fresh ->
   SecureStore st !! STORAGE_KEY = None ->
   cachedMyID st = None ->
   exists identity st2,
     loadIdentity (snd (setupIdentity fresh st)) = (Returned (Some identity), st2) /\
     fst (setupIdentity fresh st) = Some (myID identity) /\
     boxSecretKey identity = secretKey fresh).
Proof.
  split.
  - intros identity st1 Hc Hload. split;
      [|intros timestamp path method; unfold getAuthHeaders; rewrite Hload;
        eexists; reflexivity].
    revert Hload. unfold loadIdentity, setupIdentity. rewrite Hc.
    destruct (cachedSigningKeyPair st);
      (destruct (SecureStore st !! STORAGE_KEY) as [[|c stored]|]; try discriminate;
       destruct (decodeBase64 (c :: stored)) as [decoded|]; [|discriminate];
       cbv zeta;
       destruct (publicKeyOf (stringToUint8Array decoded)) as [pk|]; [|discriminate];
       destruct (fromHex _) as [seed|]; [|discriminate];
       destruct (signKeyPairFromSeed seed); [|discriminate];
       now intros [= <- _]).
  - intros [Hsk Hpk] Hnone Hc.
    unfold setupIdentity. rewrite Hnone. cbn [fst snd].
    set (st1 := mkState _ _ _ _).
    destruct (loadIdentity_from_store L st1 (secretKey fresh) (publicKey fresh)
                Hsk Hpk Hc)
      as [skp Hload]; [apply lookup_insert_eq|].
    eexists. eexists. split; [exact Hload|]. split; reflexivity.
Qed.

End LoadingTheorems.

(** *** A platform with a hexadecimal digest

    The digest is the hexadecimal text of the input's bytes, cut or padded
    with zeros to 64 digits; a signing key pair is the seed and its mirror. *)

Definition hexPlatform : Platform := {|
  encodeBase64 := fun s => 61%N :: s;
  decodeBase64 := fun s => match s with 61%N :: s' => Some s' | _ => None end;
  publicKeyOf := fun sk => if (length sk =? 32)%nat then Some (rev sk) else None;
  sha256 := fun s => take 64 (toHex (stringToUint8Array s) ++ repeat 48%N 64);
  toUpperCase := map (fun c => if ((97 <=? c) && (c <=? 122))%N then (c - 32)%N else c)
|}.

Definition modelSigning : Signing := {|
  signKeyPairFromSeed := fun seed =>
    if (length seed =? 32)%nat then Some (mkSignKeyPair (rev seed) (seed ++ rev seed))
    else None;
  signDetached := fun message secretKey => take 64 (secretKey ++ message)
|}.

Lemma isLowerHexDigit_isLowerHex (c : N) :
  isLowerHexDigit c = true -> SecureStorage.isLowerHex c.
Proof.
  unfold isLowerHexDigit, SecureStorage.isLowerHex. intros H.
  apply orb_true_iff in H as [H|H]; apply andb_true_iff in H as [H1 H2];
    apply N.leb_le in H1, H2; lia.
Qed.

Lemma hexPlatform_laws : IdentityLaws hexPlatform modelSigning.
Proof.
  split.
  - intros b. reflexivity.
  - intros s _. discriminate.
  - intros s. cbn [sha256 hexPlatform].
    rewrite length_take, length_app, repeat_length. lia.
  - intros s. cbn [sha256 hexPlatform]. apply Forall_take, Forall_app. split.
    + apply Forall_forall. intros c Hc. apply isLowerHexDigit_isLowerHex.
      pose proof (toHex_digits (stringToUint8Array s)) as Hd.
      rewrite forallb_forall in Hd. apply Hd. now apply list_elem_of_In.
    + apply Forall_forall. intros c Hc.
      apply list_elem_of_In, repeat_spec in Hc. subst c. left. lia.
  - intros s. apply length_map.
  - intros seed Hs. cbn [signKeyPairFromSeed modelSigning]. rewrite Hs.
    eexists. reflexivity.
Qed.

Definition genuineKeyPair : BoxKeyPair :=
  mkBoxKeyPair (rev (repeat "b"%char 32)) (repeat "b"%char 32).

Lemma genuineKeyPair_genuine : genuine (P := hexPlatform) genuineKeyPair.
Proof. split; [discriminate | reflexivity]. Qed.

Lemma X7_witness :
  exists identity st1 st2,
    generateNewIdentity (P := hexPlatform) genuineKeyPair onboarded = (Returned tt, st1) /\
    loadIdentity (P := hexPlatform) (S := modelSigning) st1
    = (Returned (Some identity), st2) /\
    boxSecretKey identity = secretKey genuineKeyPair /\
    myID identity = computeID (P := hexPlatform) (publicKey genuineKeyPair) /\
    getMyID (P := hexPlatform) (S := modelSigning) st2
    = (Returned (Some (computeID (P := hexPlatform) (publicKey genuineKeyPair))), st2) /\
    getBoxSecretKey (P := hexPlatform) (S := modelSigning) st2
    = (Returned (Some (secretKey genuineKeyPair)), st2).
Proof.
  exact (X7_generate_then_load hexPlatform_laws genuineKeyPair onboarded
           genuineKeyPair_genuine).
Defined.

(** A device whose stored secret is in the transport encoding of
    [hexPlatform], with nothing cached. *)
Definition restarted : State :=
  mkState {[ STORAGE_KEY := 61%N :: uint8ArrayToString oldSecret ]} None None None.

Lemma X8_witness :
  (forall identity st1,
     cachedMyID restarted = None ->
     loadIdentity (P := hexPlatform) (S := modelSigning) restarted
     = (Returned (Some identity), st1) ->
     setupIdentity (P := hexPlatform) genuineKeyPair restarted
     = (Some (myID identity), restarted) /\
     forall timestamp path method, exists signature,
       fst (getAuthHeaders (P := hexPlatform) (S := modelSigning)
              timestamp path method restarted)
       = Returned [(js "X-Ghost-ID", myID identity);
                   (js "X-Ghost-Timestamp", numberToString (Some timestamp));
                   (js "X-Ghost-Signature", signature)]) /\
  (genuine (P := hexPlatform) genuineKeyPair ->
   SecureStore restarted !! STORAGE_KEY = None ->
   cachedMyID restarted = None ->
   exists identity st2,
     loadIdentity (P := hexPlatform) (S := modelSigning)
       (snd (setupIdentity (P := hexPlatform) genuineKeyPair restarted))
     = (Returned (Some identity), st2) /\
     fst (setupIdentity (P := hexPlatform) genuineKeyPair restarted)
     = Some (myID identity) /\
     boxSecretKey identity = secretKey genuineKeyPair).
Proof.
  exact (X8_home_identifier hexPlatform_laws genuineKeyPair restarted).
Defined.

(** On [restarted] the identity does load. *)
Lemma restarted_loads :
  exists identity st1,
    loadIdentity (P := hexPlatform) (S := modelSigning) restarted
    = (Returned (Some identity), st1) /\
    setupIdentity (P := hexPlatform) genuineKeyPair restarted
    = (Some (myID identity), restarted).
Proof. eexists. eexists. split; vm_compute; reflexivity. Qed.

End AuthHelper.

(** ** Account deletion (settings screen, root layout) *)

Module Account.

Definition STORAGE_KEY : jsstring := js "my_permanent_secret_key_v1".
Definition APP_LOCK_KEY : jsstring := js "my_app_lock_pin_v1".
Definition AUTO_DELETE_DELAY : jsstring := js "security_auto_delete_delay".
Definition LAST_ACTIVE : jsstring := js "security_last_active_timestamp".

(** The device: the two stores and the caches of [SecureStorage] and
    [AuthHelper]. *)
Record Device : Type := mkDevice {
  asyncStorage : gmap jsstring jsstring;
  secureStore : gmap jsstring jsstring;
  encKeyCache : option bytes;
  signingCache : option AuthHelper.SignKeyPair;
  idCache : option jsstring;
  boxKeyCache : option bytes
}.

(** The device as the two modules see it. *)
Definition storageView (d : Device) : SecureStorage.State :=
  SecureStorage.mkState (asyncStorage d) (secureStore d) (encKeyCache d).

Definition authView (d : Device) : AuthHelper.State :=
  AuthHelper.mkState (secureStore d) (signingCache d) (idCache d) (boxKeyCache d).

Definition withAuth (a : AuthHelper.State) (d : Device) : Device :=
  mkDevice (asyncStorage d) (AuthHelper.SecureStore a) (encKeyCache d)
           (AuthHelper.cachedSigningKeyPair a) (AuthHelper.cachedMyID a)
           (AuthHelper.cachedBoxSecretKey a).

Definition setAsync (key value : jsstring) (d : Device) : Device :=
  mkDevice (<[key := value]> (asyncStorage d)) (secureStore d) (encKeyCache d)
           (signingCache d) (idCache d) (boxKeyCache d).

Definition setSecure (key value : jsstring) (d : Device) : Device :=
  mkDevice (asyncStorage d) (<[key := value]> (secureStore d)) (encKeyCache d)
           (signingCache d) (idCache d) (boxKeyCache d).

Definition deleteSecure (key : jsstring) (d : Device) : Device :=
  mkDevice (asyncStorage d) (delete key (secureStore d)) (encKeyCache d)
           (signingCache d) (idCache d) (boxKeyCache d).

(** [clearAuthCache(); clearSecureStorageCache(); await AsyncStorage.clear()] *)
Definition clearCachesAndStorage (d : Device) : Device :=
  mkDevice ∅ (secureStore d) None None None None.

Class Platform : Type := {
  (** [parseInt(s)]; [None] is [NaN]. *)
  parseInt : jsstring -> option Z
}.

Section WithPlatform.
Context {A : AuthHelper.Platform} {S : AuthHelper.Signing} {P : Platform}.

(** The request to [/delete-account], as far as the device goes: [getMyID()]
    loads the identity into the cache; when the relay does not know the user
    and the registration that [authFetch] then attempts goes through
    ([reRegistered]), [auth_registered] is written.  Exceptions are caught. *)
Definition notifyServer (reRegistered : bool) (d : Device) : Device :=
  match AuthHelper.getMyID (authView d) with
  | (Returned (Some (_ :: _)), a1) =>
      let d1 := withAuth a1 d in
      if reRegistered then setAsync (js "auth_registered") (js "true") d1 else d1
  | (_, a1) => withAuth a1 d
  end.

(** [performFinalWipe()] of the settings screen. *)
Definition performFinalWipe (reRegistered : bool) (d : Device) : Device :=
  let d := notifyServer reRegistered d in
  let d := clearCachesAndStorage d in
  let d := deleteSecure STORAGE_KEY d in
  let d := deleteSecure APP_LOCK_KEY d in
  let d := deleteSecure (js "privacy_read_receipts") d in
  let d := deleteSecure (js "privacy_online_status") d in
  let d := deleteSecure LAST_ACTIVE d in
  let d := deleteSecure AUTO_DELETE_DELAY d in
  let d := deleteSecure (js "ghost_lock_failed_attempts") d in
  deleteSecure (js "security_screenshot_detection") d.

(** [handleAutoDeleteChange(value)] of the settings screen; the delay is in
    milliseconds. *)
Definition handleAutoDeleteChange (value : option Z) (d : Device) : Device :=
  match value with
  | None => deleteSecure AUTO_DELETE_DELAY d
  | Some v => setSecure AUTO_DELETE_DELAY (numberToString (Some v)) d
  end.

(** [checkAutoDelete()] of the root layout; [now] is [Date.now()]. *)
Definition checkAutoDelete (now : Z) (reRegistered : bool) (d : Device) : Device :=
  match secureStore d !! AUTO_DELETE_DELAY with
  | Some ((_ :: _) as delayStr) =>
      match secureStore d !! LAST_ACTIVE with
      | Some ((_ :: _) as lastActiveStr) =>
          match parseInt delayStr, parseInt lastActiveStr with
          | Some delay, Some lastActive =>
              if (delay <? now - lastActive)%Z then
                let d := notifyServer reRegistered d in
                let d := clearCachesAndStorage d in
                let d := deleteSecure (js "my_permanent_secret_key_v1") d in
                let d := deleteSecure (js "my_app_lock_pin_v1") d in
                let d := deleteSecure LAST_ACTIVE d in
                let d := deleteSecure AUTO_DELETE_DELAY d in
                let d := deleteSecure (js "ghost_lock_failed_attempts") d in
                let d := deleteSecure (js "privacy_read_receipts") d in
                let d := deleteSecure (js "privacy_online_status") d in
                deleteSecure (js "security_screenshot_detection") d
              else setSecure LAST_ACTIVE (numberToString (Some now)) d
          | _, _ => d
          end
      | _ => setSecure LAST_ACTIVE (numberToString (Some now)) d
      end
  | _ => d
  end.

(** The keys a wipe removes from the secure store. *)
Definition wipedKeys : list jsstring :=
  [STORAGE_KEY; APP_LOCK_KEY; js "privacy_read_receipts"; js "privacy_online_status";
   LAST_ACTIVE; AUTO_DELETE_DELAY; js "ghost_lock_failed_attempts";
   js "security_screenshot_detection"].

End WithPlatform.

Section Theorems.
Context {A : AuthHelper.Platform} {S : AuthHelper.Signing} {P : Platform}
        {B : SecureStorage.Platform}.

Lemma notifyServer_secureStore (r : bool) (d : Device) :
  secureStore (notifyServer r d) = secureStore d.
Proof.
  unfold notifyServer, AuthHelper.getMyID, AuthHelper.loadIdentity.
  cbn [authView AuthHelper.cachedSigningKeyPair AuthHelper.cachedMyID
       AuthHelper.cachedBoxSecretKey AuthHelper.SecureStore].
  repeat match goal with
         | |- context [match ?x with _ => _ end] =>
             lazymatch x with
             | context [match _ with _ => _ end] => fail
             | _ => destruct x eqn:?
             end
         end; reflexivity.
Qed.

(** The secure store after either wipe. *)
Definition deleteAll (l : list jsstring) (m : gmap jsstring jsstring)
  : gmap jsstring jsstring :=
  foldl (fun m k => delete k m) m l.

Definition wipedStore (m : gmap jsstring jsstring) : gmap jsstring jsstring :=
  deleteAll wipedKeys m.

Lemma deleteAll_lookup (l : list jsstring) :
  forall (m : gmap jsstring jsstring) (k : jsstring),
    deleteAll l m !! k = if bool_decide (k ∈ l) then None else m !! k.
Proof.
  unfold deleteAll. induction l as [|x l IH]; intros m k; cbn [foldl].
  - rewrite bool_decide_eq_false_2; [reflexivity | apply not_elem_of_nil].
  - rewrite IH. destruct (bool_decide (k ∈ l)) eqn:E.
    + apply bool_decide_eq_true in E.
      rewrite bool_decide_eq_true_2; [reflexivity | now right].
    + apply bool_decide_eq_false in E.
      rewrite lookup_delete. destruct (decide (x = k)) as [->|Hne].
      * rewrite bool_decide_eq_true_2; [reflexivity | left].
      * rewrite bool_decide_eq_false_2; [reflexivity|].
        intros Hin. apply elem_of_cons in Hin as [->|Hin]; [congruence | contradiction].
Qed.

Lemma deleteAll_perm (l1 l2 : list jsstring) (m : gmap jsstring jsstring) :
  l1 ≡ₚ l2 -> deleteAll l1 m = deleteAll l2 m.
Proof.
  intros Hp. apply map_eq. intros k. rewrite !deleteAll_lookup.
  assert (Hiff : k ∈ l1 <-> k ∈ l2) by now rewrite Hp.
  destruct (decide (k ∈ l1)) as [H1|H1].
  - rewrite !bool_decide_eq_true_2; [reflexivity | now apply Hiff | exact H1].
  - rewrite !bool_decide_eq_false_2; [reflexivity | now rewrite <- Hiff | exact H1].
Qed.

Lemma wipedStore_lookup (m : gmap jsstring jsstring) (k : jsstring) :
  wipedStore m !! k = if bool_decide (k ∈ wipedKeys) then None else m !! k.
Proof. apply deleteAll_lookup. Qed.

Definition wiped (d : Device) : Device :=
  mkDevice ∅ (wipedStore (secureStore d)) None None None None.

Lemma deleteSecure_mk (k : jsstring) (a s : gmap jsstring jsstring)
    (e : option bytes) (g : option AuthHelper.SignKeyPair) (i : option jsstring)
    (b : option bytes) :
  deleteSecure k (mkDevice a s e g i b) = mkDevice a (delete k s) e g i b.
Proof. reflexivity. Qed.

Lemma performFinalWipe_wiped (r : bool) (d : Device) :
  performFinalWipe r d = wiped d.
Proof.
  unfold performFinalWipe. cbv zeta. unfold clearCachesAndStorage.
  rewrite !deleteSecure_mk, notifyServer_secureStore. reflexivity.
Qed.

(** The order in which the inactivity check deletes the entries. *)
Definition autoWipedKeys : list jsstring :=
  [js "my_permanent_secret_key_v1"; js "my_app_lock_pin_v1"; LAST_ACTIVE;
   AUTO_DELETE_DELAY; js "ghost_lock_failed_attempts"; js "privacy_read_receipts";
   js "privacy_online_status"; js "security_screenshot_detection"].

Lemma autoWipedKeys_perm : autoWipedKeys ≡ₚ wipedKeys.
Proof.
  change autoWipedKeys with
    ([STORAGE_KEY; APP_LOCK_KEY]
       ++ ([LAST_ACTIVE; AUTO_DELETE_DELAY; js "ghost_lock_failed_attempts"]
             ++ [js "privacy_read_receipts"; js "privacy_online_status"])
       ++ [js "security_screenshot_detection"]).
  change wipedKeys with
    ([STORAGE_KEY; APP_LOCK_KEY]
       ++ ([js "privacy_read_receipts"; js "privacy_online_status"]
             ++ [LAST_ACTIVE; AUTO_DELETE_DELAY; js "ghost_lock_failed_attempts"])
       ++ [js "security_screenshot_detection"]).
  apply Permutation_app_head, Permutation_app_tail, Permutation_app_comm.
Qed.

Lemma autoWipe_wiped (r : bool) (d : Device) :
  (let d := notifyServer r d in
   let d := clearCachesAndStorage d in
   let d := deleteSecure (js "my_permanent_secret_key_v1") d in
   let d := deleteSecure (js "my_app_lock_pin_v1") d in
   let d := deleteSecure LAST_ACTIVE d in
   let d := deleteSecure AUTO_DELETE_DELAY d in
   let d := deleteSecure (js "ghost_lock_failed_attempts") d in
   let d := deleteSecure (js "privacy_read_receipts") d in
   let d := deleteSecure (js "privacy_online_status") d in
   deleteSecure (js "security_screenshot_detection") d) = wiped d.
Proof.
  unfold wiped, wipedStore. rewrite <- (deleteAll_perm _ _ _ autoWipedKeys_perm).
  cbv zeta. unfold clearCachesAndStorage.
  rewrite !deleteSecure_mk, notifyServer_secureStore. reflexivity.
Qed.

(** X9.  After the final wipe the local storage is empty, the caches of both
    modules are cleared and the eight secure-store entries of the account
    are gone, so that no identity loads, no record can be read and none can
    be written; every other secure-store entry, such as the timers of the
    conversations, is still there. *)
Theorem X9_final_wipe (r : bool) (d : Device) :
  let d' := performFinalWipe r d in
  asyncStorage d' = ∅ /\
  (encKeyCache d' = None /\ signingCache d' = None /\
   idCache d' = None /\ boxKeyCache d' = None) /\
  (forall k, k ∈ wipedKeys -> secureStore d' !! k = None) /\
  (forall k, k ∉ wipedKeys -> secureStore d' !! k = secureStore d !! k) /\
  AuthHelper.loadIdentity (authView d') = (Returned None, authView d') /\
  (forall nonce key,
     SecureStorage.secureGet nonce key (storageView d')
     = (Returned None, storageView d')) /\
  (forall nonce key value,
     SecureStorage.secureSet nonce key value (storageView d')
     = (Threw, storageView d')).
Proof.
  cbv zeta. rewrite performFinalWipe_wiped. unfold wiped.
  cbn [asyncStorage secureStore encKeyCache signingCache idCache boxKeyCache].
  assert (Hid : wipedStore (secureStore d) !! STORAGE_KEY = None).
  { rewrite wipedStore_lookup. rewrite bool_decide_eq_true_2; [reflexivity | left]. }
  split; [reflexivity|]. split; [now repeat split|].
  split; [|split; [|split; [|split]]].
  - intros k Hk. rewrite wipedStore_lookup. now rewrite bool_decide_eq_true_2.
  - intros k Hk. rewrite wipedStore_lookup. now rewrite bool_decide_eq_false_2.
  - unfold AuthHelper.loadIdentity, authView.
    cbn [AuthHelper.cachedSigningKeyPair AuthHelper.cachedMyID
         AuthHelper.cachedBoxSecretKey AuthHelper.SecureStore
         asyncStorage secureStore encKeyCache signingCache idCache boxKeyCache].
    change AuthHelper.STORAGE_KEY with STORAGE_KEY. now rewrite Hid.
  - intros nonce key. unfold SecureStorage.secureGet, storageView.
    cbn [SecureStorage.AsyncStorage asyncStorage]. now rewrite lookup_empty.
  - intros nonce key value.
    unfold SecureStorage.secureSet, SecureStorage.getEncryptionKey, storageView.
    cbn [SecureStorage.cachedEncKey SecureStorage.SecureStore secureStore encKeyCache].
    change SecureStorage.STORAGE_KEY with STORAGE_KEY. now rewrite Hid.
Qed.

(** X10.  The inactivity check wipes exactly when a delay and a last-active time
    are stored, both are numbers, and more than the delay has passed; it then
    leaves the device as the final wipe of the settings screen does.  When
    the delay has not passed only the last-active time is rewritten.  With
    the delay switched off in the settings, and after a wipe, the check
    changes nothing. *)
Theorem X10_auto_delete (now : Z) (r : bool) (d : Device) :
  (forall delayStr lastActiveStr delay lastActive,
     secureStore d !! AUTO_DELETE_DELAY = Some delayStr -> delayStr <> [] ->
     secureStore d !! LAST_ACTIVE = Some lastActiveStr -> lastActiveStr <> [] ->
     parseInt delayStr = Some delay -> parseInt lastActiveStr = Some lastActive ->
     checkAutoDelete now r d
     = if (delay <? now - lastActive)%Z then performFinalWipe r d
       else setSecure LAST_ACTIVE (numberToString (Some now)) d) /\
  checkAutoDelete now r (handleAutoDeleteChange None d) = handleAutoDeleteChange None d /\
  (forall r', checkAutoDelete now r (performFinalWipe r' d) = performFinalWipe r' d).
Proof.
  split; [|split].
  - intros delayStr lastActiveStr delay lastActive Hd Hdne Hl Hlne Hpd Hpl.
    unfold checkAutoDelete. rewrite Hd, Hl.
    destruct delayStr as [|c1 s1]; [congruence|].
    destruct lastActiveStr as [|c2 s2]; [congruence|].
    rewrite Hpd, Hpl.
    destruct (delay <? now - lastActive)%Z; [|reflexivity].
    now rewrite autoWipe_wiped, performFinalWipe_wiped.
  - unfold handleAutoDeleteChange, checkAutoDelete.
    replace (secureStore (deleteSecure AUTO_DELETE_DELAY d) !! AUTO_DELETE_DELAY)
      with (@None jsstring); [reflexivity|].
    unfold deleteSecure. cbn [secureStore]. now rewrite lookup_delete_eq.
  - intros r'. rewrite performFinalWipe_wiped. unfold checkAutoDelete, wiped.
    cbn [secureStore]. rewrite wipedStore_lookup.
    rewrite bool_decide_eq_true_2; [reflexivity|].
    unfold wipedKeys. do 5 right. left.
Qed.

End Theorems.
(** *** Onboarding (onboarding screen) *)

Definition PROFILE_KEY : jsstring := js "my_profile_data_v1".

(** [s.trim()] *)
Definition trim (s : jsstring) : jsstring :=
  rev (dropWhiteSpace (rev (dropWhiteSpace s))).

(** [/[\x00-\x1F\x7F]/] *)
Definition isControl (c : N) : bool := (c <=? 31)%N || (c =? 127)%N.

(** [pseudo.trim().substring(0, 50).replace(/[\x00-\x1F\x7F]/g, '')] *)
Definition safePseudo (pseudo : jsstring) : jsstring :=
  filter (fun c => isControl c = false) (take 50 (trim pseudo)).

Class Profiles : Type := {
  JSON_stringify : json -> jsstring
}.

Definition nonEmpty (s : option jsstring) : bool :=
  match s with
  | Some (_ :: _) => true
  | _ => false
  end.

Definition withStorage (s : SecureStorage.State) (d : Device) : Device :=
  mkDevice (SecureStorage.AsyncStorage s) (SecureStorage.SecureStore s)
           (SecureStorage.cachedEncKey s)
           (signingCache d) (idCache d) (boxKeyCache d).

(** The device after the application is started again: the stores are kept,
    the module-level caches are empty. *)
Definition restart (d : Device) : Device :=
  mkDevice (asyncStorage d) (secureStore d) None None None None.

Section Onboarding.
Context {A : AuthHelper.Platform} {S : AuthHelper.Signing} {B : SecureStorage.Platform}
        {J : Profiles}.

(** [registerWithServer()], as far as the device goes.  [accepted]: the
    request went through and the relay answered that the user is, or already
    was, registered.  Every exception is caught. *)
Definition registerWithServer (accepted : bool) (d : Device) : bool * Device :=
  match AuthHelper.loadIdentity (authView d) with
  | (Returned (Some identity), a1) =>
      match AuthHelper.getBoxPublicKeyHex a1 with
      | (Returned boxPkHex, a2) =>
          match AuthHelper.getSigningPublicKeyHex a2 with
          | (Returned signPkHex, a3) =>
              let d3 := withAuth a3 d in
              if nonEmpty boxPkHex && nonEmpty signPkHex then
                if accepted
                then (true, setAsync (js "auth_registered") (js "true") d3)
                else (false, d3)
              else (false, d3)
          | (Threw, a3) => (false, withAuth a3 d)
          end
      | (Threw, a2) => (false, withAuth a2 d)
      end
  | (_, a1) => (false, withAuth a1 d)
  end.

(** [finishOnboarding()]; the result says whether the profile was saved (the
    screen then leaves for the tabs; it shows an alert otherwise). *)
Definition finishOnboarding (pseudo selectedAvatar : jsstring)
    (boxKeyPair : AuthHelper.BoxKeyPair) (accepted : bool) (nonce : bytes)
    (d : Device) : bool * Device :=
  let profile := JObject [(js "pseudo", JString (safePseudo pseudo));
                          (js "avatar", JString selectedAvatar)] in
  match AuthHelper.generateNewIdentity boxKeyPair (authView d) with
  | (Returned _, a1) =>
      let '(_, d2) := registerWithServer accepted (withAuth a1 d) in
      match SecureStorage.secureSet nonce PROFILE_KEY (JSON_stringify profile)
                                    (storageView d2) with
      | (Returned _, s3) => (true, withStorage s3 d2)
      | (Threw, s3) => (false, withStorage s3 d2)
      end
  | (Threw, a1) => (false, withAuth a1 d)
  end.

End Onboarding.

Section OnboardingTheorems.
Context {A : AuthHelper.Platform} {S : AuthHelper.Signing} {B : SecureStorage.Platform}
        {J : Profiles}.

Lemma loadIdentity_store (st : AuthHelper.State) :
  AuthHelper.SecureStore (snd (AuthHelper.loadIdentity st)) = AuthHelper.SecureStore st.
Proof.
  unfold AuthHelper.loadIdentity.
  repeat match goal with
         | |- context [match ?x with _ => _ end] =>
             lazymatch x with
             | context [match _ with _ => _ end] => fail
             | _ => destruct x eqn:?
             end
         end; reflexivity.
Qed.

Lemma getBoxPublicKeyHex_store (st : AuthHelper.State) :
  AuthHelper.SecureStore (snd (AuthHelper.getBoxPublicKeyHex st)) = AuthHelper.SecureStore st.
Proof.
  unfold AuthHelper.getBoxPublicKeyHex. pose proof (loadIdentity_store st) as H.
  destruct (AuthHelper.loadIdentity st) as [[[identity|]|] st1]; cbn [snd] in *; try exact H.
  now destruct (AuthHelper.publicKeyOf _).
Qed.

Lemma getSigningPublicKeyHex_store (st : AuthHelper.State) :
  AuthHelper.SecureStore (snd (AuthHelper.getSigningPublicKeyHex st)) = AuthHelper.SecureStore st.
Proof.
  unfold AuthHelper.getSigningPublicKeyHex. pose proof (loadIdentity_store st) as H.
  now destruct (AuthHelper.loadIdentity st) as [[[identity|]|] st1].
Qed.

(** The registration touches neither the secure store nor the cached
    encryption key, and in the local storage only [auth_registered]. *)
Lemma registerWithServer_frame (accepted : bool) (d : Device) :
  secureStore (snd (registerWithServer accepted d)) = secureStore d /\
  encKeyCache (snd (registerWithServer accepted d)) = encKeyCache d /\
  (forall k, k <> js "auth_registered" ->
     asyncStorage (snd (registerWithServer accepted d)) !! k = asyncStorage d !! k).
Proof.
  unfold registerWithServer.
  pose proof (loadIdentity_store (authView d)) as H1.
  destruct (AuthHelper.loadIdentity (authView d)) as [[[identity|]|] a1]; cbn [snd] in H1;
    try (cbn; now repeat split).
  pose proof (getBoxPublicKeyHex_store a1) as H2.
  destruct (AuthHelper.getBoxPublicKeyHex a1) as [[boxPkHex|] a2]; cbn [snd] in H2;
    [|cbn; rewrite H2, H1; now repeat split].
  pose proof (getSigningPublicKeyHex_store a2) as H3.
  destruct (AuthHelper.getSigningPublicKeyHex a2) as [[signPkHex|] a3]; cbn [snd] in H3;
    [|cbn; rewrite H3, H2, H1; now repeat split].
  cbv zeta.
  destruct (nonEmpty boxPkHex && nonEmpty signPkHex), accepted; cbn;
    rewrite H3, H2, H1; repeat split; try reflexivity.
  intros k Hk. now apply lookup_insert_ne.
Qed.

Lemma getEncryptionKey_fresh (a a' s : gmap jsstring jsstring) (k : bytes)
    (st1 : SecureStorage.State) :
  SecureStorage.getEncryptionKey (SecureStorage.mkState a s None)
  = (Returned (Some k), st1) ->
  SecureStorage.getEncryptionKey (SecureStorage.mkState a' s None)
  = (Returned (Some k), SecureStorage.mkState a' s (Some k)).
Proof.
  unfold SecureStorage.getEncryptionKey.
  cbn [SecureStorage.cachedEncKey SecureStorage.SecureStore SecureStorage.AsyncStorage].
  destruct (s !! SecureStorage.STORAGE_KEY) as [[|x stored]|]; try discriminate.
  destruct (SecureStorage.deriveKey (x :: stored)); [|discriminate].
  now intros [= ->].
Qed.

Lemma secureSet_store (nonce : bytes) (key value : jsstring)
    (st : SecureStorage.State) :
  SecureStorage.SecureStore (snd (SecureStorage.secureSet nonce key value st))
  = SecureStorage.SecureStore st.
Proof.
  unfold SecureStorage.secureSet, SecureStorage.getEncryptionKey.
  destruct st as [a s [c|]];
    cbn [SecureStorage.cachedEncKey SecureStorage.SecureStore SecureStorage.AsyncStorage];
    [reflexivity|].
  destruct (s !! SecureStorage.STORAGE_KEY) as [[|x stored]|]; try reflexivity.
  now destruct (SecureStorage.deriveKey (x :: stored)).
Qed.

(** X30.  Onboarding replaces the stored identity and saves the profile under
    the encryption key in hand.  When no key is cached, the key is derived
    from the new identity and the profile is read back after a restart.
    When a key derived from a former identity is still cached -
    [generateNewIdentity] clears the cache of [AuthHelper] only - the
    profile is sealed under that key: it reads back until the application is
    started again, and then, under the key of the new identity, the record
    does not open, is taken for damaged legacy data and is deleted. *)
Theorem X30_onboarding_profile
    (L : SecureStorage.PlatformLaws B)
    (pseudo selectedAvatar : jsstring) (boxKeyPair : AuthHelper.BoxKeyPair)
    (accepted : bool) (nonce nonce' : bytes) (d : Device) :
  let secret := AuthHelper.encodeBase64
                  (uint8ArrayToString (AuthHelper.secretKey boxKeyPair)) in
  let text := JSON_stringify
                (JObject [(js "pseudo", JString (safePseudo pseudo));
                          (js "avatar", JString selectedAvatar)]) in
  let d' := snd (finishOnboarding pseudo selectedAvatar boxKeyPair accepted nonce d) in
  length nonce = SecureStorage.nonceLength ->
  secret <> [] ->
  secureStore d' !! STORAGE_KEY = Some secret /\
  (encKeyCache d = None ->
   fst (finishOnboarding pseudo selectedAvatar boxKeyPair accepted nonce d) = true /\
   fst (SecureStorage.secureGet nonce' PROFILE_KEY (storageView (restart d')))
   = Returned (Some (lowBytes text))) /\
  (forall stale fresh : bytes,
     encKeyCache d = Some stale ->
     length stale = SecureStorage.keyLength ->
     SecureStorage.deriveKey secret = Returned fresh ->
     SecureStorage.opened (SecureStorage.seal nonce text stale) fresh = None ->
     SecureStorage.JSON_parses (SecureStorage.seal nonce text stale) = false ->
     fst (finishOnboarding pseudo selectedAvatar boxKeyPair accepted nonce d) = true /\
     fst (SecureStorage.secureGet nonce' PROFILE_KEY (storageView d'))
     = Returned (Some (lowBytes text)) /\
     exists st,
       SecureStorage.secureGet nonce' PROFILE_KEY (storageView (restart d'))
       = (Returned None, st) /\
       SecureStorage.AsyncStorage st !! PROFILE_KEY = None).
Proof.
  cbv zeta. intros Hn Hsecret.
  set (secret := AuthHelper.encodeBase64 _) in *.
  set (text := JSON_stringify _).
  unfold finishOnboarding. cbv zeta. fold text.
  unfold AuthHelper.generateNewIdentity, AuthHelper.clearAuthCache. cbv zeta.
  cbn [AuthHelper.SecureStore authView]. fold secret.
  set (d1 := withAuth _ d).
  assert (Hd1 : secureStore d1 = <[STORAGE_KEY := secret]> (secureStore d)) by reflexivity.
  assert (Hc1 : encKeyCache d1 = encKeyCache d) by reflexivity.
  destruct (registerWithServer_frame accepted d1) as (Hs2 & Hc2 & Ha2).
  destruct (registerWithServer accepted d1) as [registered d2]. cbn [snd] in Hs2, Hc2, Ha2.
  rewrite Hd1 in Hs2. rewrite Hc1 in Hc2. clearbody d1.
  assert (Hstored : secureStore d2 !! STORAGE_KEY = Some secret)
    by (rewrite Hs2; apply lookup_insert_eq).
  split; [|split].
  - pose proof (secureSet_store nonce PROFILE_KEY text (storageView d2)) as Hst.
    destruct (SecureStorage.secureSet nonce PROFILE_KEY text (storageView d2))
      as [[u|] s3]; cbn [snd withStorage secureStore] in *;
      rewrite Hst; exact Hstored.
  - intros Hnone. rewrite Hnone in Hc2.
    assert (Hav : SecureStorage.keyAvailable (storageView d2)).
    { unfold SecureStorage.keyAvailable, storageView.
      cbn [SecureStorage.cachedEncKey SecureStorage.SecureStore]. rewrite Hc2.
      exists secret. split; [exact Hstored | exact Hsecret]. }
    destruct (SecureStorage.getEncryptionKey_available _ Hav) as (k & Hk & Hget).
    unfold SecureStorage.secureSet. rewrite Hget. cbn [fst snd]. split; [reflexivity|].
    unfold restart, withStorage, storageView, SecureStorage.setItem.
    cbn [SecureStorage.AsyncStorage SecureStorage.SecureStore SecureStorage.cachedEncKey
         asyncStorage secureStore encKeyCache].
    set (a := <[PROFILE_KEY := SecureStorage.seal nonce text k]> (asyncStorage d2)).
    assert (Ha : a !! PROFILE_KEY = Some (SecureStorage.seal nonce text k))
      by apply lookup_insert_eq.
    unfold storageView in Hget. rewrite Hc2 in Hget.
    rewrite (SecureStorage.secureGet_with_key (SecureStorage.mkState a (secureStore d2) None) _ nonce'
               PROFILE_KEY (SecureStorage.seal nonce text k) k Ha
               (SecureStorage.seal_nonempty nonce text k Hn)
               (getEncryptionKey_fresh _ a _ k _ Hget)).
    rewrite SecureStorage.opened_seal by assumption. cbn [fst].
    now rewrite lowBytes_roundtrip.
  - intros stale fresh Hstale Hlen Hfresh Hopen Hjson.
    rewrite Hstale in Hc2.
    assert (Hget : SecureStorage.getEncryptionKey (storageView d2)
                   = (Returned (Some stale), storageView d2)).
    { unfold SecureStorage.getEncryptionKey, storageView.
      cbn [SecureStorage.cachedEncKey]. now rewrite Hc2. }
    unfold SecureStorage.secureSet. rewrite Hget. cbn [fst snd]. split; [reflexivity|].
    unfold restart, withStorage, storageView, SecureStorage.setItem.
    cbn [SecureStorage.AsyncStorage SecureStorage.SecureStore SecureStorage.cachedEncKey
         asyncStorage secureStore encKeyCache].
    rewrite Hc2.
    set (a := <[PROFILE_KEY := SecureStorage.seal nonce text stale]> (asyncStorage d2)).
    assert (Ha : a !! PROFILE_KEY = Some (SecureStorage.seal nonce text stale))
      by apply lookup_insert_eq.
    split.
    + rewrite (SecureStorage.secureGet_sealed a (secureStore d2) nonce nonce' PROFILE_KEY text stale
                 Hn Hlen Ha). reflexivity.
    + assert (Hget' : SecureStorage.getEncryptionKey
                        (SecureStorage.mkState a (secureStore d2) None)
                      = (Returned (Some fresh),
                         SecureStorage.mkState a (secureStore d2) (Some fresh))).
      { unfold SecureStorage.getEncryptionKey.
        cbn [SecureStorage.cachedEncKey SecureStorage.SecureStore
             SecureStorage.AsyncStorage].
        change SecureStorage.STORAGE_KEY with STORAGE_KEY. rewrite Hstored.
        destruct secret as [|x s]; [congruence|]. now rewrite Hfresh. }
      rewrite (SecureStorage.secureGet_with_key (SecureStorage.mkState a (secureStore d2) None) _ nonce'
                 PROFILE_KEY (SecureStorage.seal nonce text stale) fresh Ha
                 (SecureStorage.seal_nonempty nonce text stale Hn) Hget').
      rewrite Hopen. unfold SecureStorage.migrateLegacyData. rewrite Hjson.
      eexists. split; [reflexivity|].
      unfold SecureStorage.removeItem. cbn [SecureStorage.AsyncStorage].
      apply lookup_delete_eq.
Qed.

End OnboardingTheorems.

(** *** Onboarding on the executable platforms *)

Definition modelProfiles : Profiles := {|
  JSON_stringify := fun v =>
    match v with
    | JObject [(_, JString pseudo); (_, JString avatar)] =>
        js "{" ++ pseudo ++ js "," ++ avatar ++ js "}"
    | _ => js "null"
    end
|}.

(** A device with nothing stored, and one that still holds a key derived
    from a former identity. *)
Definition blankDevice : Device := mkDevice ∅ ∅ None None None None.

Definition staleKey : bytes := repeat "x"%char 32.

Definition staleDevice : Device := mkDevice ∅ ∅ (Some staleKey) None None None.

Definition kimKeyPair : AuthHelper.BoxKeyPair :=
  AuthHelper.mkBoxKeyPair (rev (repeat "k"%char 32)) (repeat "k"%char 32).

Definition onboardedOn (d : Device) : bool * Device :=
  finishOnboarding (A := AuthHelper.hexPlatform) (S := AuthHelper.modelSigning)
    (B := SecureStorage.modelPlatform) (J := modelProfiles)
    (js "  Kim ") (js "avatar1") kimKeyPair true SecureStorage.exampleNonce d.

Lemma X30_witness :
  secureStore (snd (onboardedOn blankDevice)) !! STORAGE_KEY
  = Some (AuthHelper.encodeBase64 (Platform := AuthHelper.hexPlatform)
            (uint8ArrayToString (AuthHelper.secretKey kimKeyPair))) /\
  fst (onboardedOn blankDevice) = true /\
  fst (SecureStorage.secureGet (P := SecureStorage.modelPlatform)
         SecureStorage.exampleNonce PROFILE_KEY
         (storageView (restart (snd (onboardedOn blankDevice)))))
  = Returned (Some (lowBytes (js "{Kim,avatar1}"))).
Proof.
  destruct (X30_onboarding_profile (A := AuthHelper.hexPlatform) (S := AuthHelper.modelSigning)
              (B := SecureStorage.modelPlatform) (J := modelProfiles)
              SecureStorage.storage_model_laws (js "  Kim ") (js "avatar1") kimKeyPair
              true SecureStorage.exampleNonce SecureStorage.exampleNonce blankDevice)
    as (Hstore & Hfresh & _).
  - reflexivity.
  - discriminate.
  - split; [exact Hstore|]. exact (Hfresh eq_refl).
Defined.

(** With the stale key cached the profile reads back before the restart and
    is deleted by the first read after it. *)
Example onboarding_stale_run :
  fst (onboardedOn staleDevice) = true /\
  fst (SecureStorage.secureGet (P := SecureStorage.modelPlatform)
         SecureStorage.exampleNonce PROFILE_KEY (storageView (snd (onboardedOn staleDevice))))
  = Returned (Some (js "{Kim,avatar1}")) /\
  fst (SecureStorage.secureGet (P := SecureStorage.modelPlatform)
         SecureStorage.exampleNonce PROFILE_KEY
         (storageView (restart (snd (onboardedOn staleDevice)))))
  = Returned None /\
  SecureStorage.AsyncStorage
    (snd (SecureStorage.secureGet (P := SecureStorage.modelPlatform)
            SecureStorage.exampleNonce PROFILE_KEY
            (storageView (restart (snd (onboardedOn staleDevice))))))
    !! PROFILE_KEY = None.
Proof. vm_compute. repeat split; reflexivity. Qed.

End Account.

(** ** Safety number (contact details screen) *)

Module SafetyNumber.

(** The order of [Array.prototype.sort] without a comparator: strings compared
    code unit by code unit, a proper prefix first. *)
Fixpoint jsLtb (a b : jsstring) : bool :=
  match a, b with
  | [], [] => false
  | [], _ :: _ => true
  | _ :: _, [] => false
  | x :: a', y :: b' =>
      if (x <? y)%N then true
      else if (y <? x)%N then false
      else jsLtb a' b'
  end.

(** A stable sort: each element goes after the elements that are not greater. *)
Fixpoint insertSorted (x : jsstring) (l : list jsstring) : list jsstring :=
  match l with
  | [] => [x]
  | y :: l' => if jsLtb x y then x :: l else y :: insertSorted x l'
  end.

Definition sort (l : list jsstring) : list jsstring :=
  fold_left (fun acc x => insertSorted x acc) l [].

(** [l.join("")] *)
Definition join (l : list jsstring) : jsstring := concat l.

(** [hash.substring(i, j)] *)
Definition substring (i j : nat) (s : jsstring) : jsstring :=
  take (j - i) (drop i s).

Section WithDigest.
(** [ExpoCrypto.digestStringAsync(SHA256, s)] *)
Variable sha256 : jsstring -> jsstring.

(** One group: [parseInt(h, 16).toString().padStart(4, '0').slice(-4)] *)
Definition group (h : jsstring) : jsstring :=
  sliceLast 4 (padStart0 4 (numberToString (parseInt16 h))).

Definition generateSafetyNumber (key1 key2 : jsstring) : jsstring :=
  let sorted := join (sort [key1; key2]) in
  let hash := sha256 sorted in
  let n1 := group (substring 0 4 hash) in
  let n2 := group (substring 4 8 hash) in
  let n3 := group (substring 8 12 hash) in
  let n4 := group (substring 12 16 hash) in
  n1 ++ js " " ++ n2 ++ js " " ++ n3 ++ js " " ++ n4.

End WithDigest.

Lemma jsLtb_asym (a b : jsstring) : jsLtb a b = true -> jsLtb b a = false.
Proof.
  revert b. induction a as [|x a IH]; intros [|y b]; simpl; try congruence.
  destruct (x <? y)%N eqn:Hxy, (y <? x)%N eqn:Hyx; try congruence.
  - apply N.ltb_lt in Hxy, Hyx. lia.
  - apply IH.
Qed.

Lemma jsLtb_total (a b : jsstring) :
  jsLtb a b = false -> jsLtb b a = false -> a = b.
Proof.
  revert b. induction a as [|x a IH]; intros [|y b]; simpl; try congruence.
  destruct (x <? y)%N eqn:Hxy, (y <? x)%N eqn:Hyx; try congruence.
  intros Hab Hba. apply N.ltb_ge in Hxy, Hyx.
  f_equal; [lia | now apply IH].
Qed.

Lemma sort_pair_sym (a b : jsstring) : sort [a; b] = sort [b; a].
Proof.
  unfold sort; simpl.
  destruct (jsLtb b a) eqn:Hba.
  - now rewrite (jsLtb_asym b a Hba).
  - destruct (jsLtb a b) eqn:Hab; [reflexivity|].
    now rewrite (jsLtb_total a b Hab Hba).
Qed.

(** C7.  The safety number does not depend on the order of the two keys. *)
Theorem C7_safety_number_symmetric
    (sha256 : jsstring -> jsstring) (pkA pkB : jsstring) :
  generateSafetyNumber sha256 pkA pkB = generateSafetyNumber sha256 pkB pkA.
Proof.
  unfold generateSafetyNumber. now rewrite (sort_pair_sym pkA pkB).
Qed.

(** On a digest that repeats its input, the groups of two keys. *)
Example safety_number_run :
  generateSafetyNumber (fun s => s) (js "ffff0a") (js "00ff")
  = js "0255 5535 0010 0NaN".
Proof. vm_compute. reflexivity. Qed.

(** *** The format of the safety number

    The number four hexadecimal digits denote, and a number below 10000 in
    four decimal digits. *)
Definition hexValue (h : jsstring) : Z :=
  fold_left (fun acc c => (16 * acc + default 0 (hexDigit c))%Z) h 0%Z.

Definition decimal4 (n : Z) : jsstring :=
  map (fun d => Z.to_N (48 + d))
      [n / 1000; (n / 100) mod 10; (n / 10) mod 10; n mod 10]%Z.

Lemma group_length (h : jsstring) : length (group h) = 4%nat.
Proof.
  unfold group, sliceLast, padStart0.
  rewrite length_drop, length_app, repeat_length. lia.
Qed.

Definition hexDigits : list N := map hexChar (map N.of_nat (seq 0 16)).

Lemma isLowerHexDigit_hexDigits (c : N) :
  isLowerHexDigit c = true -> In c hexDigits.
Proof.
  unfold isLowerHexDigit, hexDigits. intros H.
  apply in_map_iff.
  apply orb_true_iff in H as [H|H]; apply andb_true_iff in H as [H1 H2];
    apply N.leb_le in H1, H2.
  - exists (c - 48)%N. split.
    + unfold hexChar. replace (c - 48 <? 10)%N with true
        by (symmetry; apply N.ltb_lt; lia). lia.
    + apply in_map_iff. exists (N.to_nat (c - 48)). split; [lia|].
      apply in_seq. lia.
  - exists (c - 87)%N. split.
    + unfold hexChar. replace (c - 87 <? 10)%N with false
        by (symmetry; apply N.ltb_ge; lia). lia.
    + apply in_map_iff. exists (N.to_nat (c - 87)). split; [lia|].
      apply in_seq. lia.
Qed.

Definition groupAgrees (h : jsstring) : bool :=
  jsstring_eqb (group h) (decimal4 (hexValue h mod 10000)).

Lemma group_table :
  forallb (fun a => forallb (fun b => forallb (fun c => forallb (fun d =>
    groupAgrees [a; b; c; d]) hexDigits) hexDigits) hexDigits) hexDigits = true.
Proof. vm_compute. reflexivity. Qed.

Lemma group_hex (h : jsstring) :
  length h = 4%nat -> forallb isLowerHexDigit h = true ->
  group h = decimal4 (hexValue h mod 10000).
Proof.
  intros Hlen Hhex.
  destruct h as [|a [|b [|c [|d [|]]]]]; try discriminate.
  cbn [forallb] in Hhex.
  repeat (apply andb_true_iff in Hhex as [? Hhex]).
  pose proof group_table as T.
  rewrite forallb_forall in T.
  specialize (T a (isLowerHexDigit_hexDigits a ltac:(assumption))).
  rewrite forallb_forall in T.
  specialize (T b (isLowerHexDigit_hexDigits b ltac:(assumption))).
  rewrite forallb_forall in T.
  specialize (T c (isLowerHexDigit_hexDigits c ltac:(assumption))).
  rewrite forallb_forall in T.
  specialize (T d (isLowerHexDigit_hexDigits d ltac:(assumption))).
  unfold groupAgrees, jsstring_eqb in T. now apply bool_decide_eq_true in T.
Qed.

Lemma hex_substring (i j : nat) (hash : jsstring) :
  forallb isLowerHexDigit hash = true ->
  forallb isLowerHexDigit (substring i j hash) = true.
Proof.
  rewrite !forallb_forall. intros H x Hx. apply H.
  apply list_elem_of_In. apply list_elem_of_In in Hx.
  unfold substring in Hx.
  apply (subseteq_drop i hash). now apply (subseteq_take (j - i) (drop i hash)).
Qed.

Lemma substring_length (i j : nat) (hash : jsstring) :
  (j <= length hash)%nat -> length (substring i j hash) = (j - i)%nat.
Proof. intros H. unfold substring. rewrite length_take, length_drop. lia. Qed.

(** X11.  The safety number is always 19 code units long: four groups of four
    separated by spaces.  When the digest is hexadecimal, each group is the
    16-bit number that four digits of the digest denote, reduced modulo
    10000 and written with four decimal digits. *)
Theorem X11_safety_number_format
    (sha256 : jsstring -> jsstring) (key1 key2 : jsstring) :
  let hash := sha256 (join (sort [key1; key2])) in
  let digits i := decimal4 (hexValue (substring (4 * i) (4 * i + 4) hash) mod 10000) in
  length (generateSafetyNumber sha256 key1 key2) = 19%nat /\
  ((16 <= length hash)%nat -> forallb isLowerHexDigit hash = true ->
   generateSafetyNumber sha256 key1 key2
   = digits 0%nat ++ js " " ++ digits 1%nat ++ js " " ++ digits 2%nat
     ++ js " " ++ digits 3%nat).
Proof.
  cbv zeta. split.
  - unfold generateSafetyNumber. cbv zeta.
    rewrite !length_app, !group_length. reflexivity.
  - intros Hlen Hhex. unfold generateSafetyNumber. cbv zeta.
    rewrite !group_hex; try (apply hex_substring; exact Hhex);
      try (rewrite substring_length; lia).
    reflexivity.
Qed.

Example safety_number_digits :
  generateSafetyNumber (fun _ => js "ffff0a0000102710") (js "b") (js "a")
  = js "5535 2560 0016 0000".
Proof. vm_compute. reflexivity. Qed.

End SafetyNumber.

(** ** PIN lock (lock screen component) *)

Module LockScreen.

Definition APP_LOCK_KEY : jsstring := js "my_app_lock_pin_v1".
Definition FAILED_ATTEMPTS_KEY : jsstring := js "ghost_lock_failed_attempts".
Definition HASH_ITERATIONS : N := 50000.

(** [getDelay(failedAttempts)], in seconds. *)
Definition getDelay (failedAttempts : Z) : Z :=
  if (15 <=? failedAttempts)%Z then 300
  else if (10 <=? failedAttempts)%Z then 120
  else if (7 <=? failedAttempts)%Z then 60
  else if (5 <=? failedAttempts)%Z then 30
  else if (3 <=? failedAttempts)%Z then 10
  else 0.

Class Platform : Type := {
  sha256 : jsstring -> jsstring;
  (** [parseInt(s)]; [None] is [NaN]. *)
  parseInt : jsstring -> option Z;
  (** [JSON.parse]; [None] when it throws. *)
  JSON_parse : jsstring -> option json;
  JSON_stringify : json -> jsstring;
  (** The text a value that is not a string turns into inside a template or a
      concatenation. *)
  toText : json -> jsstring
}.

Class PlatformLaws (P : Platform) : Prop := {
  parseInt_numberToString :
    forall n : Z, (0 < n)%Z -> parseInt (numberToString (Some n)) = Some n
}.

Inductive Step : Type := type_selection | create | confirm | unlock.

(** The component's state, the secure store, and whether [onUnlock] was called.
    The digits typed so far and the message on display are presentation
    state and are left out. *)
Record State : Type := mkState {
  step : Step;
  confirmPin : jsstring;
  lockType : jsstring;
  failedAttempts : Z;
  cooldownRemaining : Z;
  SecureStore : gmap jsstring jsstring;
  unlocked : bool
}.

Definition withStore (f : gmap jsstring jsstring -> gmap jsstring jsstring)
    (st : State) : State :=
  mkState (step st) (confirmPin st) (lockType st) (failedAttempts st)
          (cooldownRemaining st) (f (SecureStore st)) (unlocked st).

Definition withCounters (failed cooldown : Z) (st : State) : State :=
  mkState (step st) (confirmPin st) (lockType st) failed cooldown
          (SecureStore st) (unlocked st).

Definition withStep (s : Step) (c : jsstring) (st : State) : State :=
  mkState s c (lockType st) (failedAttempts st) (cooldownRemaining st)
          (SecureStore st) (unlocked st).

Definition onUnlock (st : State) : State :=
  mkState (step st) (confirmPin st) (lockType st) (failedAttempts st)
          (cooldownRemaining st) (SecureStore st) true.

Section WithPlatform.
Context {P : Platform}.

Definition asText (v : json) : jsstring :=
  match v with
  | JString s => s
  | _ => toText v
  end.

(** [hashPin(pin, salt)] and [hashPinLegacy(pin, salt)] *)
Definition hashPin (pin salt : jsstring) : jsstring :=
  N.iter HASH_ITERATIONS (fun hash => sha256 (hash ++ salt))
    (sha256 (js "ghost:pin:v2:" ++ salt ++ js ":" ++ pin)).

Definition hashPinLegacy (pin salt : jsstring) : jsstring :=
  N.iter 10000 sha256 (salt ++ pin).

(** [parseInt(stored) || 0], and 0 when nothing is stored. *)
Definition loadFailedAttempts (store : gmap jsstring jsstring) : Z :=
  match store !! FAILED_ATTEMPTS_KEY with
  | Some ((_ :: _) as stored) =>
      match parseInt stored with
      | Some n => n
      | None => 0
      end
  | _ => 0
  end.

Definition saveFailedAttempts (count : Z) (st : State) : State :=
  withStore (insert FAILED_ATTEMPTS_KEY (numberToString (Some count))) st.

Definition clearFailedAttempts (st : State) : State :=
  withStore (delete FAILED_ATTEMPTS_KEY) st.

(** [startCooldown(seconds)] and one firing of its timer. *)
Definition startCooldown (seconds : Z) (st : State) : State :=
  withCounters (failedAttempts st) seconds st.

Definition tick (st : State) : State :=
  withCounters (failedAttempts st)
    (if (cooldownRemaining st <=? 1)%Z then 0 else cooldownRemaining st - 1)%Z st.

(** [loadPersistedState()] *)
Definition loadPersistedState (st : State) : State :=
  let persistedFailed := loadFailedAttempts (SecureStore st) in
  if (0 <? persistedFailed)%Z then
    let st1 := withCounters persistedFailed (cooldownRemaining st) st in
    let delay := getDelay persistedFailed in
    if (0 <? delay)%Z then startCooldown delay st1 else st1
  else st.

(** The component as it is mounted over a store. *)
Definition mount (isSetup : bool) (store : gmap jsstring jsstring) : State :=
  let st := mkState (if isSetup then type_selection else unlock) [] (js "pin4")
                    0 0 store false in
  if isSetup then st else loadPersistedState st.

Definition lockRecord (type hash salt : json) : json :=
  JObject [(js "type", type); (js "hash", hash); (js "salt", salt)].

(** The check of the entered code against the stored record: whether it is
    valid, and the record to write back when the legacy format matched.
    [newSalt] is what [generateSalt()] would draw. *)
Definition verify (storedValue : option jsstring) (enteredInput newSalt : jsstring)
    (currentType : jsstring) : bool * option jsstring :=
  match JSON_parse (default [] storedValue) with
  | None => (false, None)
  | Some parsed =>
      match getProp parsed (js "hash"), getProp parsed (js "salt"),
            getProp parsed (js "type") with
      | Returned (Some hash), Returned (Some salt), Returned type =>
          if truthy hash && truthy salt then
            let computedHash := hashPin enteredInput (asText salt) in
            if strictEqString computedHash hash then (true, None)
            else
              let legacyHash := hashPinLegacy enteredInput (asText salt) in
              if strictEqString legacyHash hash then
                let newHash := hashPin enteredInput newSalt in
                let type' := if truthyProp type then default JNull type
                             else JString currentType in
                (true, Some (JSON_stringify
                               (lockRecord type' (JString newHash) (JString newSalt))))
              else (false, None)
          else (false, None)
      | _, _, _ => (false, None)
      end
  end.

(** [handleComplete(enteredInput)] *)
Definition handleComplete (enteredInput newSalt : jsstring) (st : State) : State :=
  match step st with
  | unlock =>
      if (0 <? cooldownRemaining st)%Z then st
      else
        let storedValue := SecureStore st !! APP_LOCK_KEY in
        let '(valid, migrated) := verify storedValue enteredInput newSalt (lockType st) in
        let st1 := match migrated with
                   | Some record => withStore (insert APP_LOCK_KEY record) st
                   | None => st
                   end in
        if valid then
          onUnlock (clearFailedAttempts (withCounters 0 (cooldownRemaining st1) st1))
        else
          let newFailed := (failedAttempts st1 + 1)%Z in
          let st2 := saveFailedAttempts newFailed
                       (withCounters newFailed (cooldownRemaining st1) st1) in
          let delay := getDelay newFailed in
          if (0 <? delay)%Z then startCooldown delay st2 else st2
  | create => withStep confirm enteredInput st
  | confirm =>
      if jsstring_eqb enteredInput (confirmPin st) then
        let salt := newSalt in
        let hash := hashPin enteredInput salt in
        let data := JSON_stringify
                      (lockRecord (JString (lockType st)) (JString hash) (JString salt)) in
        onUnlock (withStore (insert APP_LOCK_KEY data) st)
      else withStep create [] st
  | type_selection => st
  end.

(** What can happen to a mounted lock screen. *)
Inductive Event : Type :=
| Tick
| Complete (enteredInput newSalt : jsstring)
| SelectType (type : jsstring)
| Biometrics (success : bool)
| Remount (isSetup : bool).

Definition react (e : Event) (st : State) : State :=
  match e with
  | Tick => tick st
  | Complete enteredInput newSalt => handleComplete enteredInput newSalt st
  | SelectType type =>
      match step st with
      | type_selection =>
          mkState create (confirmPin st) type (failedAttempts st)
                  (cooldownRemaining st) (SecureStore st) (unlocked st)
      | _ => st
      end
  | Biometrics success => if success then onUnlock st else st
  | Remount isSetup => mount isSetup (SecureStore st)
  end.

Inductive reachable : State -> Prop :=
| reachable_mount isSetup store : reachable (mount isSetup store)
| reachable_react e st : reachable st -> reachable (react e st).

(** The wait the persisted counter asks for. *)
Definition requiredWait (st : State) : Z :=
  getDelay (loadFailedAttempts (SecureStore st)).

(** The entered code is verified against the stored record. *)
Definition verified (enteredInput newSalt : jsstring) (st : State) : Prop :=
  step st = unlock /\ (cooldownRemaining st <= 0)%Z /\
  fst (verify (SecureStore st !! APP_LOCK_KEY) enteredInput newSalt (lockType st)) = true.

End WithPlatform.

(** *** An executable platform *)

Definition unjs (s : jsstring) : string :=
  string_of_list_ascii (map ascii_of_N s).

Lemma unjs_js (s : string) : unjs (js s) = s.
Proof.
  unfold unjs, js. rewrite map_map.
  rewrite (map_ext _ (fun a => a)) by apply ascii_N_embedding.
  rewrite map_id. apply string_of_list_ascii_of_string.
Qed.

Definition modelPlatform : Platform := {|
  sha256 := fun s => [(48 + fold_right N.add 0 s mod 10)%N];
  parseInt := fun s => option_map Z.of_int (NilZero.int_of_string (unjs s));
  JSON_parse := fun s =>
    match s with
    | 123%N :: hash :: salt :: _ =>
        Some (lockRecord (JString (js "pin4")) (JString [hash]) (JString [salt]))
    | _ => None
    end;
  JSON_stringify := fun v =>
    match v with
    | JObject [(_, _); (_, JString hash); (_, JString salt)] =>
        123%N :: take 1 hash ++ take 1 salt
    | _ => js "null"
    end;
  toText := fun _ => js "[object Object]"
|}.

Lemma lock_model_laws : PlatformLaws modelPlatform.
Proof.
  split. intros n Hn. simpl. unfold numberToString. rewrite unjs_js.
  destruct n as [|p|p]; try lia. simpl Z.to_int.
  rewrite NilZero.isi.
  - cbn [option_map]. f_equal. exact (DecimalZ.of_to (Z.pos p)).
  - intros H. injection H as H. now apply DecimalPos.Unsigned.to_uint_nonnil in H.
  - discriminate.
Qed.

(** *** Theorems *)

Lemma getDelay_monotone (a b : Z) : (a <= b)%Z -> (getDelay a <= getDelay b)%Z.
Proof.
  intros Hab. unfold getDelay.
  repeat match goal with
         | |- context [(?x <=? ?y)%Z] => destruct (Z.leb_spec x y)
         end; lia.
Qed.

Ltac lock_simpl :=
  cbn [step confirmPin lockType failedAttempts cooldownRemaining SecureStore
       unlocked withStore withCounters withStep onUnlock startCooldown
       saveFailedAttempts clearFailedAttempts fst snd].

Lemma lock_keys_differ : APP_LOCK_KEY <> FAILED_ATTEMPTS_KEY.
Proof. discriminate. Qed.

Lemma numberToString_nonempty (z : Z) : numberToString (Some z) <> [].
Proof.
  unfold numberToString, js.
  destruct z as [|p|p]; simpl Z.to_int; simpl NilZero.string_of_int.
  - discriminate.
  - destruct (Pos.to_uint p); discriminate.
  - discriminate.
Qed.

Section Theorems.
Context {P : Platform}.

Lemma loadFailedAttempts_other (store : gmap jsstring jsstring) (v : jsstring) :
  loadFailedAttempts (<[APP_LOCK_KEY := v]> store) = loadFailedAttempts store.
Proof.
  unfold loadFailedAttempts.
  now rewrite lookup_insert_ne by apply lock_keys_differ.
Qed.

Lemma loadFailedAttempts_cleared (store : gmap jsstring jsstring) :
  loadFailedAttempts (delete FAILED_ATTEMPTS_KEY store) = 0%Z.
Proof. unfold loadFailedAttempts. now rewrite lookup_delete_eq. Qed.

Lemma loadFailedAttempts_saved
    (L : PlatformLaws P) (store : gmap jsstring jsstring) (n : Z) :
  (0 < n)%Z ->
  loadFailedAttempts (<[FAILED_ATTEMPTS_KEY := numberToString (Some n)]> store) = n.
Proof.
  intros Hn. unfold loadFailedAttempts. rewrite lookup_insert_eq.
  pose proof (numberToString_nonempty n) as Hne.
  destruct (numberToString (Some n)) as [|c s] eqn:E; [congruence|].
  rewrite <- E. now rewrite parseInt_numberToString.
Qed.

(** On the unlock screen the counter in memory is not behind the persisted
    one. *)
Definition inStep (st : State) : Prop :=
  step st = unlock ->
  (0 <= failedAttempts st)%Z /\
  (loadFailedAttempts (SecureStore st) <= failedAttempts st)%Z.

Lemma inStep_mount (isSetup : bool) (store : gmap jsstring jsstring) :
  inStep (mount isSetup store).
Proof.
  unfold mount, inStep. destruct isSetup; simpl; [discriminate|].
  intros _. unfold loadPersistedState; simpl.
  destruct (Z.ltb_spec 0 (loadFailedAttempts store)) as [Hpos|Hneg].
  - destruct (0 <? getDelay (loadFailedAttempts store))%Z; simpl; lia.
  - simpl. lia.
Qed.

Lemma inStep_handleComplete
    (L : PlatformLaws P) (enteredInput newSalt : jsstring) (st : State) :
  inStep st -> inStep (handleComplete enteredInput newSalt st).
Proof.
  unfold inStep, handleComplete. intros Hinv.
  destruct (step st) eqn:Hstep; simpl.
  - now rewrite Hstep.
  - discriminate.
  - destruct (jsstring_eqb enteredInput (confirmPin st)); simpl;
      [rewrite Hstep|]; discriminate.
  - specialize (Hinv eq_refl) as [Hpos Hle].
    destruct (0 <? cooldownRemaining st)%Z; [now rewrite Hstep|].
    destruct (verify _ _ _ _) as [valid [record|]]; destruct valid; lock_simpl.
    + intros _. rewrite loadFailedAttempts_cleared. lia.
    + destruct (0 <? getDelay _)%Z; lock_simpl; intros _;
        rewrite loadFailedAttempts_saved by (assumption || lia); lia.
    + intros _. rewrite loadFailedAttempts_cleared. lia.
    + destruct (0 <? getDelay _)%Z; lock_simpl; intros _;
        rewrite loadFailedAttempts_saved by (assumption || lia); lia.
Qed.

Lemma inStep_react (L : PlatformLaws P) (e : Event) (st : State) :
  inStep st -> inStep (react e st).
Proof.
  intros Hinv. destruct e; simpl.
  - exact Hinv.
  - now apply inStep_handleComplete.
  - unfold inStep in *. destruct (step st) eqn:Hstep; simpl;
      rewrite ?Hstep; try discriminate. exact Hinv.
  - destruct success; exact Hinv.
  - apply inStep_mount.
Qed.

Lemma inStep_reachable (L : PlatformLaws P) (st : State) :
  reachable st -> inStep st.
Proof.
  induction 1 as [isSetup store | e st _ IH].
  - apply inStep_mount.
  - now apply inStep_react.
Qed.

Lemma requiredWait_mount (isSetup : bool) (store : gmap jsstring jsstring) :
  SecureStore (mount isSetup store) = store.
Proof.
  unfold mount. destruct isSetup; [reflexivity|].
  unfold loadPersistedState; simpl.
  destruct (0 <? loadFailedAttempts store)%Z; [|reflexivity].
  now destruct (0 <? getDelay _)%Z.
Qed.

Lemma handleComplete_wait
    (L : PlatformLaws P) (enteredInput newSalt : jsstring) (st : State) :
  inStep st ->
  (requiredWait (handleComplete enteredInput newSalt st) < requiredWait st)%Z ->
  verified enteredInput newSalt st /\
  requiredWait (handleComplete enteredInput newSalt st) = 0%Z /\
  SecureStore (handleComplete enteredInput newSalt st) !! FAILED_ATTEMPTS_KEY = None.
Proof.
  unfold requiredWait, handleComplete, verified. intros Hinv.
  destruct (step st) eqn:Hstep; simpl; try lia.
  - destruct (jsstring_eqb enteredInput (confirmPin st)); simpl;
      rewrite ?loadFailedAttempts_other; lia.
  - specialize (Hinv Hstep) as [Hpos Hle].
    destruct (Z.ltb_spec 0 (cooldownRemaining st)) as [Hcool|Hcool]; [lia|].
    pose proof (getDelay_monotone (loadFailedAttempts (SecureStore st))
                  (failedAttempts st + 1)) as Hmono.
    destruct (verify _ _ _ _) as [valid [record|]]; destruct valid; lock_simpl.
    + rewrite loadFailedAttempts_cleared, lookup_delete_eq.
      intros _. repeat split; try reflexivity. exact Hcool.
    + destruct (0 <? getDelay _)%Z; lock_simpl;
        rewrite loadFailedAttempts_saved by (assumption || lia);
        rewrite ?loadFailedAttempts_other; lia.
    + rewrite loadFailedAttempts_cleared, lookup_delete_eq.
      intros _. repeat split; try reflexivity. exact Hcool.
    + destruct (0 <? getDelay _)%Z; lock_simpl;
        rewrite loadFailedAttempts_saved by (assumption || lia); lia.
Qed.

End Theorems.

Section Properties.
Context {P : Platform}.

(** C8.  The wait computed from the failed-attempt counter does not decrease
    when the counter grows.  On a mounted lock screen, the wait that the
    persisted counter asks for decreases only when an entered code is
    verified: the counter is then cleared and the wait is zero; a rejected
    code persists the counter plus one. *)
Theorem C8_lockout_wait (L : PlatformLaws P) :
  (forall a b : Z, (a <= b)%Z -> (getDelay a <= getDelay b)%Z) /\
  (forall (st : State) (e : Event),
     reachable st ->
     (requiredWait (react e st) < requiredWait st)%Z ->
     (exists enteredInput newSalt,
        e = Complete enteredInput newSalt /\ verified enteredInput newSalt st) /\
     requiredWait (react e st) = 0%Z /\
     SecureStore (react e st) !! FAILED_ATTEMPTS_KEY = None) /\
  (forall (st : State) (enteredInput newSalt : jsstring),
     verified enteredInput newSalt st ->
     SecureStore (handleComplete enteredInput newSalt st) !! FAILED_ATTEMPTS_KEY = None /\
     failedAttempts (handleComplete enteredInput newSalt st) = 0%Z /\
     requiredWait (handleComplete enteredInput newSalt st) = 0%Z) /\
  (forall (st : State) (enteredInput newSalt : jsstring),
     reachable st ->
     step st = unlock -> (cooldownRemaining st <= 0)%Z ->
     fst (verify (SecureStore st !! APP_LOCK_KEY) enteredInput newSalt (lockType st)) = false ->
     loadFailedAttempts (SecureStore (handleComplete enteredInput newSalt st))
       = (failedAttempts st + 1)%Z /\
     (requiredWait st <= requiredWait (handleComplete enteredInput newSalt st))%Z).
Proof.
  split; [exact getDelay_monotone|]. split; [|split].
  - intros st e Hreach Hlt.
    pose proof (inStep_reachable L st Hreach) as Hinv.
    destruct e as [| enteredInput newSalt | type | success | isSetup];
      unfold requiredWait in Hlt; simpl in Hlt.
    + lia.
    + destruct (handleComplete_wait L enteredInput newSalt st Hinv Hlt)
        as (Hv & Hw & Hc).
      split; [now exists enteredInput, newSalt | now split].
    + destruct (step st); simpl in Hlt; lia.
    + destruct success; simpl in Hlt; lia.
    + rewrite requiredWait_mount in Hlt. lia.
  - intros st enteredInput newSalt (Hstep & Hcool & Hvalid).
    unfold requiredWait, handleComplete. rewrite Hstep.
    destruct (Z.ltb_spec 0 (cooldownRemaining st)) as [Hc|_]; [lia|].
    destruct (verify _ _ _ _) as [valid [record|]]; simpl in Hvalid; subst valid;
      lock_simpl; rewrite loadFailedAttempts_cleared, lookup_delete_eq;
      now repeat split.
  - intros st enteredInput newSalt Hreach Hstep Hcool Hinvalid.
    destruct (inStep_reachable L st Hreach Hstep) as [Hpos Hle].
    pose proof (getDelay_monotone (loadFailedAttempts (SecureStore st))
                  (failedAttempts st + 1)) as Hmono.
    unfold requiredWait, handleComplete. rewrite Hstep.
    destruct (Z.ltb_spec 0 (cooldownRemaining st)) as [Hc|_]; [lia|].
    destruct (verify _ _ _ _) as [valid [record|]]; simpl in Hinvalid; subst valid;
      destruct (0 <? getDelay _)%Z; lock_simpl;
      rewrite loadFailedAttempts_saved by (assumption || lia);
      (split; [reflexivity | lia]).
Qed.

End Properties.

(** *** A run on the executable platform *)

Definition examplePin : jsstring := js "1234".
Definition exampleSalt : jsstring := js "7".

Definition exampleRecord : jsstring :=
  (123%N :: hashPin (P := modelPlatform) examplePin exampleSalt) ++ exampleSalt.

Definition locked : State :=
  mount (P := modelPlatform) false {[ APP_LOCK_KEY := exampleRecord ]}.

Definition wrong : Event := Complete (js "1235") (js "9").
Definition right : Event := Complete examplePin (js "9").

Definition run (events : list Event) (st : State) : State :=
  fold_left (fun s e => react (P := modelPlatform) e s) events st.

(** Three rejected codes ask for ten seconds; the right code, entered after
    the cooldown, clears the counter. *)
Example lock_run :
  let st3 := run [wrong; wrong; wrong] locked in
  requiredWait (P := modelPlatform) st3 = 10%Z /\
  cooldownRemaining st3 = 10%Z /\
  requiredWait (P := modelPlatform) (run [right] st3) = 10%Z /\
  requiredWait (P := modelPlatform) (run (repeat Tick 10 ++ [right]) st3) = 0%Z /\
  unlocked (run (repeat Tick 10 ++ [right]) st3) = true.
Proof. vm_compute. repeat split. Qed.

(** The statement on the executable platform. *)
Lemma C8_witness :
  (forall a b : Z, (a <= b)%Z -> (getDelay a <= getDelay b)%Z) /\
  (forall (st : State) (e : Event),
     reachable (P := modelPlatform) st ->
     (requiredWait (P := modelPlatform) (react (P := modelPlatform) e st)
      < requiredWait (P := modelPlatform) st)%Z ->
     (exists enteredInput newSalt,
        e = Complete enteredInput newSalt /\
        verified (P := modelPlatform) enteredInput newSalt st) /\
     requiredWait (P := modelPlatform) (react (P := modelPlatform) e st) = 0%Z /\
     SecureStore (react (P := modelPlatform) e st) !! FAILED_ATTEMPTS_KEY = None).
Proof.
  split.
  - exact (proj1 (C8_lockout_wait lock_model_laws)).
  - exact (proj1 (proj2 (C8_lockout_wait lock_model_laws))).
Defined.

(** *** Setting the code, unlocking, waiting *)

Section Unlocking.
Context {P : Platform}.

Lemma hashPin_digest (pin salt : jsstring) :
  exists s, hashPin pin salt = sha256 s.
Proof.
  unfold hashPin. change HASH_ITERATIONS with (N.succ 49999).
  rewrite N.iter_succ. eexists. reflexivity.
Qed.

Lemma lockRecord_props (type hash salt : json) :
  getProp (lockRecord type hash salt) (js "hash") = Returned (Some hash) /\
  getProp (lockRecord type hash salt) (js "salt") = Returned (Some salt) /\
  getProp (lockRecord type hash salt) (js "type") = Returned (Some type).
Proof. repeat split; reflexivity. Qed.

Lemma strictEqString_refl (s : jsstring) : strictEqString s (JString s) = true.
Proof. unfold strictEqString, jsstring_eqb. now apply bool_decide_eq_true_2. Qed.

Lemma truthy_string (s : jsstring) : s <> [] -> truthy (JString s) = true.
Proof.
  intros Hs. unfold truthy, jsstring_eqb.
  now rewrite bool_decide_eq_false_2.
Qed.

(** The check of a code against a record of the current format. *)
Lemma verify_current (stored : jsstring) (type : json) (hash salt : jsstring)
    (enteredInput newSalt currentType : jsstring) :
  JSON_parse stored = Some (lockRecord type (JString hash) (JString salt)) ->
  hash <> [] -> salt <> [] ->
  hashPin enteredInput salt = hash ->
  verify (Some stored) enteredInput newSalt currentType = (true, None).
Proof.
  intros Hparse Hh Hs Heq. unfold verify. change (default [] (Some stored)) with stored. rewrite Hparse.
  destruct (lockRecord_props type (JString hash) (JString salt)) as (-> & -> & ->).
  rewrite !truthy_string by assumption. cbn [andb asText].
  now rewrite Heq, strictEqString_refl.
Qed.

Lemma verify_rejects (stored : jsstring) (type : json) (hash salt : jsstring)
    (enteredInput newSalt currentType : jsstring) :
  JSON_parse stored = Some (lockRecord type (JString hash) (JString salt)) ->
  hashPin enteredInput salt <> hash ->
  hashPinLegacy enteredInput salt <> hash ->
  verify (Some stored) enteredInput newSalt currentType = (false, None).
Proof.
  intros Hparse H1 H2. unfold verify. change (default [] (Some stored)) with stored. rewrite Hparse.
  destruct (lockRecord_props type (JString hash) (JString salt)) as (-> & -> & ->).
  destruct (truthy (JString hash) && truthy (JString salt)); [|reflexivity].
  cbn [asText]. unfold strictEqString, jsstring_eqb.
  now rewrite !bool_decide_eq_false_2.
Qed.

(** X12.  A code that is confirmed is stored hashed under a fresh salt and
    unlocks afterwards: the check of the same code against the stored record
    succeeds without rewriting it, and a code whose two hashes differ from the
    stored one is rejected. *)
Theorem X12_pin_set_then_unlock
    (st : State) (pin salt : jsstring) :
  let record := lockRecord (JString (lockType st)) (JString (hashPin pin salt))
                           (JString salt) in
  step st = confirm ->
  confirmPin st = pin ->
  salt <> [] ->
  (forall s, sha256 s <> []) ->
  JSON_parse (JSON_stringify record) = Some record ->
  let st' := handleComplete pin salt st in
  unlocked st' = true /\
  SecureStore st' !! APP_LOCK_KEY = Some (JSON_stringify record) /\
  (forall newSalt currentType,
     verify (SecureStore st' !! APP_LOCK_KEY) pin newSalt currentType = (true, None)) /\
  (forall other newSalt currentType,
     hashPin other salt <> hashPin pin salt ->
     hashPinLegacy other salt <> hashPin pin salt ->
     verify (SecureStore st' !! APP_LOCK_KEY) other newSalt currentType = (false, None)).
Proof.
  cbv zeta. intros Hstep Hconfirm Hsalt Hsha Hjson.
  unfold handleComplete. rewrite Hstep, Hconfirm.
  unfold jsstring_eqb. rewrite bool_decide_eq_true_2 by reflexivity.
  lock_simpl. rewrite lookup_insert_eq.
  assert (Hh : hashPin pin salt <> []).
  { destruct (hashPin_digest pin salt) as [s ->]. apply Hsha. }
  split; [reflexivity|]. split; [reflexivity|]. split.
  - intros newSalt currentType. now apply (verify_current _ _ _ _ _ _ _ Hjson).
  - intros other newSalt currentType H1 H2.
    now apply (verify_rejects _ _ _ _ _ _ _ Hjson).
Qed.

(** X13.  A record in the legacy format is upgraded by the first unlock: the
    code is accepted, the record is rewritten with the current hash under a
    fresh salt, and the next check of the same code succeeds against the new
    record without rewriting it again. *)
Theorem X13_legacy_pin_upgraded
    (st : State) (stored : jsstring) (type : json) (hash salt pin newSalt : jsstring) :
  let type' := if truthy type then type else JString (lockType st) in
  let upgraded := lockRecord type' (JString (hashPin pin newSalt)) (JString newSalt) in
  step st = unlock ->
  (cooldownRemaining st <= 0)%Z ->
  SecureStore st !! APP_LOCK_KEY = Some stored ->
  JSON_parse stored = Some (lockRecord type (JString hash) (JString salt)) ->
  hash <> [] -> salt <> [] -> newSalt <> [] ->
  hashPinLegacy pin salt = hash ->
  hashPin pin salt <> hash ->
  (forall s, sha256 s <> []) ->
  JSON_parse (JSON_stringify upgraded) = Some upgraded ->
  let st' := handleComplete pin newSalt st in
  unlocked st' = true /\
  failedAttempts st' = 0%Z /\
  SecureStore st' !! APP_LOCK_KEY = Some (JSON_stringify upgraded) /\
  (forall salt2 currentType,
     verify (SecureStore st' !! APP_LOCK_KEY) pin salt2 currentType = (true, None)).
Proof.
  cbv zeta. intros Hstep Hcool Hstored Hparse Hh Hs Hns Hlegacy Hcurrent Hsha Hjson.
  unfold handleComplete. rewrite Hstep.
  replace (0 <? cooldownRemaining st)%Z with false by (symmetry; apply Z.ltb_ge; lia).
  assert (Hverify :
    verify (SecureStore st !! APP_LOCK_KEY) pin newSalt (lockType st)
    = (true, Some (JSON_stringify
                     (lockRecord (if truthy type then type else JString (lockType st))
                        (JString (hashPin pin newSalt)) (JString newSalt))))).
  { unfold verify. rewrite Hstored. change (default [] (Some stored)) with stored. rewrite Hparse.
    destruct (lockRecord_props type (JString hash) (JString salt)) as (-> & -> & ->).
    rewrite !truthy_string by assumption. cbn [andb asText].
    unfold strictEqString at 1, jsstring_eqb.
    rewrite bool_decide_eq_false_2 by exact Hcurrent.
    rewrite Hlegacy, strictEqString_refl. cbn [truthyProp default].
    reflexivity. }
  rewrite Hverify. lock_simpl.
  rewrite lookup_delete_ne by (apply not_eq_sym, lock_keys_differ).
  rewrite lookup_insert_eq.
  split; [reflexivity|]. split; [reflexivity|]. split; [reflexivity|].
  intros salt2 currentType.
  apply (verify_current _ _ _ _ _ _ _ Hjson); try assumption; try reflexivity.
  destruct (hashPin_digest pin newSalt) as [s ->]. apply Hsha.
Qed.

Lemma tick_iter_fields (k : nat) (st : State) :
  step (Nat.iter k tick st) = step st /\
  unlocked (Nat.iter k tick st) = unlocked st /\
  SecureStore (Nat.iter k tick st) = SecureStore st /\
  failedAttempts (Nat.iter k tick st) = failedAttempts st.
Proof.
  induction k as [|k IH]; [now repeat split|].
  rewrite Nat.iter_succ. unfold tick at 1 2 3 4. lock_simpl. exact IH.
Qed.

Lemma tick_iter_cooldown (k : nat) (st : State) :
  (0 <= cooldownRemaining st)%Z ->
  cooldownRemaining (Nat.iter k tick st)
  = Z.max 0 (cooldownRemaining st - Z.of_nat k).
Proof.
  intros Hpos. induction k as [|k IH].
  - change (Nat.iter 0 tick st) with st. change (Z.of_nat 0) with 0%Z. lia.
  - rewrite Nat.iter_succ. unfold tick at 1.
    cbn [cooldownRemaining withCounters]. rewrite IH.
    destruct (Z.leb_spec (Z.max 0 (cooldownRemaining st - Z.of_nat k)) 1); lia.
Qed.

(** X14.  A cooldown of [n] seconds counts down by one per timer tick and stops
    at zero; as long as it has not reached zero a completed code changes
    nothing, whether it is the right one or not. *)
Theorem X14_cooldown_countdown
    (n : Z) (k : nat) (st : State) :
  (0 <= n)%Z ->
  let waiting := Nat.iter k tick (startCooldown n st) in
  cooldownRemaining waiting = Z.max 0 (n - Z.of_nat k) /\
  (step st = unlock -> (Z.of_nat k < n)%Z ->
   forall enteredInput newSalt, handleComplete enteredInput newSalt waiting = waiting).
Proof.
  intros Hn. cbv zeta.
  pose proof (tick_iter_cooldown k (startCooldown n st) Hn) as Hc.
  unfold startCooldown at 2 in Hc. cbn [cooldownRemaining withCounters] in Hc.
  split; [exact Hc|].
  intros Hstep Hk enteredInput newSalt.
  unfold handleComplete.
  destruct (tick_iter_fields k (startCooldown n st)) as (-> & _).
  unfold startCooldown at 1. lock_simpl. rewrite Hstep, Hc.
  replace (0 <? Z.max 0 (n - Z.of_nat k))%Z with true
    by (symmetry; apply Z.ltb_lt; lia).
  reflexivity.
Qed.

End Unlocking.

(** The setup screen after the first entry of [examplePin]. *)
Definition confirming : State :=
  mkState confirm examplePin (js "pin4") 0 0 ∅ false.

Lemma X12_witness :
  unlocked (handleComplete (P := modelPlatform) examplePin exampleSalt confirming) = true /\
  SecureStore (handleComplete (P := modelPlatform) examplePin exampleSalt confirming)
    !! APP_LOCK_KEY
  = Some (@JSON_stringify modelPlatform
            (lockRecord (JString (lockType confirming))
               (JString (hashPin (P := modelPlatform) examplePin exampleSalt))
               (JString exampleSalt))) /\
  (forall newSalt currentType,
     verify (P := modelPlatform)
       (SecureStore (handleComplete (P := modelPlatform) examplePin exampleSalt confirming)
          !! APP_LOCK_KEY) examplePin newSalt currentType = (true, None)) /\
  (forall other newSalt currentType,
     hashPin (P := modelPlatform) other exampleSalt
     <> hashPin (P := modelPlatform) examplePin exampleSalt ->
     hashPinLegacy (P := modelPlatform) other exampleSalt
     <> hashPin (P := modelPlatform) examplePin exampleSalt ->
     verify (P := modelPlatform)
       (SecureStore (handleComplete (P := modelPlatform) examplePin exampleSalt confirming)
          !! APP_LOCK_KEY) other newSalt currentType = (false, None)).
Proof.
  refine (X12_pin_set_then_unlock (P := modelPlatform) confirming examplePin exampleSalt
            eq_refl eq_refl _ _ _).
  - discriminate.
  - intros s. discriminate.
  - vm_compute. reflexivity.
Defined.

(** A record written by the former version: the hash is the legacy one. *)
Definition legacyRecord : jsstring :=
  (123%N :: hashPinLegacy (P := modelPlatform) examplePin exampleSalt) ++ exampleSalt.

Definition legacyLocked : State :=
  mount (P := modelPlatform) false {[ APP_LOCK_KEY := legacyRecord ]}.

Lemma X13_witness :
  unlocked (handleComplete (P := modelPlatform) examplePin (js "9") legacyLocked) = true /\
  failedAttempts (handleComplete (P := modelPlatform) examplePin (js "9") legacyLocked)
  = 0%Z /\
  SecureStore (handleComplete (P := modelPlatform) examplePin (js "9") legacyLocked)
    !! APP_LOCK_KEY
  = Some (@JSON_stringify modelPlatform
            (lockRecord
               (if truthy (JString (js "pin4")) then JString (js "pin4")
                else JString (lockType legacyLocked))
               (JString (hashPin (P := modelPlatform) examplePin (js "9")))
               (JString (js "9")))) /\
  (forall salt2 currentType,
     verify (P := modelPlatform)
       (SecureStore (handleComplete (P := modelPlatform) examplePin (js "9") legacyLocked)
          !! APP_LOCK_KEY) examplePin salt2 currentType = (true, None)).
Proof.
  refine (X13_legacy_pin_upgraded (P := modelPlatform) legacyLocked legacyRecord
            (JString (js "pin4"))
            (hashPinLegacy (P := modelPlatform) examplePin exampleSalt) exampleSalt
            examplePin (js "9") eq_refl _ _ _ _ _ _ eq_refl _ _ _).
  - vm_compute. discriminate.
  - vm_compute. reflexivity.
  - vm_compute. reflexivity.
  - vm_compute. discriminate.
  - discriminate.
  - discriminate.
  - vm_compute. discriminate.
  - intros s. discriminate.
  - vm_compute. reflexivity.
Defined.

Lemma X14_witness :
  cooldownRemaining (Nat.iter 4 tick (startCooldown 10 locked))
  = Z.max 0 (10 - Z.of_nat 4) /\
  (step locked = unlock -> (Z.of_nat 4 < 10)%Z ->
   forall enteredInput newSalt,
     handleComplete (P := modelPlatform) enteredInput newSalt
       (Nat.iter 4 tick (startCooldown 10 locked))
     = Nat.iter 4 tick (startCooldown 10 locked)).
Proof.
  apply (X14_cooldown_countdown (P := modelPlatform) 10 4 locked). lia.
Defined.

End LockScreen.

(** ** Contacts, inbound dispatch and the ephemeral sweep
       (app/(tabs)/_layout.tsx, contact list and contact details screens) *)

Module Dispatcher.

(** *** Data *)

Module Contact.
(** A contact of the list.  Flags that are absent count as [false]; [key] is
    optional because approving a key copies [pendingNewKey] into it. *)
Record t : Type := mk {
  id : jsstring;
  name : option jsstring;
  key : option jsstring;
  avatar : option jsstring;
  alias : option jsstring;
  isSelf : bool;
  isBlocked : bool;
  isVerified : bool;
  securityWarning : bool;
  pendingNewKey : option jsstring
}.
End Contact.

Module Message.
Record t : Type := mk {
  id : jsstring;
  text : jsstring;
  timestamp : Z;
  isMe : bool;
  status : option jsstring
}.
End Message.

(** One item of the relay's answer to a poll. *)
Record InboundItem : Type := mkItem {
  msg_id : option Z;
  content : jsstring
}.

(** The values [Date.now()] and [Crypto.getRandomBytes] take while one item
    is handled, in the order of the calls. *)
Record Entropy : Type := mkEntropy {
  now1 : Z;
  now2 : Z;
  now3 : Z;
  random1 : bytes;
  random2 : bytes
}.

(** What the relay answers to [GET /check/:id]: the request or the reading of
    its body throws, the status is not 2xx, or a list of items arrives (each
    paired with the clock and random values met while it is handled). *)
Inductive Response : Type :=
| NetworkError
| NotOk
| Ok (messages : list (Entropy * InboundItem)).

(** What [JSON.parse] makes of a record that [secureGet] returned: a value of
    the expected shape, or an exception. *)
Inductive Stored (A : Type) : Type :=
| Parsed (a : A)
| Unparseable.
Arguments Parsed {A} a.
Arguments Unparseable {A}.

(** The persistent state.  The records that [secureSet] writes as
    [JSON.stringify(x)] and [secureGet] reads back are kept by what the text
    read back parses to.  [SecureStorage] above is the layer underneath: it
    encrypts [charCodeAt(i) & 0xFF] of the text, so the text read back is
    [lowBytes] of the text written, and the record a write leaves is
    [writtenContacts l] or [writtenHistory l] below, which need not be
    [Parsed l].  The keys
    [my_contacts_list_v1], [history_<id>] and [last_read_<id>] never coincide,
    so each family has its own component, indexed by the contact identifier.
    [encKeyAvailable] says whether [getEncryptionKey()] gives a key: without
    it every read returns [null] and every write throws.  [timers] are the
    [ephemeral_timer_<id>] entries of the secure store.  [files] and [acks]
    list the calls of [FileSystem.writeAsStringAsync] and of [POST /ack],
    latest first. *)
Record World : Type := mkWorld {
  encKeyAvailable : bool;
  contactsRecord : option (Stored (list Contact.t));
  histories : gmap jsstring (Stored (list Message.t));
  lastRead : gmap jsstring jsstring;
  timers : gmap jsstring jsstring;
  files : list (jsstring * jsstring);
  acks : list (list Z)
}.

(** *** The platform *)

Class Platform : Type := {
  (** [decode] of base-64; [None] when it throws. *)
  decodeBase64 : jsstring -> option jsstring;
  (** [nacl.box.open(box, nonce, theirPublicKey, mySecretKey)]; [None] when it
      returns [null] and when it throws: every call is inside a [try] whose
      handler does what the [null] branch does. *)
  box_open : bytes -> bytes -> bytes -> bytes -> option bytes;
  (** [JSON.parse]; [None] when it throws. *)
  JSON_parse : jsstring -> option json;
  (** [FileSystem.documentDirectory || ""] *)
  documentDirectory : jsstring;
  (** [FileSystem.writeAsStringAsync(uri, contents)] throws. *)
  fileWriteFails : jsstring -> jsstring -> bool;
  (** [parseInt(s)]; [None] is [NaN]. *)
  parseInt : jsstring -> option Z;
  toLowerCase : jsstring -> jsstring;
  (** [JSON.stringify(list)] of a contact list, and what [JSON.parse(text)]
      gives of a text read as a contact list: [Unparseable] when it throws. *)
  stringifyContacts : list Contact.t -> jsstring;
  parseContacts : jsstring -> Stored (list Contact.t);
  (** The same for the history of a conversation. *)
  stringifyHistory : list Message.t -> jsstring;
  parseHistory : jsstring -> Stored (list Message.t)
}.

(** *** Effects: state and exceptions *)

Definition M (A : Type) : Type := World -> Result A * World.

Definition ret {A : Type} (a : A) : M A := fun w => (Returned a, w).

Definition throw {A : Type} : M A := fun w => (Threw, w).

Definition bind {A B : Type} (m : M A) (k : A -> M B) : M B :=
  fun w => match m w with
           | (Returned a, w1) => k a w1
           | (Threw, w1) => (Threw, w1)
           end.

(** [try { body } catch { handler }]: the handler runs in the state the
    exception left. *)
Definition tryCatch {A : Type} (body handler : M A) : M A :=
  fun w => match body w with
           | (Returned a, w1) => (Returned a, w1)
           | (Threw, w1) => handler w1
           end.

Declare Scope effect_scope.
Delimit Scope effect_scope with effect.
Notation "'let*' x ':=' m 'in' k" := (bind m (fun x => k))
  (at level 10, x pattern, m at level 100, k at level 200) : effect_scope.
Notation "m ';;' k" := (bind m (fun _ => k))
  (at level 100, k at level 200, right associativity) : effect_scope.
Local Open Scope effect_scope.

(** [JSON.parse] of what a typed record holds. *)
Definition parse {A : Type} (s : Stored A) : M A :=
  match s with
  | Parsed a => ret a
  | Unparseable => throw
  end.

(** [secureGet] and [secureSet] on the three families of records: a read
    without the encryption key returns [null], a write throws. *)
Definition getContacts : M (option (Stored (list Contact.t))) :=
  fun w => (Returned (if encKeyAvailable w then contactsRecord w else None), w).

(** What [JSON.parse(await secureGet(key))] makes of a list stored by
    [secureSet(key, JSON.stringify(l))]: the text goes through
    [stringToUint8Array] before it is encrypted, and comes back as the low
    byte of each of its code units. *)
Definition writtenContacts {P : Platform} (l : list Contact.t)
  : Stored (list Contact.t) :=
  parseContacts (lowBytes (stringifyContacts l)).

Definition writtenHistory {P : Platform} (l : list Message.t)
  : Stored (list Message.t) :=
  parseHistory (lowBytes (stringifyHistory l)).

(** The list is read back as it was written. *)
Definition keptContacts {P : Platform} (l : list Contact.t) : Prop :=
  writtenContacts l = Parsed l.

Definition keptHistory {P : Platform} (l : list Message.t) : Prop :=
  writtenHistory l = Parsed l.

(** A list is read back as written when the parser undoes the printer on it
    and its text has no code unit above 255. *)
Lemma keptContacts_latin1 {P : Platform} (l : list Contact.t) :
  parseContacts (stringifyContacts l) = Parsed l ->
  Forall (fun c => (c < 256)%N) (stringifyContacts l) ->
  keptContacts l.
Proof.
  intros Hparse Hlow. unfold keptContacts, writtenContacts.
  now rewrite lowBytes_latin1.
Qed.

Lemma keptHistory_latin1 {P : Platform} (l : list Message.t) :
  parseHistory (stringifyHistory l) = Parsed l ->
  Forall (fun c => (c < 256)%N) (stringifyHistory l) ->
  keptHistory l.
Proof.
  intros Hparse Hlow. unfold keptHistory, writtenHistory.
  now rewrite lowBytes_latin1.
Qed.

Definition setContacts {P : Platform} (l : list Contact.t) : M unit :=
  fun w =>
    if encKeyAvailable w then
      (Returned tt,
       mkWorld (encKeyAvailable w) (Some (writtenContacts l)) (histories w)
               (lastRead w) (timers w) (files w) (acks w))
    else (Threw, w).

Definition getHistory (contactId : jsstring) : M (option (Stored (list Message.t))) :=
  fun w => (Returned (if encKeyAvailable w then histories w !! contactId else None), w).

Definition setHistory {P : Platform} (contactId : jsstring) (l : list Message.t)
  : M unit :=
  fun w =>
    if encKeyAvailable w then
      (Returned tt,
       mkWorld (encKeyAvailable w) (contactsRecord w)
               (<[contactId := writtenHistory l]> (histories w)) (lastRead w)
               (timers w) (files w) (acks w))
    else (Threw, w).

(** [secureClear] *)
Definition clearHistory (contactId : jsstring) : M unit :=
  fun w =>
    (Returned tt,
     mkWorld (encKeyAvailable w) (contactsRecord w)
             (delete contactId (histories w)) (lastRead w)
             (timers w) (files w) (acks w)).

Definition clearLastRead (contactId : jsstring) : M unit :=
  fun w =>
    (Returned tt,
     mkWorld (encKeyAvailable w) (contactsRecord w) (histories w)
             (delete contactId (lastRead w)) (timers w) (files w) (acks w)).

Definition sendAck (messageIds : list Z) : M unit :=
  fun w =>
    (Returned tt,
     mkWorld (encKeyAvailable w) (contactsRecord w) (histories w) (lastRead w)
             (timers w) (files w) (messageIds :: acks w)).

(** *** Strings *)

(** [s.split(sep)] for a separator that is not empty. *)
Fixpoint splitFrom (sep : jsstring) (skip : nat) (current : jsstring)
    (s : jsstring) : list jsstring :=
  match s with
  | [] => [rev current]
  | c :: rest =>
      match skip with
      | S k => splitFrom sep k current rest
      | O =>
          if startsWith sep s
          then rev current :: splitFrom sep (length sep - 1) [] rest
          else splitFrom sep 0 (c :: current) rest
      end
  end.

Definition split (sep s : jsstring) : list jsstring := splitFrom sep 0 [] s.

Definition isHexDigit (c : N) : bool :=
  match hexDigit c with Some _ => true | None => false end.

(** [/^[A-F0-9]+$/i.test(s)] *)
Definition isHex (s : jsstring) : bool :=
  negb (jsstring_eqb s []) && forallb isHexDigit s.

Definition optString (v : option json) : option jsstring :=
  match v with
  | Some (JString s) => Some s
  | _ => None
  end.

Definition isString (v : option json) : bool :=
  match v with
  | Some (JString _) => true
  | _ => false
  end.

Definition jsLength (v : option json) : nat :=
  match v with
  | Some (JString s) => length s
  | _ => 0
  end.

(** [typeof data === 'object'] for a value that is not [null]. *)
Definition isObject (v : json) : bool :=
  match v with
  | JObject _ | JArray _ => true
  | _ => false
  end.

(** Reading a property of a value known not to be [null]. *)
Definition prop (v : json) (name : jsstring) : option json :=
  match getProp v name with
  | Returned p => p
  | Threw => None
  end.

Section WithPlatform.
Context {P : Platform}.

(** *** Contact list operations *)

(** [validateHandshakeData(data)] *)
Definition validateHandshakeData (data : json) : bool :=
  if negb (truthy data) || negb (isObject data) then false
  else if negb (isString (prop data (js "id")))
          || negb (jsLength (prop data (js "id")) =? 12)%nat
          || negb (isHex (default [] (optString (prop data (js "id")))))
  then false
  else if negb (isString (prop data (js "key")))
          || negb (jsLength (prop data (js "key")) =? 64)%nat
          || negb (isHex (default [] (optString (prop data (js "key")))))
  then false
  else if truthyProp (prop data (js "name"))
          && (negb (isString (prop data (js "name")))
              || (100 <? jsLength (prop data (js "name")))%nat)
  then false
  else if truthyProp (prop data (js "avatar"))
          && (negb (isString (prop data (js "avatar")))
              || (500000 <? N.of_nat (jsLength (prop data (js "avatar"))))%N)
  then false
  else true.

(** [FileSystem.writeAsStringAsync(uri, contents, { encoding: 'base64' })] *)
Definition writeFile (uri contents : jsstring) : M unit :=
  fun w =>
    if fileWriteFails uri contents then (Threw, w)
    else
      (Returned tt,
       mkWorld (encKeyAvailable w) (contactsRecord w) (histories w) (lastRead w)
               (timers w) ((uri, contents) :: files w) (acks w)).

(** [a || b] on strings that may be absent: the first that is not empty. *)
Definition orElse (a b : option jsstring) : option jsstring :=
  match a with
  | Some (_ :: _) => a
  | _ => b
  end.

(** [saveAvatarLocally(id, base64Data)]; the result is the file URI, or
    [null]. *)
Definition saveAvatarLocally (now : Z) (id base64Data : jsstring)
  : M (option jsstring) :=
  tryCatch
    (if (500000 <? N.of_nat (length base64Data))%N then ret None
     else
       let parts := split (js ";base64,") base64Data in
       let b64 := orElse (parts !! 1%nat) (parts !! 0%nat) in
       match b64 with
       | Some ((_ :: _) as b64) =>
           let filename := js "avatar_" ++ id ++ js "_"
                             ++ numberToString (Some now) ++ js ".jpg" in
           let fileUri := documentDirectory ++ filename in
           writeFile fileUri b64 ;;
           ret (Some fileUri)
       | _ => ret None
       end)
    (ret None).

Definition isDataUri (avatar : option jsstring) : bool :=
  match avatar with
  | Some ((_ :: _) as a) => startsWith (js "data:") a
  | _ => false
  end.

Definition withKeyWarning (c : Contact.t) (newKey : option jsstring) : Contact.t :=
  Contact.mk (Contact.id c) (Contact.name c) (Contact.key c) (Contact.avatar c)
    (Contact.alias c) (Contact.isSelf c) (Contact.isBlocked c)
    (Contact.isVerified c) true newKey.

Definition withProfile (c : Contact.t) (name avatar : option jsstring) : Contact.t :=
  Contact.mk (Contact.id c) name (Contact.key c) avatar
    (Contact.alias c) (Contact.isSelf c) (Contact.isBlocked c)
    (Contact.isVerified c) (Contact.securityWarning c) (Contact.pendingNewKey c).

Definition newContact (id : jsstring) (name key avatar : option jsstring) : Contact.t :=
  Contact.mk id name key avatar None false false false false None.

Definition hasId (id : jsstring) (c : Contact.t) : bool :=
  jsstring_eqb (Contact.id c) id.

(** [list.findIndex(c => c.id === id)] *)
Fixpoint findIndex (id : jsstring) (l : list Contact.t) : option nat :=
  match l with
  | [] => None
  | c :: rest => if hasId id c then Some 0%nat
                 else option_map S (findIndex id rest)
  end.

(** [addContactFromHandshake(data)].  A name that is allowed through without
    being a string (it is falsy) is recorded as absent; the security alert
    shown to the user is not modelled. *)
Definition addContactFromHandshake (now : Z) (data : json) : M unit :=
  tryCatch
    (if negb (validateHandshakeData data) then ret tt
     else
       let dataId := default [] (optString (prop data (js "id"))) in
       let dataKey := optString (prop data (js "key")) in
       let dataName := optString (prop data (js "name")) in
       let dataAvatar := optString (prop data (js "avatar")) in
       let* jsonArr := getContacts in
       let* list := match jsonArr with
                    | Some stored => parse stored
                    | None => ret []
                    end in
       match findIndex dataId list with
       | Some existingIndex =>
           match list !! existingIndex with
           | Some existing =>
               if negb (bool_decide (Contact.key existing = dataKey)) then
                 setContacts (<[existingIndex := withKeyWarning existing dataKey]> list)
               else
                 let* finalAvatar :=
                   (if isDataUri dataAvatar
                    then saveAvatarLocally now dataId (default [] dataAvatar)
                    else ret dataAvatar) in
                 setContacts
                   (<[existingIndex :=
                        withProfile existing dataName
                          (orElse finalAvatar (Contact.avatar existing))]> list)
           | None => ret tt
           end
       | None =>
           let* finalAvatar :=
             (if isDataUri dataAvatar
              then saveAvatarLocally now dataId (default [] dataAvatar)
              else ret dataAvatar) in
           setContacts
             (list ++ [newContact dataId dataName dataKey (orElse finalAvatar None)])
       end)
    (ret tt).

(** The argument of [addContactLocally]: a scanned code or a friend request. *)
Record NewContact : Type := mkNewContact {
  new_id : jsstring;
  new_key : option jsstring;
  new_name : option jsstring;
  new_avatar : option jsstring
}.

(** [addContactLocally(newContact)] of the contact list screen; exceptions
    reach the caller. *)
Definition addContactLocally (now : Z) (nc : NewContact) : M unit :=
  let* current := getContacts in
  let* list := match current with
               | Some stored => parse stored
               | None => ret []
               end in
  match find (hasId (new_id nc)) list with
  | Some existing =>
      if negb (bool_decide (Contact.key existing = new_key nc)) then
        setContacts
          (map (fun c => if hasId (new_id nc) c
                         then withKeyWarning c (new_key nc) else c) list)
      else ret tt
  | None =>
      let* finalAvatar :=
        (if isDataUri (new_avatar nc) then
           let* local := saveAvatarLocally now (new_id nc) (default [] (new_avatar nc)) in
           ret (orElse local (new_avatar nc))
         else ret (new_avatar nc)) in
      let name := orElse (new_name nc)
                    (Some (js "Contact " ++ take 4 (new_id nc))) in
      setContacts
        (list ++ [newContact (new_id nc) name (new_key nc) (orElse finalAvatar None)])
  end.

(** The common shape of the edits of the contact details and settings
    screens: read, rewrite, write, with every exception swallowed. *)
Definition editContacts (f : list Contact.t -> list Contact.t) : M unit :=
  tryCatch
    (let* json := getContacts in
     match json with
     | Some stored =>
         let* list := parse stored in
         setContacts (f list)
     | None => ret tt
     end)
    (ret tt).

(** [approveNewKey()], once the user has confirmed. *)
Definition approved (c : Contact.t) : Contact.t :=
  Contact.mk (Contact.id c) (Contact.name c) (Contact.pendingNewKey c)
    (Contact.avatar c) (Contact.alias c) (Contact.isSelf c) (Contact.isBlocked c)
    false false None.

Definition approveNewKey (contactId : jsstring) : M unit :=
  editContacts (map (fun c => if hasId contactId c then approved c else c)).

(** [toggleVerified()]; [isVerified] is the flag the screen shows. *)
Definition toggleVerified (contactId : jsstring) (isVerified : bool) : M unit :=
  editContacts
    (map (fun c =>
            if hasId contactId c then
              Contact.mk (Contact.id c) (Contact.name c) (Contact.key c)
                (Contact.avatar c) (Contact.alias c) (Contact.isSelf c)
                (Contact.isBlocked c) (negb isVerified)
                (Contact.securityWarning c) (Contact.pendingNewKey c)
            else c)).

(** [saveAlias()]; [alias] is [alias.trim() || undefined]. *)
Definition saveAlias (contactId : jsstring) (alias : option jsstring) : M unit :=
  editContacts
    (map (fun c =>
            if hasId contactId c then
              Contact.mk (Contact.id c) (Contact.name c) (Contact.key c)
                (Contact.avatar c) alias (Contact.isSelf c)
                (Contact.isBlocked c) (Contact.isVerified c)
                (Contact.securityWarning c) (Contact.pendingNewKey c)
            else c)).

Definition withBlocked (c : Contact.t) (b : bool) : Contact.t :=
  Contact.mk (Contact.id c) (Contact.name c) (Contact.key c)
    (Contact.avatar c) (Contact.alias c) (Contact.isSelf c) b
    (Contact.isVerified c) (Contact.securityWarning c) (Contact.pendingNewKey c).

(** [toggleBlock()] and [unblockContact(id)] *)
Definition toggleBlock (contactId : jsstring) : M unit :=
  editContacts
    (map (fun c => if hasId contactId c
                   then withBlocked c (negb (Contact.isBlocked c)) else c)).

Definition unblockContact (id : jsstring) : M unit :=
  editContacts (map (fun c => if hasId id c then withBlocked c false else c)).

(** [deleteContact()] of the details screen. *)
Definition deleteContact (contactId : jsstring) : M unit :=
  editContacts (filter (fun c => hasId contactId c = false)).

(** [deleteContact(id)] of the list screen, once confirmed (the delete signal
    it first sends to the peer is network traffic only). *)
Definition deleteContactFromList (id : jsstring) : M unit :=
  let* current := getContacts in
  let* fullList := match current with
                   | Some stored => parse stored
                   | None => ret []
                   end in
  setContacts (filter (fun c => hasId id c = false) fullList).

(** [updateContactInfo(contactId, data)].  An avatar that is absent on both
    sides counts as unchanged; the source would rewrite the same list. *)
Definition updateContactInfo (now : Z) (contactId pseudo : jsstring)
    (avatar : option jsstring) : M unit :=
  tryCatch
    (let* json := getContacts in
     match json with
     | None => ret tt
     | Some stored =>
         let* contacts := parse stored in
         let* finalAvatar :=
           (if isDataUri avatar then
              let* local := saveAvatarLocally now contactId (default [] avatar) in
              ret (orElse local avatar)
            else ret avatar) in
         let changes (c : Contact.t) : bool :=
           hasId contactId c
           && negb (bool_decide (Contact.name c = Some pseudo)
                    && bool_decide (Contact.avatar c = finalAvatar)) in
         let contacts' :=
           map (fun c => if changes c then withProfile c (Some pseudo) finalAvatar else c)
               contacts in
         if existsb changes contacts then setContacts contacts' else ret tt
     end)
    (ret tt).

(** [deleteContactLocally(contactId)] *)
Definition deleteContactLocally (contactId : jsstring) : M unit :=
  tryCatch
    (let* json := getContacts in
     match json with
     | None => ret tt
     | Some stored =>
         let* list := parse stored in
         setContacts (filter (fun c => hasId contactId c = false) list) ;;
         clearLastRead contactId ;;
         clearHistory contactId
     end)
    (ret tt).

(** *** Opening an envelope *)

Definition nonceLength : nat := 24.

(** The loop over the contacts: the first contact, other than oneself, whose
    key opens the box gives the text and the sender. *)
Fixpoint trialDecrypt (contacts : list Contact.t) (ciphertext nonce secretKey : bytes)
  : option (jsstring * Contact.t) :=
  match contacts with
  | [] => None
  | contact :: rest =>
      if Contact.isSelf contact then trialDecrypt rest ciphertext nonce secretKey
      else
        match Contact.key contact with
        | None => trialDecrypt rest ciphertext nonce secretKey
        | Some k =>
            match fromHex k with
            | Threw => trialDecrypt rest ciphertext nonce secretKey
            | Returned peerKey =>
                match box_open ciphertext nonce peerKey secretKey with
                | Some result => Some (uint8ArrayToString result, contact)
                | None => trialDecrypt rest ciphertext nonce secretKey
                end
            end
        end
  end.

Definition ACCEPT_PREFIX : jsstring := js "GHOST_SIGNAL:ACCEPT:".

(** The key restated inside the handshake is the key that opened it:
    [hsData.key && hsData.key.toLowerCase() === claimedKeyHex.toLowerCase()];
    reading [key] of [null], or lowering a value that is not a string,
    throws into the handler of the enclosing [try]. *)
Definition restatesKey (hsData : json) (claimedPubKey : bytes) : bool :=
  match getProp hsData (js "key") with
  | Threw => false
  | Returned k =>
      truthyProp k &&
      match k with
      | Some (JString s) =>
          jsstring_eqb (toLowerCase s) (toLowerCase (toHex claimedPubKey))
      | _ => false
      end
  end.

(** The anonymous handshake: [SENDER_PK(32) || NONCE(24) || ENCRYPTED_DATA]. *)
Definition openAnonymous (fullMessage secretKey : bytes) : option jsstring :=
  if (32 + 24 <? length fullMessage)%nat then
    let claimedPubKey := take 32 fullMessage in
    let handshakeNonce := take 24 (drop 32 fullMessage) in
    let handshakeCipher := drop (32 + 24) fullMessage in
    match box_open handshakeCipher handshakeNonce claimedPubKey secretKey with
    | Some result =>
        let text := uint8ArrayToString result in
        if startsWith ACCEPT_PREFIX text then
          let jsonStr := drop (length ACCEPT_PREFIX) text in
          match JSON_parse jsonStr with
          | Some hsData =>
              if restatesKey hsData claimedPubKey then Some text else None
          | None => None
          end
        else None
    | None => None
    end
  else None.

(** A text is truthy when it is there and not empty. *)
Definition truthyText (t : option jsstring) : bool :=
  match t with
  | Some (_ :: _) => true
  | _ => false
  end.

(** [decrypted] and [sender] as they stand before [if (decrypted)]. *)
Definition openEnvelope (contacts : list Contact.t) (secretKey fullMessage : bytes)
  : option jsstring * option Contact.t :=
  let nonce := take nonceLength fullMessage in
  let ciphertext := drop nonceLength fullMessage in
  let '(decrypted, sender) :=
    match trialDecrypt contacts ciphertext nonce secretKey with
    | Some (text, contact) => (Some text, Some contact)
    | None => (None, None)
    end in
  if truthyText decrypted then (decrypted, sender)
  else
    match openAnonymous fullMessage secretKey with
    | Some text => (Some text, sender)
    | None => (decrypted, sender)
    end.

(** *** Handling a decrypted text *)

Definition withStatusRead (m : Message.t) : Message.t :=
  Message.mk (Message.id m) (Message.text m) (Message.timestamp m)
             (Message.isMe m) (Some (js "read")).

Definition unread (m : Message.t) : bool :=
  Message.isMe m && negb (bool_decide (Message.status m = Some (js "read"))).

(** [updatedData] passes the checks of the profile update. *)
Definition validProfileUpdate (updatedData : json) : bool :=
  truthy updatedData && isObject updatedData
  && isString (prop updatedData (js "pseudo"))
  && (jsLength (prop updatedData (js "pseudo")) <=? 100)%nat
  && (negb (truthyProp (prop updatedData (js "avatar")))
      || (isString (prop updatedData (js "avatar"))
          && (N.of_nat (jsLength (prop updatedData (js "avatar"))) <=? 500000)%N)).

Definition screenshotNotice (sender : Contact.t) : jsstring :=
  [55357%N; 56568%N] ++ js " "
  ++ default (Contact.id sender) (orElse (Contact.name sender) None)
  ++ js " a pris une capture d'" ++ [233%N] ++ js "cran".

(** A control signal; [parts[1]] is [type]. *)
Definition handleSignal (e : Entropy) (decrypted : jsstring)
    (sender : option Contact.t) : M unit :=
  let parts := split (js ":") decrypted in
  let type := parts !! 1%nat in
  if bool_decide (type = Some (js "ACCEPT")) then
    let jsonStr :=
      if startsWith ACCEPT_PREFIX decrypted
      then drop (length ACCEPT_PREFIX) decrypted
      else drop (length (js "GHOST_SIGNAL:ACCEPT")) decrypted in
    match JSON_parse jsonStr with
    | Some data => addContactFromHandshake (now1 e) data
    | None => ret tt
    end
  else
    match sender with
    | None => ret tt
    | Some sender =>
        if bool_decide (type = Some (js "PROFILE_UPDATE")) then
          let jsonStr := drop (length (js "GHOST_SIGNAL:PROFILE_UPDATE:")) decrypted in
          match JSON_parse jsonStr with
          | Some updatedData =>
              if validProfileUpdate updatedData then
                updateContactInfo (now1 e) (Contact.id sender)
                  (default [] (optString (prop updatedData (js "pseudo"))))
                  (optString (prop updatedData (js "avatar")))
              else ret tt
          | None => ret tt
          end
        else if bool_decide (type = Some (js "DELETE")) then
          deleteContactLocally (Contact.id sender)
        else if bool_decide (type = Some (js "SCREENSHOT")) then
          let* historyJson := getHistory (Contact.id sender) in
          let* history := match historyJson with
                          | Some stored => parse stored
                          | None => ret []
                          end in
          let msgId := js "screenshot_" ++ numberToString (Some (now1 e))
                         ++ js "_" ++ toHex (random1 e) in
          let screenshotMsg :=
            Message.mk msgId (screenshotNotice sender) (now2 e) false None in
          setHistory (Contact.id sender) (screenshotMsg :: history)
        else if bool_decide (type = Some (js "READ")) then
          let* historyJson := getHistory (Contact.id sender) in
          match historyJson with
          | Some stored =>
              let* history := parse stored in
              if existsb unread history then
                setHistory (Contact.id sender)
                  (map (fun m => if unread m then withStatusRead m else m) history)
              else ret tt
          | None => ret tt
          end
        else ret tt
    end.

(** [10 * 1024 * 1024 * 1.37] is 14365491.2: a length is greater when it is
    at least 14365492. *)
Definition mediaTooLarge (b64 : jsstring) : bool :=
  (14365492 <=? N.of_nat (length b64))%N.

(** The media branch: the text to store, or [None] when the item is dropped. *)
Definition saveMedia (e : Entropy) (decrypted : jsstring) : M (option jsstring) :=
  tryCatch
    (let parts := split (js ":") decrypted in
     let mediaType := default [] (parts !! 1%nat) in
     let b64 := parts !! 2%nat in
     let caption := default [] (orElse (parts !! 3%nat) None) in
     if negb (jsstring_eqb mediaType (js "IMAGE"))
        && negb (jsstring_eqb mediaType (js "VIDEO"))
     then ret None
     else
       match b64 with
       | Some ((_ :: _) as b64) =>
           if mediaTooLarge b64 then ret None
           else
             let safeCaption := take 500 caption in
             let ext := if jsstring_eqb mediaType (js "VIDEO")
                        then js "mp4" else js "jpg" in
             let filename := js "media_" ++ numberToString (Some (now1 e))
                               ++ js "_" ++ toHex (random1 e) ++ js "." ++ ext in
             let fileUri := documentDirectory ++ filename in
             writeFile fileUri b64 ;;
             ret (Some (js "GHOST_MEDIA_REF:" ++ mediaType ++ js ":" ++ fileUri
                          ++ js ":" ++ safeCaption))
       | _ => ret None
       end)
    (ret None).

(** The append of a chat message to the sender's history. *)
Definition storeMessage (e : Entropy) (sender : Contact.t) (text : jsstring)
  : M unit :=
  let* historyJson := getHistory (Contact.id sender) in
  let* history := match historyJson with
                  | Some stored => parse stored
                  | None => ret []
                  end in
  let msgId := numberToString (Some (now2 e)) ++ js "_" ++ toHex (random2 e) in
  let newMsg := Message.mk msgId text (now3 e) false None in
  setHistory (Contact.id sender) (newMsg :: history).

(** What follows [if (decrypted)] once the delivery ID is recorded. *)
Definition dispatch (e : Entropy) (decrypted : jsstring)
    (sender : option Contact.t) : M unit :=
  if startsWith (js "GHOST_SIGNAL:") decrypted then handleSignal e decrypted sender
  else
    match sender with
    | None => ret tt
    | Some sender =>
        if Contact.isBlocked sender then ret tt
        else if startsWith (js "GHOST_MEDIA:") decrypted then
          let* ref := saveMedia e decrypted in
          match ref with
          | Some text => storeMessage e sender text
          | None => ret tt
          end
        else storeMessage e sender decrypted
    end.

(** [msg.id] is pushed when it is truthy. *)
Definition pushId (id : option Z) (processedIds : list Z) : list Z :=
  match id with
  | Some z => if (z =? 0)%Z then processedIds else processedIds ++ [z]
  | None => processedIds
  end.

(** One turn of [for (const msg of messages)]: the delivery IDs recorded so
    far go in and come out. *)
Definition processMessage (contacts : list Contact.t) (secretKey : bytes)
    (e : Entropy) (msg : InboundItem) (processedIds : list Z) : M (list Z) :=
  match decodeBase64 (content msg) with
  | None => throw
  | Some decoded =>
      let fullMessage := stringToUint8Array decoded in
      let '(decrypted, sender) := openEnvelope contacts secretKey fullMessage in
      if truthyText decrypted then
        let processedIds' := pushId (msg_id msg) processedIds in
        dispatch e (default [] decrypted) sender ;;
        ret processedIds'
      else ret processedIds
  end.

Fixpoint processAll (contacts : list Contact.t) (secretKey : bytes)
    (batch : list (Entropy * InboundItem)) (processedIds : list Z) : M (list Z) :=
  match batch with
  | [] => ret processedIds
  | (e, msg) :: rest =>
      let* processedIds' := processMessage contacts secretKey e msg processedIds in
      processAll contacts secretKey rest processedIds'
  end.

(** [checkGlobalMessages()].  [identity] is the box secret key when both it
    and the user ID are loaded.  Every exception ends the poll in the outer
    handler. *)
Definition checkGlobalMessages (identity : option bytes) (response : Response)
  : M unit :=
  tryCatch
    (match identity with
     | None => ret tt
     | Some secretKey =>
         match response with
         | NetworkError => throw
         | NotOk => ret tt
         | Ok [] => ret tt
         | Ok messages =>
             let* json := getContacts in
             let* contacts := match json with
                              | Some stored => parse stored
                              | None => ret []
                              end in
             let* processedIds := processAll contacts secretKey messages [] in
             match processedIds with
             | [] => ret tt
             | _ => sendAck processedIds
             end
         end
     end)
    (ret tt).

(** *** The ephemeral sweep *)

(** [history.filter(m => (now - m.timestamp) < expiryMs)] *)
Definition unexpired (now expiryMs : Z) (history : list Message.t) : list Message.t :=
  filter (fun m => (now - Message.timestamp m < expiryMs)%Z) history.

(** One turn of [for (const contact of contacts)]. *)
Definition sweepContact (now : Z) (contact : Contact.t) : M unit :=
  fun w =>
    match timers w !! Contact.id contact with
    | Some ((_ :: _) as timerStr) =>
        match parseInt timerStr with
        | Some timerSeconds =>
            if (timerSeconds <=? 0)%Z then (Returned tt, w)
            else
              let expiryMs := (timerSeconds * 1000)%Z in
              (let* historyJson := getHistory (Contact.id contact) in
               match historyJson with
               | Some stored =>
                   let* history := parse stored in
                   let filtered := unexpired now expiryMs history in
                   if (length filtered <? length history)%nat then
                     if (length filtered =? 0)%nat
                     then clearHistory (Contact.id contact)
                     else setHistory (Contact.id contact) filtered
                   else ret tt
               | None => ret tt
               end) w
        | None => (Returned tt, w)
        end
    | _ => (Returned tt, w)
    end.

Fixpoint sweepAll (now : Z) (contacts : list Contact.t) : M unit :=
  match contacts with
  | [] => ret tt
  | contact :: rest => sweepContact now contact ;; sweepAll now rest
  end.

(** [cleanExpiredEphemeralMessages()]; [now] is [Date.now()]. *)
Definition cleanExpiredEphemeralMessages (now : Z) : M unit :=
  tryCatch
    (let* json := getContacts in
     match json with
     | None => ret tt
     | Some stored =>
         let* contacts := parse stored in
         sweepAll now contacts
     end)
    (ret tt).

End WithPlatform.

(** *** What a poll acknowledges *)

Section Acknowledged.
Context {P : Platform}.

(** The delivery ID of an item, when it has one that is truthy. *)
Definition deliveryId (msg : InboundItem) : list Z := pushId (msg_id msg) [].

(** The item decodes and opens to a text that is not empty, under a known
    contact's key or as an accepted anonymous handshake. *)
Definition decrypts (contacts : list Contact.t) (secretKey : bytes)
    (msg : InboundItem) : bool :=
  match decodeBase64 (content msg) with
  | Some decoded =>
      truthyText (fst (openEnvelope contacts secretKey (stringToUint8Array decoded)))
  | None => false
  end.

Definition acknowledged (contacts : list Contact.t) (secretKey : bytes)
    (messages : list (Entropy * InboundItem)) : list Z :=
  flat_map (fun em => if decrypts contacts secretKey (snd em)
                      then deliveryId (snd em) else []) messages.

(** The contact list the poll works with: [json ? JSON.parse(json) : []];
    [None] when parsing throws. *)
Definition contactsSnapshot (w : World) : option (list Contact.t) :=
  match (if encKeyAvailable w then contactsRecord w else None) with
  | None => Some []
  | Some (Parsed l) => Some l
  | Some Unparseable => None
  end.

(** The state after [POST /ack] with these IDs. *)
Definition withAck (messageIds : list Z) (w : World) : World :=
  snd (sendAck messageIds w).

End Acknowledged.

(** *** Lemmas on strings *)

Lemma startsWith_app (p rest : jsstring) : startsWith p (p ++ rest) = true.
Proof.
  induction p as [|c p IH]; simpl; [reflexivity|].
  now rewrite N.eqb_refl, IH.
Qed.

Lemma startsWith_inv (p s : jsstring) :
  startsWith p s = true -> exists rest, s = p ++ rest.
Proof.
  revert s. induction p as [|c p IH]; intros s H; simpl in *.
  - now exists s.
  - destruct s as [|d s]; [discriminate|].
    apply andb_true_iff in H as [Hc Hp]. apply N.eqb_eq in Hc. subst d.
    destruct (IH s Hp) as [rest ->]. now exists rest.
Qed.

Lemma startsWith_same_prefix (d p s : jsstring) :
  startsWith (d ++ p) (d ++ s) = startsWith p s.
Proof.
  induction d as [|c d IH]; simpl; [reflexivity|].
  now rewrite N.eqb_refl, IH.
Qed.

Lemma jsstring_eqb_eq (a b : jsstring) : jsstring_eqb a b = true <-> a = b.
Proof. unfold jsstring_eqb. apply bool_decide_eq_true. Qed.

Lemma accept_is_signal (text : jsstring) :
  startsWith ACCEPT_PREFIX text = true ->
  startsWith (js "GHOST_SIGNAL:") text = true /\
  split (js ":") text !! 1%nat = Some (js "ACCEPT").
Proof.
  intros H. apply startsWith_inv in H as [rest ->].
  split; reflexivity.
Qed.

Section Opening.
Context {P : Platform}.

(** C2.  An envelope is taken as an anonymous handshake exactly when it is
    longer than a key and a nonce, its tail opens under the key in its first
    32 bytes, the text starts with the accept prefix, the rest parses, and
    the [key] inside is a non-empty string equal, up to letter case, to the
    hexadecimal form of that same key.  When no contact opens the envelope
    and the handshake is not accepted, the item changes nothing and is not
    recorded for acknowledgement. *)
Theorem C2_anonymous_handshake (fullMessage secretKey : bytes) :
  (forall text : jsstring,
     openAnonymous fullMessage secretKey = Some text <->
     (32 + 24 < length fullMessage)%nat /\
     exists result hsData k,
       box_open (drop (32 + 24) fullMessage) (take 24 (drop 32 fullMessage))
                (take 32 fullMessage) secretKey = Some result /\
       text = uint8ArrayToString result /\
       startsWith ACCEPT_PREFIX text = true /\
       JSON_parse (drop (length ACCEPT_PREFIX) text) = Some hsData /\
       getProp hsData (js "key") = Returned (Some (JString k)) /\
       k <> [] /\
       toLowerCase k = toLowerCase (toHex (take 32 fullMessage))) /\
  (forall (contacts : list Contact.t) (e : Entropy) (msg : InboundItem)
          (processedIds : list Z) (w : World),
     decodeBase64 (content msg) = Some (uint8ArrayToString fullMessage) ->
     trialDecrypt contacts (drop nonceLength fullMessage)
                  (take nonceLength fullMessage) secretKey = None ->
     openAnonymous fullMessage secretKey = None ->
     processMessage contacts secretKey e msg processedIds w
     = (Returned processedIds, w)).
Proof.
  split.
  - intros text. unfold openAnonymous. split.
    + destruct (Nat.ltb_spec (32 + 24) (length fullMessage)) as [Hlen|]; [|discriminate].
      destruct (box_open _ _ _ _) as [result|] eqn:Hopen; [|discriminate].
      destruct (startsWith ACCEPT_PREFIX _) eqn:Hpre; [|discriminate].
      destruct (JSON_parse _) as [hsData|] eqn:Hparse; [|discriminate].
      destruct (restatesKey hsData _) eqn:Hkey; [|discriminate].
      intros [= <-]. split; [exact Hlen|].
      unfold restatesKey in Hkey.
      destruct (getProp hsData (js "key")) as [[[| | |k| |]|]|] eqn:Hprop;
        try (rewrite ?andb_false_r in Hkey; discriminate).
      apply andb_true_iff in Hkey as [Htruthy Heq].
      exists result, hsData, k. repeat split; try assumption.
      * intros ->. discriminate.
      * now apply jsstring_eqb_eq.
    + intros (Hlen & result & hsData & k & Hopen & -> & Hpre & Hparse & Hprop & Hk & Heq).
      apply Nat.ltb_lt in Hlen. rewrite Hlen, Hopen, Hpre, Hparse.
      unfold restatesKey. rewrite Hprop. simpl.
      destruct k as [|c k]; [congruence|].
      unfold jsstring_eqb at 1. rewrite bool_decide_eq_false_2 by discriminate.
      simpl. apply jsstring_eqb_eq in Heq. now rewrite Heq.
  - intros contacts e msg processedIds w Hdec Htrial Hanon.
    unfold processMessage. rewrite Hdec, stringToUint8Array_uint8ArrayToString.
    unfold openEnvelope. now rewrite Htrial, Hanon.
Qed.

End Opening.

(** *** Frame rules

    [preserves R m]: whatever [m] returns or throws, the state it leaves is
    related by [R] to the state it started in. *)

Definition preserves {A : Type} (R : World -> World -> Prop) (m : M A) : Prop :=
  forall w r w', m w = (r, w') -> R w w'.

Section FrameRules.
Context {P : Platform}.
Variable R : World -> World -> Prop.
Hypothesis R_refl : forall w, R w w.
Hypothesis R_trans : forall w1 w2 w3, R w1 w2 -> R w2 w3 -> R w1 w3.

Lemma preserves_ret {A : Type} (a : A) : preserves R (ret a).
Proof. intros w r w' [= <- <-]. apply R_refl. Qed.

Lemma preserves_throw {A : Type} : preserves R (@throw A).
Proof. intros w r w' [= <- <-]. apply R_refl. Qed.

Lemma preserves_bind {A B : Type} (m : M A) (k : A -> M B) :
  preserves R m -> (forall a, preserves R (k a)) -> preserves R (bind m k).
Proof.
  intros Hm Hk w r w'. unfold bind.
  destruct (m w) as [[a|] w1] eqn:Em.
  - intros Ek. eapply R_trans; [eapply Hm, Em | eapply Hk, Ek].
  - intros [= <- <-]. eapply Hm, Em.
Qed.

Lemma preserves_tryCatch {A : Type} (body handler : M A) :
  preserves R body -> preserves R handler -> preserves R (tryCatch body handler).
Proof.
  intros Hb Hh w r w'. unfold tryCatch.
  destruct (body w) as [[a|] w1] eqn:Eb.
  - intros [= <- <-]. eapply Hb, Eb.
  - intros Eh. eapply R_trans; [eapply Hb, Eb | eapply Hh, Eh].
Qed.

Lemma preserves_parse {A : Type} (s : Stored A) : preserves R (parse s).
Proof. destruct s; [apply preserves_ret | apply preserves_throw]. Qed.

Lemma preserves_getContacts : preserves R getContacts.
Proof. intros w r w' [= <- <-]. apply R_refl. Qed.

Lemma preserves_getHistory (id : jsstring) : preserves R (getHistory id).
Proof. intros w r w' [= <- <-]. apply R_refl. Qed.

End FrameRules.

(** The steps of a frame proof: split the program along its structure. *)
Ltac frame_step :=
  lazymatch goal with
  | |- preserves _ (bind _ _) => apply preserves_bind; [assumption.. | | intros ?]
  | |- preserves _ (tryCatch _ _) => apply preserves_tryCatch; [assumption.. | | ]
  | |- preserves _ (ret _) => apply preserves_ret; assumption
  | |- preserves _ throw => apply preserves_throw; assumption
  | |- preserves _ (parse _) => apply preserves_parse; assumption
  | |- preserves _ getContacts => apply preserves_getContacts; assumption
  | |- preserves _ (getHistory _) => apply preserves_getHistory; assumption
  | |- preserves _ (if ?b then _ else _) => destruct b
  | |- preserves _ (match ?x with _ => _ end) => destruct x
  | |- preserves _ (let _ := _ in _) => cbv zeta
  end.

Ltac frame_with prims :=
  repeat first [ frame_step | solve [prims] ].

Ltac frame_using lemmas prims :=
  pose proof lemmas;
  frame_with ltac:(first [ prims | match goal with H : _ |- _ => apply H end ]).

(** What a step leaves alone. *)
Definition keepsAcks (w w' : World) : Prop := acks w' = acks w.

Definition isMediaUri {P : Platform} (uri : jsstring) : bool :=
  startsWith (documentDirectory ++ js "media_") uri.

Definition mediaFiles {P : Platform} (fs : list (jsstring * jsstring))
  : list (jsstring * jsstring) :=
  filter (fun f => isMediaUri (fst f) = true) fs.

(** The histories and the media files are as before. *)
Definition keepsConversations {P : Platform} (w w' : World) : Prop :=
  histories w' = histories w /\ mediaFiles (files w') = mediaFiles (files w).

Section Frames.
Context {P : Platform}.

Lemma keepsAcks_refl (w : World) : keepsAcks w w.
Proof. reflexivity. Qed.

Lemma keepsAcks_trans (w1 w2 w3 : World) :
  keepsAcks w1 w2 -> keepsAcks w2 w3 -> keepsAcks w1 w3.
Proof. unfold keepsAcks. congruence. Qed.

Lemma keepsConversations_refl (w : World) : keepsConversations w w.
Proof. split; reflexivity. Qed.

Lemma keepsConversations_trans (w1 w2 w3 : World) :
  keepsConversations w1 w2 -> keepsConversations w2 w3 -> keepsConversations w1 w3.
Proof. unfold keepsConversations. intros [? ?] [? ?]. split; congruence. Qed.

Lemma acks_setContacts l : preserves keepsAcks (setContacts l).
Proof.
  intros w r w'. unfold setContacts.
  destruct (encKeyAvailable w); intros [= <- <-]; reflexivity.
Qed.

Lemma acks_setHistory id l : preserves keepsAcks (setHistory id l).
Proof.
  intros w r w'. unfold setHistory.
  destruct (encKeyAvailable w); intros [= <- <-]; reflexivity.
Qed.

Lemma acks_clearHistory id : preserves keepsAcks (clearHistory id).
Proof. intros w r w' [= <- <-]. reflexivity. Qed.

Lemma acks_clearLastRead id : preserves keepsAcks (clearLastRead id).
Proof. intros w r w' [= <- <-]. reflexivity. Qed.

Lemma acks_writeFile uri contents : preserves keepsAcks (writeFile uri contents).
Proof.
  intros w r w'. unfold writeFile.
  destruct (fileWriteFails uri contents); intros [= <- <-]; reflexivity.
Qed.

Ltac acks_prims :=
  first [ apply acks_setContacts | apply acks_setHistory | apply acks_clearHistory
        | apply acks_clearLastRead | apply acks_writeFile ].

Ltac acks_frame :=
  pose proof keepsAcks_refl; pose proof keepsAcks_trans;
  frame_with acks_prims.

Lemma acks_saveAvatarLocally now id data :
  preserves keepsAcks (saveAvatarLocally now id data).
Proof. unfold saveAvatarLocally. acks_frame. Qed.

Lemma acks_addContactFromHandshake now data :
  preserves keepsAcks (addContactFromHandshake now data).
Proof.
  unfold addContactFromHandshake.
  pose proof acks_saveAvatarLocally.
  pose proof keepsAcks_refl; pose proof keepsAcks_trans.
  frame_with ltac:(first [acks_prims | match goal with H : _ |- _ => apply H end]).
Qed.

Lemma acks_updateContactInfo now id pseudo avatar :
  preserves keepsAcks (updateContactInfo now id pseudo avatar).
Proof.
  unfold updateContactInfo.
  pose proof keepsAcks_refl; pose proof keepsAcks_trans.
  frame_using acks_saveAvatarLocally acks_prims.
Qed.

Lemma acks_deleteContactLocally id :
  preserves keepsAcks (deleteContactLocally id).
Proof. unfold deleteContactLocally. acks_frame. Qed.

Lemma acks_handleSignal e decrypted sender :
  preserves keepsAcks (handleSignal e decrypted sender).
Proof.
  unfold handleSignal.
  pose proof keepsAcks_refl; pose proof keepsAcks_trans.
  pose proof acks_updateContactInfo; pose proof acks_deleteContactLocally.
  frame_using acks_addContactFromHandshake acks_prims.
Qed.

Lemma acks_saveMedia e decrypted : preserves keepsAcks (saveMedia e decrypted).
Proof. unfold saveMedia. acks_frame. Qed.

Lemma acks_storeMessage e sender text :
  preserves keepsAcks (storeMessage e sender text).
Proof. unfold storeMessage. acks_frame. Qed.

Lemma acks_dispatch e decrypted sender :
  preserves keepsAcks (dispatch e decrypted sender).
Proof.
  unfold dispatch.
  pose proof keepsAcks_refl; pose proof keepsAcks_trans.
  pose proof acks_handleSignal; pose proof acks_saveMedia.
  frame_using acks_storeMessage acks_prims.
Qed.

Lemma acks_processMessage contacts secretKey e msg ids :
  preserves keepsAcks (processMessage contacts secretKey e msg ids).
Proof.
  unfold processMessage.
  destruct (decodeBase64 (content msg)); [|now apply preserves_throw].
  destruct (openEnvelope _ _ _) as [decrypted sender].
  pose proof keepsAcks_refl; pose proof keepsAcks_trans.
  frame_using acks_dispatch acks_prims.
Qed.

Lemma acks_processAll contacts secretKey batch :
  forall ids, preserves keepsAcks (processAll contacts secretKey batch ids).
Proof.
  induction batch as [|[e msg] rest IH]; intros ids; simpl.
  - now apply preserves_ret.
  - apply preserves_bind; [exact keepsAcks_trans | apply acks_processMessage | exact IH].
Qed.

(** The histories and the media files under the handshake. *)
Lemma conv_setContacts l : preserves keepsConversations (setContacts l).
Proof.
  intros w r w'. unfold setContacts.
  destruct (encKeyAvailable w); intros [= <- <-]; split; reflexivity.
Qed.

Lemma conv_saveAvatarLocally now id data :
  preserves keepsConversations (saveAvatarLocally now id data).
Proof.
  unfold saveAvatarLocally.
  pose proof keepsConversations_refl; pose proof keepsConversations_trans.
  frame_with ltac:(idtac).
  intros w r w'. unfold writeFile.
  destruct (fileWriteFails _ _); intros [= <- <-]; split; try reflexivity.
  simpl. unfold mediaFiles. rewrite filter_cons_False; [reflexivity|].
  unfold isMediaUri. simpl fst. rewrite startsWith_same_prefix. discriminate.
Qed.

Lemma conv_addContactFromHandshake now data :
  preserves keepsConversations (addContactFromHandshake now data).
Proof.
  unfold addContactFromHandshake.
  pose proof keepsConversations_refl; pose proof keepsConversations_trans.
  pose proof conv_setContacts.
  frame_using conv_saveAvatarLocally ltac:(fail).
Qed.

Lemma openAnonymous_prefix (fullMessage secretKey : bytes) (text : jsstring) :
  openAnonymous fullMessage secretKey = Some text ->
  startsWith ACCEPT_PREFIX text = true.
Proof.
  unfold openAnonymous.
  destruct (_ <? _)%nat; [|discriminate].
  destruct (box_open _ _ _ _) as [result|]; [|discriminate].
  destruct (startsWith ACCEPT_PREFIX _) eqn:Hpre; [|discriminate].
  destruct (JSON_parse _); [|discriminate].
  destruct (restatesKey _ _); [|discriminate].
  now intros [= <-].
Qed.

Lemma dispatch_blocked (e : Entropy) (text : jsstring) (sender : Contact.t) :
  Contact.isBlocked sender = true ->
  startsWith (js "GHOST_SIGNAL:") text = false ->
  dispatch e text (Some sender) = ret tt.
Proof. intros Hb Hs. unfold dispatch. now rewrite Hs, Hb. Qed.

Lemma conv_dispatch_accept (e : Entropy) (text : jsstring) (sender : option Contact.t) :
  startsWith ACCEPT_PREFIX text = true ->
  preserves keepsConversations (dispatch e text sender).
Proof.
  intros Hpre. destruct (accept_is_signal text Hpre) as [Hsig Htype].
  unfold dispatch, handleSignal. rewrite Hsig, Htype, Hpre.
  rewrite bool_decide_eq_true_2 by reflexivity.
  destruct (JSON_parse _).
  - apply conv_addContactFromHandshake.
  - apply preserves_ret, keepsConversations_refl.
Qed.

(** C10.  When the first contact whose key opens an envelope is blocked and
    the text is not a control signal, handling the item leaves every stored
    history as it was and writes no media file; when the text is not empty
    the whole persistent state is unchanged, and the delivery ID is still
    recorded for acknowledgement. *)
Theorem C10_blocked_sender_dropped
    (contacts : list Contact.t) (secretKey : bytes) (e : Entropy)
    (msg : InboundItem) (processedIds : list Z) (w : World)
    (decoded text : jsstring) (sender : Contact.t) :
  decodeBase64 (content msg) = Some decoded ->
  trialDecrypt contacts (drop nonceLength (stringToUint8Array decoded))
               (take nonceLength (stringToUint8Array decoded)) secretKey
    = Some (text, sender) ->
  Contact.isBlocked sender = true ->
  startsWith (js "GHOST_SIGNAL:") text = false ->
  exists r w',
    processMessage contacts secretKey e msg processedIds w = (r, w') /\
    histories w' = histories w /\
    mediaFiles (files w') = mediaFiles (files w) /\
    (text <> [] -> r = Returned (pushId (msg_id msg) processedIds) /\ w' = w).
Proof.
  intros Hdec Htrial Hblocked Hsignal.
  unfold processMessage. rewrite Hdec. unfold openEnvelope. rewrite Htrial.
  destruct text as [|c text].
  - cbn [truthyText].
    destruct (openAnonymous _ _) as [text2|] eqn:Hanon.
    + pose proof (openAnonymous_prefix _ _ _ Hanon) as Hpre.
      destruct text2 as [|c2 text2]; [discriminate|].
      cbn [truthyText default].
      destruct (bind _ _ w) as [r w'] eqn:Hrun.
      exists r, w'. split; [reflexivity|].
      assert (Hkeep : keepsConversations w w').
      { revert Hrun. apply preserves_bind.
        - apply keepsConversations_trans.
        - now apply conv_dispatch_accept.
        - intros _. apply preserves_ret, keepsConversations_refl. }
      destruct Hkeep as [Hh Hf].
      split; [assumption|]. split; [assumption|]. intros Hne. now destruct Hne.
    + cbn [truthyText]. exists (Returned processedIds), w.
      repeat (split; [reflexivity|]). intros Hne. now destruct Hne.
  - cbn [truthyText default]. rewrite dispatch_blocked by assumption.
    exists (Returned (pushId (msg_id msg) processedIds)), w.
    repeat split; reflexivity.
Qed.

Lemma pushId_app (id : option Z) (ids : list Z) :
  pushId id ids = ids ++ pushId id [].
Proof.
  unfold pushId. destruct id as [z|]; [destruct (z =? 0)%Z|];
    now rewrite ?app_nil_r.
Qed.

Lemma processMessage_ids contacts secretKey e msg ids w ids' w' :
  processMessage contacts secretKey e msg ids w = (Returned ids', w') ->
  ids' = ids ++ (if decrypts contacts secretKey msg then deliveryId msg else []).
Proof.
  unfold processMessage, decrypts.
  destruct (decodeBase64 (content msg)) as [decoded|]; [|discriminate].
  destruct (openEnvelope _ _ _) as [decrypted sender]. cbn [fst].
  destruct (truthyText decrypted).
  - unfold bind. destruct (dispatch _ _ _ w) as [[u|] w1]; [|discriminate].
    intros [= <- <-]. apply pushId_app.
  - intros [= <- <-]. now rewrite app_nil_r.
Qed.

Lemma processAll_ids contacts secretKey batch :
  forall ids w ids' w',
    processAll contacts secretKey batch ids w = (Returned ids', w') ->
    ids' = ids ++ acknowledged contacts secretKey batch.
Proof.
  induction batch as [|[e msg] rest IH]; intros ids w ids' w'; simpl.
  - intros [= <- <-]. now rewrite app_nil_r.
  - unfold bind at 1.
    destruct (processMessage _ _ _ _ _ w) as [[ids1|] w1] eqn:Hm; [|discriminate].
    intros Hrest. apply IH in Hrest. apply processMessage_ids in Hm.
    subst. now rewrite <- app_assoc.
Qed.

End Frames.

(** *** When the loop ends without an exception *)

(** The encryption key is available and every stored history parses. *)
Definition storable (w : World) : Prop :=
  encKeyAvailable w = true /\
  forall id, histories w !! id <> Some Unparseable.

(** The encryption key is as available as before. *)
Definition keepsKey (w w' : World) : Prop :=
  encKeyAvailable w' = encKeyAvailable w.

(** With the encryption key available, the program throws only in a state
    where a stored history does not parse. *)
Definition throwsUnparsed {A : Type} (m : M A) : Prop :=
  forall w w',
    encKeyAvailable w = true -> m w = (Threw, w') ->
    exists id, histories w' !! id = Some Unparseable.

Section Completion.
Context {P : Platform}.

Lemma keepsKey_refl (w : World) : keepsKey w w.
Proof. reflexivity. Qed.

Lemma keepsKey_trans (w1 w2 w3 : World) :
  keepsKey w1 w2 -> keepsKey w2 w3 -> keepsKey w1 w3.
Proof. unfold keepsKey. congruence. Qed.

Lemma key_setContacts l : preserves keepsKey (setContacts l).
Proof.
  intros w r w'. unfold setContacts.
  destruct (encKeyAvailable w) eqn:Hk; intros [= <- <-]; unfold keepsKey; cbn;
    congruence.
Qed.

Lemma key_setHistory id l : preserves keepsKey (setHistory id l).
Proof.
  intros w r w'. unfold setHistory.
  destruct (encKeyAvailable w) eqn:Hk; intros [= <- <-]; unfold keepsKey; cbn;
    congruence.
Qed.

Lemma key_clearHistory id : preserves keepsKey (clearHistory id).
Proof. intros w r w' [= <- <-]. reflexivity. Qed.

Lemma key_clearLastRead id : preserves keepsKey (clearLastRead id).
Proof. intros w r w' [= <- <-]. reflexivity. Qed.

Lemma key_writeFile uri contents : preserves keepsKey (writeFile uri contents).
Proof.
  intros w r w'. unfold writeFile.
  destruct (fileWriteFails uri contents); intros [= <- <-]; reflexivity.
Qed.

Ltac key_prims :=
  first [ apply key_setContacts | apply key_setHistory | apply key_clearHistory
        | apply key_clearLastRead | apply key_writeFile ].

Ltac key_frame :=
  pose proof keepsKey_refl; pose proof keepsKey_trans;
  frame_with key_prims.

Lemma key_saveAvatarLocally now id data :
  preserves keepsKey (saveAvatarLocally now id data).
Proof. unfold saveAvatarLocally. key_frame. Qed.

Lemma key_addContactFromHandshake now data :
  preserves keepsKey (addContactFromHandshake now data).
Proof.
  unfold addContactFromHandshake.
  pose proof keepsKey_refl; pose proof keepsKey_trans.
  frame_using key_saveAvatarLocally key_prims.
Qed.

Lemma key_updateContactInfo now id pseudo avatar :
  preserves keepsKey (updateContactInfo now id pseudo avatar).
Proof.
  unfold updateContactInfo.
  pose proof keepsKey_refl; pose proof keepsKey_trans.
  frame_using key_saveAvatarLocally key_prims.
Qed.

Lemma key_deleteContactLocally id : preserves keepsKey (deleteContactLocally id).
Proof. unfold deleteContactLocally. key_frame. Qed.

Lemma key_handleSignal e decrypted sender :
  preserves keepsKey (handleSignal e decrypted sender).
Proof.
  unfold handleSignal.
  pose proof keepsKey_refl; pose proof keepsKey_trans.
  pose proof key_updateContactInfo; pose proof key_deleteContactLocally.
  frame_using key_addContactFromHandshake key_prims.
Qed.

Lemma key_saveMedia e decrypted : preserves keepsKey (saveMedia e decrypted).
Proof. unfold saveMedia. key_frame. Qed.

Lemma key_storeMessage e sender text :
  preserves keepsKey (storeMessage e sender text).
Proof. unfold storeMessage. key_frame. Qed.

Lemma key_dispatch e decrypted sender :
  preserves keepsKey (dispatch e decrypted sender).
Proof.
  unfold dispatch.
  pose proof keepsKey_refl; pose proof keepsKey_trans.
  pose proof key_handleSignal; pose proof key_saveMedia.
  frame_using key_storeMessage key_prims.
Qed.

Lemma key_processMessage contacts secretKey e msg ids :
  preserves keepsKey (processMessage contacts secretKey e msg ids).
Proof.
  unfold processMessage.
  destruct (decodeBase64 (content msg)); [|apply preserves_throw, keepsKey_refl].
  destruct (openEnvelope _ _ _) as [decrypted sender].
  pose proof keepsKey_refl; pose proof keepsKey_trans.
  frame_using key_dispatch key_prims.
Qed.

Lemma throwsUnparsed_ret {A : Type} (a : A) : throwsUnparsed (ret a).
Proof. intros w w' _ [=]. Qed.

Lemma throwsUnparsed_bind {A B : Type} (m : M A) (k : A -> M B) :
  preserves keepsKey m -> throwsUnparsed m -> (forall a, throwsUnparsed (k a)) ->
  throwsUnparsed (bind m k).
Proof.
  intros Hkey Hm Hk w w' Hw. unfold bind.
  destruct (m w) as [[a|] w1] eqn:Em.
  - apply Hk. pose proof (Hkey _ _ _ Em) as Hk1. unfold keepsKey in Hk1. congruence.
  - intros [= <-]. now apply (Hm w).
Qed.

(** A handler that returns swallows every exception. *)
Lemma throwsUnparsed_swallowed {A : Type} (body : M A) (a : A) :
  throwsUnparsed (tryCatch body (ret a)).
Proof.
  intros w w' _. unfold tryCatch. destruct (body w) as [[x|] w1]; discriminate.
Qed.

Lemma throwsUnparsed_setHistory id l : throwsUnparsed (setHistory id l).
Proof. intros w w' Hk. unfold setHistory. now rewrite Hk. Qed.

Lemma throwsUnparsed_readHistory {A : Type} id (k : list Message.t -> M A) :
  (forall history, throwsUnparsed (k history)) ->
  throwsUnparsed (let* historyJson := getHistory id in
                  let* history := match historyJson with
                                  | Some stored => parse stored
                                  | None => ret []
                                  end in
                  k history).
Proof.
  intros Hk w w' Hw. unfold bind, getHistory. rewrite Hw.
  destruct (histories w !! id) as [[history|]|] eqn:E; cbn [parse ret throw].
  - now apply Hk.
  - intros [= <-]. now exists id.
  - now apply Hk.
Qed.

Lemma throwsUnparsed_storeMessage e sender text :
  throwsUnparsed (storeMessage e sender text).
Proof.
  unfold storeMessage. apply throwsUnparsed_readHistory.
  intros history. apply throwsUnparsed_setHistory.
Qed.

Lemma throwsUnparsed_handleSignal e decrypted sender :
  throwsUnparsed (handleSignal e decrypted sender).
Proof.
  unfold handleSignal. cbv zeta.
  destruct (bool_decide _).
  - destruct (JSON_parse _); [|apply throwsUnparsed_ret].
    unfold addContactFromHandshake. apply throwsUnparsed_swallowed.
  - destruct sender as [sender|]; [|apply throwsUnparsed_ret].
    destruct (bool_decide _).
    { destruct (JSON_parse _); [|apply throwsUnparsed_ret].
      destruct (validProfileUpdate _); [|apply throwsUnparsed_ret].
      unfold updateContactInfo. apply throwsUnparsed_swallowed. }
    destruct (bool_decide _).
    { unfold deleteContactLocally. apply throwsUnparsed_swallowed. }
    destruct (bool_decide _).
    { apply throwsUnparsed_readHistory. intros history.
      apply throwsUnparsed_setHistory. }
    destruct (bool_decide _); [|apply throwsUnparsed_ret].
    intros w w' Hw. unfold bind, getHistory. rewrite Hw.
    destruct (histories w !! Contact.id sender) as [[history|]|] eqn:E;
      cbn [parse ret throw].
    + destruct (existsb unread history).
      * now apply throwsUnparsed_setHistory.
      * discriminate.
    + intros [= <-]. now exists (Contact.id sender).
    + discriminate.
Qed.

Lemma throwsUnparsed_dispatch e decrypted sender :
  throwsUnparsed (dispatch e decrypted sender).
Proof.
  unfold dispatch.
  destruct (startsWith _ decrypted); [apply throwsUnparsed_handleSignal|].
  destruct sender as [sender|]; [|apply throwsUnparsed_ret].
  destruct (Contact.isBlocked sender); [apply throwsUnparsed_ret|].
  destruct (startsWith _ decrypted); [|apply throwsUnparsed_storeMessage].
  apply throwsUnparsed_bind.
  - apply key_saveMedia.
  - unfold saveMedia. apply throwsUnparsed_swallowed.
  - intros [text|]; [apply throwsUnparsed_storeMessage | apply throwsUnparsed_ret].
Qed.

Lemma throwsUnparsed_processMessage contacts secretKey e msg ids :
  decodeBase64 (content msg) <> None ->
  throwsUnparsed (processMessage contacts secretKey e msg ids).
Proof.
  intros Hdec. unfold processMessage.
  destruct (decodeBase64 (content msg)) as [decoded|]; [|congruence].
  destruct (openEnvelope _ _ _) as [decrypted sender].
  destruct (truthyText decrypted); [|apply throwsUnparsed_ret].
  apply throwsUnparsed_bind;
    [apply key_dispatch | apply throwsUnparsed_dispatch |].
  intros _. apply throwsUnparsed_ret.
Qed.

Lemma throwsUnparsed_processAll contacts secretKey batch :
  (forall e msg, (e, msg) ∈ batch -> decodeBase64 (content msg) <> None) ->
  forall ids, throwsUnparsed (processAll contacts secretKey batch ids).
Proof.
  induction batch as [|[e msg] rest IH]; intros Hdec ids; simpl.
  - apply throwsUnparsed_ret.
  - apply throwsUnparsed_bind.
    + apply key_processMessage.
    + apply throwsUnparsed_processMessage. apply (Hdec e). left.
    + intros ids'. apply IH. intros e' msg' Hin. apply (Hdec e'). now right.
Qed.

End Completion.

Section Acknowledgement.
Context {P : Platform}.

(** C5 (as the code has it).  For a batch that is not empty, handled with the
    contact list read at the start of the poll: when the loop over the items
    ends without an exception, the IDs collected are exactly the delivery IDs
    of the items that decrypted to a text, in order, whatever was stored for
    them, and they are acknowledged in one request (none is sent when there
    are none); when an exception ends the loop, the poll ends without any
    acknowledgement; and when every item is base-64, the encryption key is
    available and the stored histories parse, the loop ends without an
    exception unless a history that it wrote itself is read back as a text
    that does not parse. *)
Theorem C5_acknowledges_decrypted
    (secretKey : bytes) (messages : list (Entropy * InboundItem))
    (w : World) (contacts : list Contact.t) :
  messages <> [] ->
  contactsSnapshot w = Some contacts ->
  (forall ids w1,
     processAll contacts secretKey messages [] w = (Returned ids, w1) ->
     ids = acknowledged contacts secretKey messages /\
     acks w1 = acks w /\
     checkGlobalMessages (Some secretKey) (Ok messages) w
     = (Returned tt, match ids with [] => w1 | _ => withAck ids w1 end)) /\
  (forall w1,
     processAll contacts secretKey messages [] w = (Threw, w1) ->
     acks w1 = acks w /\
     checkGlobalMessages (Some secretKey) (Ok messages) w = (Returned tt, w1)) /\
  (storable w ->
   (forall e msg, (e, msg) ∈ messages -> decodeBase64 (content msg) <> None) ->
   (exists ids w1,
      processAll contacts secretKey messages [] w = (Returned ids, w1)) \/
   (exists w1 id,
      processAll contacts secretKey messages [] w = (Threw, w1) /\
      histories w1 !! id = Some Unparseable)).
Proof.
  intros Hne Hsnap.
  assert (Hcheck : forall r w1,
    processAll contacts secretKey messages [] w = (r, w1) ->
    checkGlobalMessages (Some secretKey) (Ok messages) w
    = (Returned tt,
       match r with
       | Returned ids => match ids with [] => w1 | _ => withAck ids w1 end
       | Threw => w1
       end)).
  { intros r w1 Hrun. unfold checkGlobalMessages.
    destruct messages as [|m ms]; [congruence|].
    unfold contactsSnapshot in Hsnap.
    unfold tryCatch, bind at 1, getContacts.
    destruct (if encKeyAvailable w then contactsRecord w else None)
      as [[l|]|]; try discriminate; injection Hsnap as ->;
      unfold bind at 1; cbn [parse ret]; unfold bind; rewrite Hrun;
      destruct r as [[|i ids0]|]; reflexivity. }
  split; [|split].
  - intros ids w1 Hrun. split; [|split].
    + apply processAll_ids in Hrun. exact Hrun.
    + exact (acks_processAll _ _ _ _ _ _ _ Hrun).
    + exact (Hcheck _ _ Hrun).
  - intros w1 Hrun. split.
    + exact (acks_processAll _ _ _ _ _ _ _ Hrun).
    + exact (Hcheck _ _ Hrun).
  - intros [Hk _] Hdec.
    destruct (processAll contacts secretKey messages [] w) as [[ids|] w1] eqn:Hrun.
    + left. now exists ids, w1.
    + right. exists w1.
      destruct (throwsUnparsed_processAll contacts secretKey messages Hdec [] w w1
                  Hk Hrun) as [id Hid].
      now exists id.
Qed.

End Acknowledgement.

(** *** The sweep, conversation by conversation *)

Definition idsOf (l : list Contact.t) : list jsstring := map Contact.id l.

Section Sweep.
Context {P : Platform}.

(** The TTL of a conversation, in seconds, when the sweep applies to it. *)
Definition ttl (w : World) (contactId : jsstring) : option Z :=
  match timers w !! contactId with
  | Some ((_ :: _) as timerStr) =>
      match parseInt timerStr with
      | Some timerSeconds => if (timerSeconds <=? 0)%Z then None else Some timerSeconds
      | None => None
      end
  | _ => None
  end.







Lemma unexpired_all (now expiryMs : Z) (history : list Message.t) :
  length (unexpired now expiryMs history) = length history ->
  unexpired now expiryMs history = history.
Proof.
  unfold unexpired. induction history as [|m history IH]; [reflexivity|].
  rewrite filter_cons. destruct (decide _) as [Hm|Hm]; simpl.
  - intros [= Hlen]. f_equal. now apply IH.
  - intros Hlen.
    pose proof (length_filter (fun m => (now - Message.timestamp m < expiryMs)%Z) history).
    lia.
Qed.


Lemma unexpired_shorter (now expiryMs : Z) (history : list Message.t) :
  (length (unexpired now expiryMs history) <= length history)%nat.
Proof. unfold unexpired. apply length_filter. Qed.

Lemma unexpired_none_expired (now expiryMs : Z) (history : list Message.t) :
  (length (unexpired now expiryMs history) <? length history)%nat = false ->
  unexpired now expiryMs history = history.
Proof.
  intros H. apply Nat.ltb_ge in H. apply unexpired_all.
  pose proof (unexpired_shorter now expiryMs history). lia.
Qed.

















End Sweep.

(** *** The trust store *)

(** Everything that writes the contact list. *)
Inductive TrustOp : Type :=
| Handshake (now : Z) (data : json)
| AddLocally (now : Z) (nc : NewContact)
| Approve (contactId : jsstring)
| ToggleVerified (contactId : jsstring) (isVerified : bool)
| SaveAlias (contactId : jsstring) (alias : option jsstring)
| ToggleBlock (contactId : jsstring)
| Unblock (id : jsstring)
| DeleteContact (contactId : jsstring)
| DeleteFromList (id : jsstring)
| ProfileUpdate (now : Z) (contactId pseudo : jsstring) (avatar : option jsstring)
| DeleteLocally (contactId : jsstring).

Definition perform {P : Platform} (op : TrustOp) : M unit :=
  match op with
  | Handshake now data => addContactFromHandshake now data
  | AddLocally now nc => addContactLocally now nc
  | Approve contactId => approveNewKey contactId
  | ToggleVerified contactId isVerified => toggleVerified contactId isVerified
  | SaveAlias contactId alias => saveAlias contactId alias
  | ToggleBlock contactId => toggleBlock contactId
  | Unblock id => unblockContact id
  | DeleteContact contactId => deleteContact contactId
  | DeleteFromList id => deleteContactFromList id
  | ProfileUpdate now contactId pseudo avatar =>
      updateContactInfo now contactId pseudo avatar
  | DeleteLocally contactId => deleteContactLocally contactId
  end.

(** A sequence of operations, each run in the state the one before left. *)
Definition performAll {P : Platform} (ops : list TrustOp) (w : World) : World :=
  fold_left (fun w op => snd (perform op w)) ops w.

(** The record the list holds for an identifier: the first with that [id]. *)
Definition storedContact (w : World) (id : jsstring) : option Contact.t :=
  match contactsRecord w with
  | Some (Parsed l) => find (hasId id) l
  | _ => None
  end.

(** The contacts on record: none when nothing is stored or the record does
    not parse. *)
Definition contactsOf (w : World) : list Contact.t :=
  match contactsRecord w with
  | Some (Parsed l) => l
  | _ => []
  end.

(** No record changes its key between two lists. *)
Definition keyStable (l l' : list Contact.t) : Prop :=
  forall j c c',
    find (hasId j) l = Some c -> find (hasId j) l' = Some c' ->
    Contact.key c' = Contact.key c.

Definition keepsContacts (w w' : World) : Prop :=
  contactsRecord w' = contactsRecord w /\ encKeyAvailable w' = encKeyAvailable w.

(** [data.id] of a handshake. *)
Definition handshakeId (data : json) : jsstring :=
  default [] (optString (prop data (js "id"))).

(** The state after [secureSet(CONTACTS_KEY, JSON.stringify(l))]. *)
Definition withContacts {P : Platform} (l : list Contact.t) (w : World) : World :=
  mkWorld (encKeyAvailable w) (Some (writtenContacts l)) (histories w) (lastRead w)
          (timers w) (files w) (acks w).

(** What a step leaves of the contact list: the record as it was, or what is
    read back of a list it wrote, the list being related by [R] to the
    contacts on record before. *)
Definition listStep {P : Platform}
    (R : list Contact.t -> list Contact.t -> Prop) (w w' : World) : Prop :=
  contactsRecord w' = contactsRecord w \/
  exists l', R (contactsOf w) l' /\ contactsRecord w' = Some (writtenContacts l').

(** The claim of C1 as it is written, on a sequence of operations: the key
    stored for an identifier changes only when the sequence holds the
    approval of that contact. *)
Definition keyChangesOnlyByApproval {P : Platform} (ops : list TrustOp) (w : World)
  : Prop :=
  forall i c c',
    storedContact w i = Some c ->
    storedContact (performAll ops w) i = Some c' ->
    Contact.key c' <> Contact.key c ->
    Approve i ∈ ops.

Section TrustStore.
Context {P : Platform}.

Lemma hasId_true (i : jsstring) (c : Contact.t) :
  hasId i c = true <-> Contact.id c = i.
Proof. unfold hasId. apply jsstring_eqb_eq. Qed.

Lemma hasId_false (i : jsstring) (c : Contact.t) :
  hasId i c = false <-> Contact.id c <> i.
Proof.
  unfold hasId, jsstring_eqb. rewrite bool_decide_eq_false. reflexivity.
Qed.

Lemma hasId_same_id (i : jsstring) (c c' : Contact.t) :
  Contact.id c' = Contact.id c -> hasId i c' = hasId i c.
Proof. unfold hasId. now intros ->. Qed.

Lemma find_hasId (i : jsstring) (l : list Contact.t) (c : Contact.t) :
  find (hasId i) l = Some c -> Contact.id c = i.
Proof. intros H. apply find_some in H as [_ H]. now apply hasId_true. Qed.

Lemma find_map_same_id (f : Contact.t -> Contact.t) (j : jsstring)
    (l : list Contact.t) :
  (forall c, Contact.id (f c) = Contact.id c) ->
  find (hasId j) (map f l) = option_map f (find (hasId j) l).
Proof.
  intros Hf. induction l as [|c l IH]; [reflexivity|]. simpl.
  rewrite (hasId_same_id j c (f c)) by apply Hf.
  now destruct (hasId j c).
Qed.

Lemma find_filter_other (i j : jsstring) (l : list Contact.t) :
  find (hasId j) (filter (fun c => hasId i c = false) l)
  = if decide (i = j) then None else find (hasId j) l.
Proof.
  induction l as [|c l IH].
  - now destruct (decide (i = j)).
  - rewrite filter_cons. destruct (decide (hasId i c = false)) as [Hc|Hc]; simpl.
    + rewrite IH. destruct (decide (i = j)) as [->|Hij].
      * now rewrite Hc.
      * reflexivity.
    + apply not_false_is_true in Hc. rewrite IH.
      destruct (decide (i = j)) as [->|Hij]; [reflexivity|].
      apply hasId_true in Hc.
      assert (Hj : hasId j c = false) by (apply hasId_false; congruence).
      now rewrite Hj.
Qed.

Lemma find_app_found (j : jsstring) (l l' : list Contact.t) (c : Contact.t) :
  find (hasId j) l = Some c -> find (hasId j) (l ++ l') = Some c.
Proof.
  induction l as [|x l IH]; [discriminate|]. simpl.
  destruct (hasId j x); [trivial | exact IH].
Qed.

Lemma find_app_new (j : jsstring) (l : list Contact.t) (c : Contact.t) :
  find (hasId j) l = None -> Contact.id c = j ->
  find (hasId j) (l ++ [c]) = Some c.
Proof.
  intros Hnone Hid. induction l as [|x l IH]; simpl in *.
  - apply hasId_true in Hid. now rewrite Hid.
  - destruct (hasId j x); [discriminate | now apply IH].
Qed.

Lemma findIndex_found (i : jsstring) (l : list Contact.t) (idx : nat) :
  findIndex i l = Some idx ->
  exists c, l !! idx = Some c /\ find (hasId i) l = Some c.
Proof.
  revert idx. induction l as [|x l IH]; intros idx; simpl; [discriminate|].
  destruct (hasId i x).
  - intros [= <-]. now exists x.
  - destruct (findIndex i l) as [k|]; [|discriminate].
    intros [= <-]. destruct (IH k eq_refl) as (c & Hc & Hf). now exists c.
Qed.

Lemma find_findIndex (i : jsstring) (l : list Contact.t) (c : Contact.t) :
  find (hasId i) l = Some c ->
  exists idx, findIndex i l = Some idx /\ l !! idx = Some c.
Proof.
  induction l as [|x l IH]; simpl; [discriminate|].
  destruct (hasId i x).
  - intros [= <-]. now exists 0%nat.
  - intros H. destruct (IH H) as (idx & -> & Hl). now exists (S idx).
Qed.

Lemma findIndex_none (i : jsstring) (l : list Contact.t) :
  findIndex i l = None -> find (hasId i) l = None.
Proof.
  intros H. destruct (find (hasId i) l) as [c|] eqn:Hfind; [|reflexivity].
  destruct (find_findIndex i l c Hfind) as (idx & Hidx & _). congruence.
Qed.

Lemma find_none_findIndex (i : jsstring) (l : list Contact.t) :
  find (hasId i) l = None -> findIndex i l = None.
Proof.
  intros H. destruct (findIndex i l) as [idx|] eqn:Hidx; [|reflexivity].
  destruct (findIndex_found i l idx Hidx) as (c & _ & Hfind). congruence.
Qed.

Lemma find_insert_found (i j : jsstring) (l : list Contact.t) (idx : nat)
    (c' : Contact.t) :
  findIndex i l = Some idx ->
  Contact.id c' = i ->
  find (hasId j) (<[idx := c']> l)
  = if decide (i = j) then Some c' else find (hasId j) l.
Proof.
  intros Hidx Hid. revert idx Hidx.
  induction l as [|x l IH]; intros idx; simpl; [discriminate|].
  destruct (hasId i x) eqn:Hx.
  - intros [= <-]. simpl. apply hasId_true in Hx.
    destruct (decide (i = j)) as [->|Hij].
    + assert (H : hasId j c' = true) by now apply hasId_true.
      now rewrite H.
    + assert (H : hasId j c' = false) by (apply hasId_false; congruence).
      assert (H' : hasId j x = false) by (apply hasId_false; congruence).
      now rewrite H, H'.
  - destruct (findIndex i l) as [k|]; [|discriminate].
    intros [= <-]. simpl. specialize (IH k eq_refl).
    apply hasId_false in Hx.
    destruct (decide (i = j)) as [->|Hij].
    + assert (H' : hasId j x = false) by now apply hasId_false.
      now rewrite H'.
    + rewrite IH. reflexivity.
Qed.

Lemma keyStable_refl (l : list Contact.t) : keyStable l l.
Proof. intros j c c' H1 H2. congruence. Qed.

Lemma keyStable_map (f : Contact.t -> Contact.t) (l : list Contact.t) :
  (forall c, Contact.id (f c) = Contact.id c) ->
  (forall c, Contact.key (f c) = Contact.key c) ->
  keyStable l (map f l).
Proof.
  intros Hid Hkey j c c' H1 H2.
  rewrite find_map_same_id, H1 in H2 by exact Hid.
  injection H2 as <-. apply Hkey.
Qed.

Lemma keyStable_filter (i : jsstring) (l : list Contact.t) :
  keyStable l (filter (fun c => hasId i c = false) l).
Proof.
  intros j c c' H1 H2. rewrite find_filter_other in H2.
  destruct (decide (i = j)); congruence.
Qed.

Lemma keyStable_app (l l' : list Contact.t) : keyStable l (l ++ l').
Proof.
  intros j c c' H1 H2. rewrite (find_app_found j l l' c H1) in H2. congruence.
Qed.

Lemma keyStable_insert (i : jsstring) (l : list Contact.t) (idx : nat)
    (c0 c1 : Contact.t) :
  findIndex i l = Some idx ->
  l !! idx = Some c0 ->
  Contact.id c1 = Contact.id c0 ->
  Contact.key c1 = Contact.key c0 ->
  keyStable l (<[idx := c1]> l).
Proof.
  intros Hidx Hl Hid Hkey j c c' H1 H2.
  destruct (findIndex_found i l idx Hidx) as (x & Hx & Hfind).
  assert (x = c0) by congruence; subst x.
  pose proof (find_hasId i l c0 Hfind) as Hi.
  rewrite (find_insert_found i j l idx c1 Hidx) in H2 by congruence.
  destruct (decide (i = j)) as [->|Hij]; [|congruence].
  injection H2 as <-. congruence.
Qed.

Lemma storedContact_parsed (w : World) (i : jsstring) (c : Contact.t) :
  storedContact w i = Some c ->
  exists l0, contactsRecord w = Some (Parsed l0) /\ find (hasId i) l0 = Some c.
Proof.
  unfold storedContact. destruct (contactsRecord w) as [[l0|]|]; try discriminate.
  intros H. now exists l0.
Qed.

Lemma storedContact_contactsOf (w : World) (i : jsstring) :
  storedContact w i = find (hasId i) (contactsOf w).
Proof.
  unfold storedContact, contactsOf. now destruct (contactsRecord w) as [[l|]|].
Qed.

(** When the list is read back as written, the record found after the write
    is the record of the list. *)
Lemma storedContact_written (l : list Contact.t) (w : World) (i : jsstring) :
  keptContacts l -> storedContact (withContacts l w) i = find (hasId i) l.
Proof.
  intros Hkept. unfold storedContact, withContacts. cbn [contactsRecord].
  unfold keptContacts in Hkept. now rewrite Hkept.
Qed.

Lemma setContacts_available (l : list Contact.t) (w : World) :
  encKeyAvailable w = true ->
  setContacts l w = (Returned tt, withContacts l w).
Proof. unfold setContacts, withContacts. now intros ->. Qed.

Lemma setContacts_unavailable (l : list Contact.t) (w : World) :
  encKeyAvailable w = false -> setContacts l w = (Threw, w).
Proof. unfold setContacts. now intros ->. Qed.

Lemma editContacts_run (f : list Contact.t -> list Contact.t) (w : World) :
  editContacts f w
  = (Returned tt,
     match encKeyAvailable w, contactsRecord w with
     | true, Some (Parsed l) => withContacts (f l) w
     | _, _ => w
     end).
Proof.
  unfold editContacts, tryCatch, bind, getContacts, setContacts, withContacts.
  destruct (encKeyAvailable w) eqn:Hk; [|reflexivity].
  destruct (contactsRecord w) as [[l|]|]; cbn [parse ret throw]; try reflexivity.
  now rewrite Hk.
Qed.

(** [json ? JSON.parse(json) : []] after [secureGet]. *)
Definition readList (w : World) : Result (list Contact.t) :=
  match (if encKeyAvailable w then contactsRecord w else None) with
  | None => Returned []
  | Some (Parsed l) => Returned l
  | Some Unparseable => Threw
  end.

Lemma read_then {A : Type} (k : list Contact.t -> M A) (w : World) :
  (let* json := getContacts in
   let* list := match json with
                | Some stored => parse stored
                | None => ret []
                end in
   k list) w
  = match readList w with
    | Returned l => k l w
    | Threw => (Threw, w)
    end.
Proof.
  unfold bind, getContacts, readList.
  destruct (if encKeyAvailable w then contactsRecord w else None) as [[l|]|];
    reflexivity.
Qed.

Lemma readList_stored (w : World) (l : list Contact.t) :
  readList w = Returned l -> encKeyAvailable w = true -> l = contactsOf w.
Proof.
  unfold readList, contactsOf. intros H Hk. rewrite Hk in H.
  destruct (contactsRecord w) as [[l0|]|]; congruence.
Qed.

Lemma readList_available (w : World) :
  encKeyAvailable w = true -> contactsRecord w <> Some Unparseable ->
  readList w = Returned (contactsOf w).
Proof.
  intros Hk Hok. unfold readList, contactsOf. rewrite Hk.
  now destruct (contactsRecord w) as [[l|]|].
Qed.

Lemma tryCatch_world (body : M unit) (w : World) :
  tryCatch body (ret tt) w = (Returned tt, snd (body w)).
Proof.
  unfold tryCatch. destruct (body w) as [[[]|] w1]; reflexivity.
Qed.

Lemma keepsContacts_refl (w : World) : keepsContacts w w.
Proof. split; reflexivity. Qed.

Lemma keepsContacts_trans (w1 w2 w3 : World) :
  keepsContacts w1 w2 -> keepsContacts w2 w3 -> keepsContacts w1 w3.
Proof. unfold keepsContacts. intros [? ?] [? ?]. split; congruence. Qed.

Lemma stored_keepsContacts (w w1 : World) :
  keepsContacts w w1 -> contactsOf w1 = contactsOf w.
Proof. intros [Hc _]. unfold contactsOf. now rewrite Hc. Qed.

Lemma contacts_saveAvatarLocally now id data :
  preserves keepsContacts (saveAvatarLocally now id data).
Proof.
  pose proof keepsContacts_refl as Hrefl. pose proof keepsContacts_trans as Htrans.
  unfold saveAvatarLocally. frame_with ltac:(idtac).
  intros w r w'. unfold writeFile.
  destruct (fileWriteFails _ _); intros [= <- <-]; split; reflexivity.
Qed.

Lemma saveAvatarLocally_returns now id data (w : World) :
  exists local w1, saveAvatarLocally now id data w = (Returned local, w1).
Proof.
  unfold saveAvatarLocally, tryCatch.
  match goal with |- context [match ?body w with _ => _ end] =>
    destruct (body w) as [[local|] w1] end.
  - now exists local, w1.
  - now exists None, w1.
Qed.

(** The avatar a handshake or a profile update ends with. *)
Lemma avatar_keepsContacts (now : Z) (dataId : jsstring) (dataAvatar : option jsstring) :
  preserves keepsContacts
    (if isDataUri dataAvatar
     then saveAvatarLocally now dataId (default [] dataAvatar)
     else ret dataAvatar).
Proof.
  destruct (isDataUri dataAvatar).
  - apply contacts_saveAvatarLocally.
  - apply preserves_ret, keepsContacts_refl.
Qed.

Lemma avatar_returns (now : Z) (dataId : jsstring) (dataAvatar : option jsstring)
    (w : World) :
  exists finalAvatar w1,
    (if isDataUri dataAvatar
     then saveAvatarLocally now dataId (default [] dataAvatar)
     else ret dataAvatar) w = (Returned finalAvatar, w1) /\
    keepsContacts w w1.
Proof.
  destruct (isDataUri dataAvatar) eqn:Huri.
  - destruct (saveAvatarLocally_returns now dataId (default [] dataAvatar) w)
      as (local & w1 & Hrun).
    exists local, w1. split; [exact Hrun|].
    eapply contacts_saveAvatarLocally, Hrun.
  - exists dataAvatar, w. split; [reflexivity | apply keepsContacts_refl].
Qed.

(** **** The shape of what is written

    What an operation may write, from the list it read: records rewritten
    without a change of identifier or key, the records of an identifier
    dropped, the record found for an identifier replaced by one of the same
    identifier and key, or a record appended for an identifier that is not
    on the list.  (The approval, which changes a key, is the one operation
    that is not of this shape.) *)
Section Shape.
Variable R : list Contact.t -> list Contact.t -> Prop.
Hypothesis R_map :
  forall (f : Contact.t -> Contact.t) l,
    (forall c, Contact.id (f c) = Contact.id c) ->
    (forall c, Contact.key (f c) = Contact.key c) -> R l (map f l).
Hypothesis R_filter :
  forall i l, R l (filter (fun c => hasId i c = false) l).
Hypothesis R_insert :
  forall i l idx c0 c1,
    findIndex i l = Some idx -> l !! idx = Some c0 ->
    Contact.id c1 = Contact.id c0 -> Contact.key c1 = Contact.key c0 ->
    R l (<[idx := c1]> l).
Hypothesis R_app :
  forall i l c, find (hasId i) l = None -> Contact.id c = i -> R l (l ++ [c]).

Lemma listStep_kept (w w1 : World) : keepsContacts w w1 -> listStep R w w1.
Proof. intros [Hc _]. now left. Qed.

Lemma write_shape (l' : list Contact.t) (w w1 : World) :
  keepsContacts w w1 ->
  (encKeyAvailable w = true -> R (contactsOf w) l') ->
  listStep R w (snd (setContacts l' w1)).
Proof.
  intros Hkeep Hl'. pose proof Hkeep as [Hc Hk]. unfold setContacts. rewrite Hk.
  destruct (encKeyAvailable w); cbn [snd].
  - right. exists l'. split; [now apply Hl' | reflexivity].
  - now left.
Qed.

Lemma step_shape {A : Type} (m : M A) (k : A -> M unit)
    (l' : A -> list Contact.t) (w : World) :
  preserves keepsContacts m ->
  (forall a, k a = setContacts (l' a) \/ k a = ret tt) ->
  (forall a, encKeyAvailable w = true -> R (contactsOf w) (l' a)) ->
  listStep R w (snd (bind m k w)).
Proof.
  intros Hm Hk Hl'. unfold bind.
  destruct (m w) as [[a|] w1] eqn:Hrun; pose proof (Hm _ _ _ Hrun) as Hkeep.
  - destruct (Hk a) as [-> | ->].
    + apply write_shape; [exact Hkeep | apply Hl'].
    + now apply listStep_kept.
  - now apply listStep_kept.
Qed.

Lemma editContacts_shape (f : list Contact.t -> list Contact.t) (w : World) :
  (forall l, R l (f l)) ->
  listStep R w (snd (editContacts f w)).
Proof.
  intros Hf. rewrite editContacts_run. cbn [snd].
  destruct (encKeyAvailable w); [|now left].
  destruct (contactsRecord w) as [[l|]|] eqn:Hl; try now left.
  right. exists (f l). split; [|reflexivity].
  unfold contactsOf. rewrite Hl. apply Hf.
Qed.

Lemma handshake_shape (now : Z) (data : json) (w : World) :
  listStep R w (snd (addContactFromHandshake now data w)).
Proof.
  unfold addContactFromHandshake. rewrite tryCatch_world. cbn [snd].
  destruct (validateHandshakeData data); cbn [negb]; [|now left].
  cbv zeta. rewrite read_then.
  destruct (readList w) as [l|] eqn:Hread; [|now left].
  set (dataId := default [] (optString (prop data (js "id")))).
  set (dataKey := optString (prop data (js "key"))).
  set (dataName := optString (prop data (js "name"))).
  set (dataAvatar := optString (prop data (js "avatar"))).
  destruct (findIndex dataId l) as [idx|] eqn:Hidx.
  - destruct (findIndex_found dataId l idx Hidx) as (existing & Hex & _).
    rewrite Hex.
    destruct (bool_decide (Contact.key existing = dataKey)); cbn [negb].
    + apply (step_shape _ _
               (fun fa => <[idx := withProfile existing dataName
                                     (orElse fa (Contact.avatar existing))]> l)).
      * apply avatar_keepsContacts.
      * intros fa. now left.
      * intros fa Hk. rewrite <- (readList_stored w l Hread Hk).
        now apply (R_insert dataId _ _ existing).
    + apply write_shape; [apply keepsContacts_refl|].
      intros Hk. rewrite <- (readList_stored w l Hread Hk).
      now apply (R_insert dataId _ _ existing).
  - apply (step_shape _ _
             (fun fa => l ++ [newContact dataId dataName dataKey (orElse fa None)])).
    + apply avatar_keepsContacts.
    + intros fa. now left.
    + intros fa Hk. rewrite <- (readList_stored w l Hread Hk).
      apply (R_app dataId); [now apply findIndex_none | reflexivity].
Qed.

Lemma addLocally_shape (now : Z) (nc : NewContact) (w : World) :
  listStep R w (snd (addContactLocally now nc w)).
Proof.
  unfold addContactLocally. rewrite read_then.
  destruct (readList w) as [l|] eqn:Hread; [|now left].
  destruct (find (hasId (new_id nc)) l) as [existing|] eqn:Hfind.
  - destruct (bool_decide (Contact.key existing = new_key nc)); cbn [negb];
      [now left|].
    apply write_shape; [apply keepsContacts_refl|].
    intros Hk. rewrite <- (readList_stored w l Hread Hk).
    apply R_map; intros c; now destruct (hasId (new_id nc) c).
  - apply (step_shape _ _
             (fun fa => l ++ [newContact (new_id nc)
                                (orElse (new_name nc)
                                   (Some (js "Contact " ++ take 4 (new_id nc))))
                                (new_key nc) (orElse fa None)])).
    + pose proof keepsContacts_refl; pose proof keepsContacts_trans.
      frame_using contacts_saveAvatarLocally ltac:(fail).
    + intros fa. now left.
    + intros fa Hk. rewrite <- (readList_stored w l Hread Hk).
      now apply (R_app (new_id nc)).
Qed.

Lemma deleteFromList_shape (id : jsstring) (w : World) :
  listStep R w (snd (deleteContactFromList id w)).
Proof.
  unfold deleteContactFromList. rewrite read_then.
  destruct (readList w) as [l|] eqn:Hread; [|now left].
  apply write_shape; [apply keepsContacts_refl|].
  intros Hk. rewrite <- (readList_stored w l Hread Hk). apply R_filter.
Qed.

Lemma updateContactInfo_shape (now : Z) (id pseudo : jsstring)
    (avatar : option jsstring) (w : World) :
  listStep R w (snd (updateContactInfo now id pseudo avatar w)).
Proof.
  unfold updateContactInfo. rewrite tryCatch_world. cbn [snd].
  unfold bind at 1, getContacts.
  destruct (encKeyAvailable w) eqn:Hk; [|now left].
  destruct (contactsRecord w) as [[l0|]|] eqn:Hl0; try now left.
  unfold bind at 1. cbn [parse ret]. cbv zeta.
  assert (Hst : contactsOf w = l0) by (unfold contactsOf; now rewrite Hl0).
  apply (step_shape _ _
           (fun fa => map (fun c =>
              if hasId id c
                 && negb (bool_decide (Contact.name c = Some pseudo)
                          && bool_decide (Contact.avatar c = fa))
              then withProfile c (Some pseudo) fa else c) l0)).
  - pose proof keepsContacts_refl; pose proof keepsContacts_trans.
    frame_using contacts_saveAvatarLocally ltac:(fail).
  - intros fa. destruct (existsb _ l0); [now left | now right].
  - intros fa _. rewrite Hst. apply R_map; intros c; now destruct (_ && _).
Qed.

Lemma deleteLocally_shape (id : jsstring) (w : World) :
  listStep R w (snd (deleteContactLocally id w)).
Proof.
  unfold deleteContactLocally. rewrite tryCatch_world. cbn [snd].
  unfold bind at 1, getContacts.
  destruct (encKeyAvailable w) eqn:Hk; [|now left].
  destruct (contactsRecord w) as [[l0|]|] eqn:Hl0; try now left.
  unfold bind, setContacts. cbn [parse ret]. rewrite Hk.
  cbn. right. exists (filter (fun c => hasId id c = false) l0).
  split; [|reflexivity]. unfold contactsOf. rewrite Hl0. apply R_filter.
Qed.

(** Every operation but the approval. *)
Lemma perform_shape (op : TrustOp) (w : World) :
  (forall i, op <> Approve i) ->
  listStep R w (snd (perform op w)).
Proof.
  intros Hop. destruct op; cbn [perform].
  - apply handshake_shape.
  - apply addLocally_shape.
  - now destruct (Hop contactId).
  - apply editContacts_shape. intros l.
    apply R_map; intros c; now destruct (hasId contactId c).
  - apply editContacts_shape. intros l.
    apply R_map; intros c; now destruct (hasId contactId c).
  - apply editContacts_shape. intros l.
    apply R_map; intros c; now destruct (hasId contactId c).
  - apply editContacts_shape. intros l.
    apply R_map; intros c; now destruct (hasId id c).
  - apply editContacts_shape. intros l. apply R_filter.
  - apply deleteFromList_shape.
  - apply updateContactInfo_shape.
  - apply deleteLocally_shape.
Qed.

End Shape.

Lemma keyStable_warned (i : jsstring) (k : option jsstring) (l : list Contact.t) :
  keyStable l (map (fun c => if hasId i c then withKeyWarning c k else c) l).
Proof. apply keyStable_map; intros c; now destruct (hasId i c). Qed.

(** No operation but the approval writes a list in which a key has changed. *)
Lemma perform_keysKept (op : TrustOp) (w : World) :
  (forall i, op <> Approve i) ->
  listStep keyStable w (snd (perform op w)).
Proof.
  apply perform_shape.
  - exact keyStable_map.
  - exact keyStable_filter.
  - exact keyStable_insert.
  - intros i l c _ _. apply keyStable_app.
Qed.

(** A handshake for an identifier that is not on the list. *)
Lemma handshake_new (now : Z) (data : json) (w : World) :
  encKeyAvailable w = true ->
  validateHandshakeData data = true ->
  contactsRecord w <> Some Unparseable ->
  storedContact w (handshakeId data) = None ->
  exists finalAvatar w1,
    keepsContacts w w1 /\
    addContactFromHandshake now data w
    = (Returned tt,
       withContacts
         (contactsOf w ++
          [newContact (handshakeId data) (optString (prop data (js "name")))
             (optString (prop data (js "key"))) finalAvatar]) w1).
Proof.
  intros Hk Hvalid Hok Hnone.
  unfold addContactFromHandshake. rewrite tryCatch_world.
  rewrite Hvalid. cbn [negb]. cbv zeta. rewrite read_then.
  rewrite (readList_available w Hk Hok).
  fold (handshakeId data).
  rewrite storedContact_contactsOf in Hnone.
  rewrite (find_none_findIndex _ _ Hnone).
  destruct (avatar_returns now (handshakeId data)
              (optString (prop data (js "avatar"))) w)
    as (finalAvatar & w1 & Hrun & Hkeep).
  exists (orElse finalAvatar None), w1. split; [exact Hkeep|].
  unfold bind. rewrite Hrun.
  rewrite setContacts_available by (destruct Hkeep as [_ ->]; exact Hk).
  reflexivity.
Qed.

(** C1 (as the code has it).  With the encryption key available: a valid
    handshake, or a contact to add, that carries the identifier of a stored
    contact and another key writes the list with that contact's key as it
    was, [securityWarning] set and the new key in [pendingNewKey]; the
    approval writes it with [pendingNewKey] in [key], [securityWarning] and
    [pendingNewKey] cleared and [isVerified] reset; whenever the list is
    read back as it was written, that is the contact stored.  No operation
    other than the approval of a contact writes a list in which the key of
    that contact, still on the list, has changed.  A valid handshake whose
    identifier is not on the list - also one that was on it and has been
    removed - appends the contact with the key it carries, with no warning
    and no pending key. *)
Theorem C1_key_rotation_staged :
  (forall (now : Z) (data : json) (w : World) (c : Contact.t) (K2 : jsstring),
     encKeyAvailable w = true ->
     validateHandshakeData data = true ->
     optString (prop data (js "key")) = Some K2 ->
     storedContact w (handshakeId data) = Some c ->
     Contact.key c <> Some K2 ->
     exists l0 idx,
       contactsRecord w = Some (Parsed l0) /\
       findIndex (handshakeId data) l0 = Some idx /\
       l0 !! idx = Some c /\
       let c' := withKeyWarning c (Some K2) in
       let l' := <[idx := c']> l0 in
       addContactFromHandshake now data w = (Returned tt, withContacts l' w) /\
       find (hasId (handshakeId data)) l' = Some c' /\
       Contact.key c' = Contact.key c /\
       Contact.securityWarning c' = true /\
       Contact.pendingNewKey c' = Some K2 /\
       (keptContacts l' ->
        storedContact (withContacts l' w) (handshakeId data) = Some c')) /\
  (forall (now : Z) (nc : NewContact) (w : World) (c : Contact.t),
     encKeyAvailable w = true ->
     storedContact w (new_id nc) = Some c ->
     Contact.key c <> new_key nc ->
     exists l0,
       contactsRecord w = Some (Parsed l0) /\
       let c' := withKeyWarning c (new_key nc) in
       let l' := map (fun x => if hasId (new_id nc) x
                               then withKeyWarning x (new_key nc) else x) l0 in
       addContactLocally now nc w = (Returned tt, withContacts l' w) /\
       find (hasId (new_id nc)) l' = Some c' /\
       Contact.key c' = Contact.key c /\
       Contact.securityWarning c' = true /\
       Contact.pendingNewKey c' = new_key nc /\
       (keptContacts l' ->
        storedContact (withContacts l' w) (new_id nc) = Some c')) /\
  (forall (contactId : jsstring) (w : World) (c : Contact.t),
     encKeyAvailable w = true ->
     storedContact w contactId = Some c ->
     exists l0,
       contactsRecord w = Some (Parsed l0) /\
       let c' := approved c in
       let l' := map (fun x => if hasId contactId x then approved x else x) l0 in
       approveNewKey contactId w = (Returned tt, withContacts l' w) /\
       find (hasId contactId) l' = Some c' /\
       Contact.key c' = Contact.pendingNewKey c /\
       Contact.securityWarning c' = false /\
       Contact.pendingNewKey c' = None /\
       Contact.isVerified c' = false /\
       (keptContacts l' ->
        storedContact (withContacts l' w) contactId = Some c')) /\
  (forall (op : TrustOp) (w : World) (i : jsstring) (c : Contact.t),
     storedContact w i = Some c ->
     contactsRecord (snd (perform op w)) = contactsRecord w \/
     exists l',
       contactsRecord (snd (perform op w)) = Some (writtenContacts l') /\
       (forall c', find (hasId i) l' = Some c' ->
                   Contact.key c' <> Contact.key c -> op = Approve i) /\
       (keptContacts l' ->
        forall c', storedContact (snd (perform op w)) i = Some c' ->
                   Contact.key c' <> Contact.key c -> op = Approve i)) /\
  (forall (now : Z) (data : json) (w : World) (K2 : jsstring),
     encKeyAvailable w = true ->
     validateHandshakeData data = true ->
     optString (prop data (js "key")) = Some K2 ->
     contactsRecord w <> Some Unparseable ->
     storedContact w (handshakeId data) = None ->
     exists finalAvatar w',
       let c' := newContact (handshakeId data) (optString (prop data (js "name")))
                   (Some K2) finalAvatar in
       let l' := contactsOf w ++ [c'] in
       addContactFromHandshake now data w = (Returned tt, w') /\
       contactsRecord w' = Some (writtenContacts l') /\
       find (hasId (handshakeId data)) l' = Some c' /\
       Contact.key c' = Some K2 /\
       Contact.securityWarning c' = false /\
       Contact.pendingNewKey c' = None /\
       (keptContacts l' -> storedContact w' (handshakeId data) = Some c')).
Proof.
  split; [|split; [|split; [|split]]].
  - intros now data w c K2 Hk Hvalid HK2 Hstored Hdiff.
    destruct (storedContact_parsed _ _ _ Hstored) as (l0 & Hl0 & Hfind).
    destruct (find_findIndex _ _ _ Hfind) as (idx & Hidx & Hat).
    pose proof (find_hasId _ _ _ Hfind) as Hid.
    assert (Hfound : find (hasId (handshakeId data))
                       (<[idx := withKeyWarning c (Some K2)]> l0)
                     = Some (withKeyWarning c (Some K2))).
    { rewrite (find_insert_found (handshakeId data) (handshakeId data) l0 idx)
        by assumption.
      now rewrite decide_True. }
    exists l0, idx. split; [exact Hl0|]. split; [exact Hidx|]. split; [exact Hat|].
    cbv zeta. split; [|split; [exact Hfound|]].
    + unfold addContactFromHandshake. rewrite tryCatch_world. f_equal.
      rewrite Hvalid. cbn [negb]. cbv zeta. rewrite read_then.
      unfold readList. rewrite Hk, Hl0.
      fold (handshakeId data). rewrite Hidx, Hat, HK2.
      rewrite bool_decide_eq_false_2 by exact Hdiff. cbn [negb].
      now rewrite setContacts_available.
    + repeat split. intros Hkept. now rewrite storedContact_written.
  - intros now nc w c Hk Hstored Hdiff.
    destruct (storedContact_parsed _ _ _ Hstored) as (l0 & Hl0 & Hfind).
    pose proof (find_hasId _ _ _ Hfind) as Hid.
    exists l0. split; [exact Hl0|]. cbv zeta.
    set (l' := map (fun x => if hasId (new_id nc) x
                             then withKeyWarning x (new_key nc) else x) l0).
    assert (Hfound : find (hasId (new_id nc)) l' = Some (withKeyWarning c (new_key nc))).
    { unfold l'.
      rewrite find_map_same_id by (intros x; now destruct (hasId (new_id nc) x)).
      rewrite Hfind. cbn [option_map].
      apply hasId_true in Hid. now rewrite Hid. }
    split; [|split; [exact Hfound|]].
    + unfold addContactLocally. rewrite read_then.
      unfold readList. rewrite Hk, Hl0, Hfind.
      rewrite bool_decide_eq_false_2 by exact Hdiff. cbn [negb].
      now rewrite setContacts_available.
    + repeat split. intros Hkept. now rewrite storedContact_written.
  - intros contactId w c Hk Hstored.
    destruct (storedContact_parsed _ _ _ Hstored) as (l0 & Hl0 & Hfind).
    pose proof (find_hasId _ _ _ Hfind) as Hid.
    exists l0. split; [exact Hl0|]. cbv zeta.
    set (l' := map (fun x => if hasId contactId x then approved x else x) l0).
    assert (Hfound : find (hasId contactId) l' = Some (approved c)).
    { unfold l'.
      rewrite find_map_same_id by (intros x; now destruct (hasId contactId x)).
      rewrite Hfind. cbn [option_map].
      apply hasId_true in Hid. now rewrite Hid. }
    split; [|split; [exact Hfound|]].
    + unfold approveNewKey. rewrite editContacts_run. now rewrite Hk, Hl0.
    + repeat split. intros Hkept. now rewrite storedContact_written.
  - intros op w i c Hc.
    destruct (storedContact_parsed _ _ _ Hc) as (l0 & Hl0 & Hfind).
    assert (Hof : contactsOf w = l0) by (unfold contactsOf; now rewrite Hl0).
    assert (Hkept : forall l',
              contactsRecord (snd (perform op w)) = Some (writtenContacts l') ->
              keptContacts l' ->
              storedContact (snd (perform op w)) i = find (hasId i) l').
    { intros l' Hrec Hk. unfold storedContact. rewrite Hrec.
      unfold keptContacts in Hk. now rewrite Hk. }
    destruct op as [| |j| | | | | | | |];
      try (match goal with
           | |- context [perform ?op w] =>
               destruct (perform_keysKept op w ltac:(intros k; discriminate))
                 as [Hsame | (l' & Hstable & Hrec)]
           end;
           [now left |
            right; exists l'; split; [exact Hrec|]; rewrite Hof in Hstable; split;
            [ intros c' Hc' Hdiff; destruct Hdiff; exact (Hstable i c c' Hfind Hc')
            | intros Hk c' Hc' Hdiff; rewrite (Hkept l' Hrec Hk) in Hc';
              destruct Hdiff; exact (Hstable i c c' Hfind Hc') ]]).
    cbn [perform]. unfold approveNewKey. rewrite editContacts_run. cbn [snd].
    rewrite Hl0. destruct (encKeyAvailable w); [|now left].
    right. exists (map (fun x => if hasId j x then approved x else x) l0).
    split; [reflexivity|].
    assert (Hmap : forall c',
              find (hasId i) (map (fun x => if hasId j x then approved x else x) l0)
              = Some c' ->
              Contact.key c' <> Contact.key c -> Approve j = Approve i).
    { intros c' Hc' Hdiff.
      rewrite find_map_same_id in Hc' by (intros x; now destruct (hasId j x)).
      rewrite Hfind in Hc'. cbn [option_map] in Hc'. injection Hc' as <-.
      destruct (hasId j c) eqn:Hj; [|congruence].
      apply hasId_true in Hj. apply find_hasId in Hfind. congruence. }
    split; [exact Hmap|].
    intros Hk c' Hc'. apply Hmap.
    rewrite <- Hc'. symmetry. now apply storedContact_written.
  - intros now data w K2 Hk Hvalid HK2 Hok Hnone.
    destruct (handshake_new now data w Hk Hvalid Hok Hnone)
      as (finalAvatar & w1 & Hkeep & Hrun).
    rewrite HK2 in Hrun.
    exists finalAvatar. eexists. cbv zeta.
    split; [exact Hrun|]. split; [reflexivity|].
    assert (Hfound : find (hasId (handshakeId data))
               (contactsOf w ++
                [newContact (handshakeId data) (optString (prop data (js "name")))
                   (Some K2) finalAvatar])
             = Some (newContact (handshakeId data) (optString (prop data (js "name")))
                       (Some K2) finalAvatar)).
    { apply find_app_new; [|reflexivity].
      now rewrite <- storedContact_contactsOf. }
    split; [exact Hfound|].
    repeat split. intros Hkept. now rewrite storedContact_written.
Qed.

End TrustStore.

(** *** An executable platform and a scenario

    A box is the first two bytes of the sender's public key followed by the
    text; base-64 is the identity on strings of bytes; the text of a signal
    parses when it is a list of [name=value] fields separated by commas, all
    values being strings; the stored records are written and read as JSON. *)

(** **** A model of JSON

    [printJSON] writes a value as [JSON.stringify] does: no white space; in
    a string the quote, the backslash and the control characters are escaped
    and every other code unit is written as it is.  [readJSON] reads such
    texts as [JSON.parse] does (numbers are integers); a later member of an
    object replaces an earlier one of the same name. *)

Definition printString (s : jsstring) : jsstring :=
  34%N :: flat_map (fun c => if (c =? 34)%N then [92; 34]%N
                             else if (c =? 92)%N then [92; 92]%N
                             else if (c <? 32)%N
                                  then [92; 117; 48; 48; hexChar (c / 16);
                                        hexChar (c mod 16)]%N
                                  else [c]) s
  ++ [34%N].

Fixpoint commaSeparated (parts : list jsstring) : jsstring :=
  match parts with
  | [] => []
  | [p] => p
  | p :: rest => p ++ js "," ++ commaSeparated rest
  end.

Fixpoint printJSON (v : json) : jsstring :=
  match v with
  | JNull => js "null"
  | JBool b => if b then js "true" else js "false"
  | JNumber z => numberToString (Some z)
  | JString s => printString s
  | JArray items => js "[" ++ commaSeparated (map printJSON items) ++ js "]"
  | JObject fields =>
      js "{"
      ++ commaSeparated
           ((fix members (fs : list (jsstring * json)) : list jsstring :=
               match fs with
               | [] => []
               | (k, x) :: rest =>
                   (printString k ++ js ":" ++ printJSON x) :: members rest
               end) fields)
      ++ js "}"
  end.

Fixpoint skipSpace (s : jsstring) : jsstring :=
  match s with
  | c :: rest =>
      if ((c =? 32) || (c =? 9) || (c =? 10) || (c =? 13))%N
      then skipSpace rest else s
  | [] => []
  end.

Definition unescape (e : N) : option N :=
  if (e =? 34)%N then Some 34%N
  else if (e =? 92)%N then Some 92%N
  else if (e =? 47)%N then Some 47%N
  else if (e =? 98)%N then Some 8%N
  else if (e =? 102)%N then Some 12%N
  else if (e =? 110)%N then Some 10%N
  else if (e =? 114)%N then Some 13%N
  else if (e =? 116)%N then Some 9%N
  else None.

(** A string literal after its opening quote: the string and the rest of
    the text.  A control character that is not escaped is an error. *)
Fixpoint readString (s acc : jsstring) : option (jsstring * jsstring) :=
  match s with
  | [] => None
  | c :: rest =>
      if (c =? 34)%N then Some (rev acc, rest)
      else if (c =? 92)%N then
        match rest with
        | e :: rest1 =>
            if (e =? 117)%N then
              match rest1 with
              | h1 :: h2 :: h3 :: h4 :: rest2 =>
                  match hexDigit h1, hexDigit h2, hexDigit h3, hexDigit h4 with
                  | Some d1, Some d2, Some d3, Some d4 =>
                      readString rest2
                        (Z.to_N (((d1 * 16 + d2) * 16 + d3) * 16 + d4) :: acc)
                  | _, _, _, _ => None
                  end
              | _ => None
              end
            else
              match unescape e with
              | Some x => readString rest1 (x :: acc)
              | None => None
              end
        | [] => None
        end
      else if (c <? 32)%N then None
      else readString rest (c :: acc)
  end.

Fixpoint readDigits (s : jsstring) (acc : Z) (seen : bool) : option (Z * jsstring) :=
  match s with
  | c :: rest =>
      if ((48 <=? c) && (c <=? 57))%N
      then readDigits rest (10 * acc + (Z.of_N c - 48)) true
      else if seen then Some (acc, s) else None
  | [] => if seen then Some (acc, []) else None
  end.

Fixpoint setMember (k : jsstring) (v : json) (fields : list (jsstring * json))
  : list (jsstring * json) :=
  match fields with
  | [] => [(k, v)]
  | (k', v') :: rest =>
      if jsstring_eqb k' k then (k', v) :: rest
      else (k', v') :: setMember k v rest
  end.

Fixpoint readValue (fuel : nat) (s : jsstring) {struct fuel}
  : option (json * jsstring) :=
  match fuel with
  | O => None
  | S fuel' =>
      match skipSpace s with
      | [] => None
      | c :: rest =>
          if (c =? 34)%N then
            match readString rest [] with
            | Some (str, r) => Some (JString str, r)
            | None => None
            end
          else if (c =? 91)%N then
            match skipSpace rest with
            | d :: r => if (d =? 93)%N then Some (JArray [], r)
                        else readItems fuel' rest []
            | [] => None
            end
          else if (c =? 123)%N then
            match skipSpace rest with
            | d :: r => if (d =? 125)%N then Some (JObject [], r)
                        else readMembers fuel' rest []
            | [] => None
            end
          else if startsWith (js "true") (c :: rest)
          then Some (JBool true, drop 3 rest)
          else if startsWith (js "false") (c :: rest)
          then Some (JBool false, drop 4 rest)
          else if startsWith (js "null") (c :: rest)
          then Some (JNull, drop 3 rest)
          else if (c =? 45)%N then
            match readDigits rest 0 false with
            | Some (z, r) => Some (JNumber (- z), r)
            | None => None
            end
          else
            match readDigits (c :: rest) 0 false with
            | Some (z, r) => Some (JNumber z, r)
            | None => None
            end
      end
  end
with readItems (fuel : nat) (s : jsstring) (acc : list json) {struct fuel}
  : option (json * jsstring) :=
  match fuel with
  | O => None
  | S fuel' =>
      match readValue fuel' s with
      | Some (v, r) =>
          match skipSpace r with
          | c :: r' =>
              if (c =? 44)%N then readItems fuel' r' (acc ++ [v])
              else if (c =? 93)%N then Some (JArray (acc ++ [v]), r')
              else None
          | [] => None
          end
      | None => None
      end
  end
with readMembers (fuel : nat) (s : jsstring) (acc : list (jsstring * json))
    {struct fuel} : option (json * jsstring) :=
  match fuel with
  | O => None
  | S fuel' =>
      match skipSpace s with
      | q :: r =>
          if (q =? 34)%N then
            match readString r [] with
            | Some (k, r1) =>
                match skipSpace r1 with
                | c :: r2 =>
                    if (c =? 58)%N then
                      match readValue fuel' r2 with
                      | Some (v, r3) =>
                          match skipSpace r3 with
                          | d :: r4 =>
                              if (d =? 44)%N
                              then readMembers fuel' r4 (setMember k v acc)
                              else if (d =? 125)%N
                                   then Some (JObject (setMember k v acc), r4)
                                   else None
                          | [] => None
                          end
                      | None => None
                      end
                    else None
                | [] => None
                end
            | None => None
            end
          else None
      | [] => None
      end
  end.

Definition readJSON (s : jsstring) : option json :=
  match readValue (S (length s)) s with
  | Some (v, r) => match skipSpace r with
                   | [] => Some v
                   | _ => None
                   end
  | None => None
  end.

(** A contact and a message as objects: a field that is absent is left out,
    a flag that is absent reads as [false]. *)
Definition optField (name : string) (v : option jsstring) : list (jsstring * json) :=
  match v with
  | Some s => [(js name, JString s)]
  | None => []
  end.

Definition contactJSON (c : Contact.t) : json :=
  JObject ([(js "id", JString (Contact.id c))]
           ++ optField "name" (Contact.name c)
           ++ optField "key" (Contact.key c)
           ++ optField "avatar" (Contact.avatar c)
           ++ optField "alias" (Contact.alias c)
           ++ [(js "isSelf", JBool (Contact.isSelf c));
               (js "isBlocked", JBool (Contact.isBlocked c));
               (js "isVerified", JBool (Contact.isVerified c));
               (js "securityWarning", JBool (Contact.securityWarning c))]
           ++ optField "pendingNewKey" (Contact.pendingNewKey c)).

Definition contactOfJSON (v : json) : Contact.t :=
  Contact.mk (default [] (optString (prop v (js "id"))))
             (optString (prop v (js "name")))
             (optString (prop v (js "key")))
             (optString (prop v (js "avatar")))
             (optString (prop v (js "alias")))
             (truthyProp (prop v (js "isSelf")))
             (truthyProp (prop v (js "isBlocked")))
             (truthyProp (prop v (js "isVerified")))
             (truthyProp (prop v (js "securityWarning")))
             (optString (prop v (js "pendingNewKey"))).

Definition messageJSON (m : Message.t) : json :=
  JObject ([(js "id", JString (Message.id m));
            (js "text", JString (Message.text m));
            (js "timestamp", JNumber (Message.timestamp m));
            (js "isMe", JBool (Message.isMe m))]
           ++ optField "status" (Message.status m)).

Definition messageOfJSON (v : json) : Message.t :=
  Message.mk (default [] (optString (prop v (js "id"))))
             (default [] (optString (prop v (js "text"))))
             (match prop v (js "timestamp") with
              | Some (JNumber z) => z
              | _ => 0%Z
              end)
             (truthyProp (prop v (js "isMe")))
             (optString (prop v (js "status"))).

Definition isJObject (v : json) : bool :=
  match v with
  | JObject _ => true
  | _ => false
  end.

(** A text read as a list of records: the text has to parse to an array of
    objects. *)
Definition readRecords {A : Type} (ofJSON : json -> A) (s : jsstring)
  : Stored (list A) :=
  match readJSON s with
  | Some (JArray items) =>
      if forallb isJObject items then Parsed (map ofJSON items) else Unparseable
  | _ => Unparseable
  end.

Definition modelFields (s : jsstring) : option (list (jsstring * json)) :=
  foldr (fun part acc =>
           match split (js "=") part, acc with
           | [k; v], Some fields => Some ((k, JString v) :: fields)
           | _, _ => None
           end)
        (Some []) (split (js ",") s).

Definition modelPlatform : Platform := {|
  decodeBase64 := fun s => if forallb (fun c => (c <? 256)%N) s then Some s else None;
  box_open := fun box nonce theirPublicKey mySecretKey =>
    if (2 <=? length box)%nat && (length theirPublicKey =? 32)%nat
       && bool_decide (take 2 box = take 2 theirPublicKey)
    then Some (drop 2 box) else None;
  JSON_parse := fun s => option_map JObject (modelFields s);
  documentDirectory := js "file:///doc/";
  fileWriteFails := fun _ _ => false;
  parseInt := fun s => option_map Z.of_int (NilZero.int_of_string (LockScreen.unjs s));
  toLowerCase := map (fun c => if ((65 <=? c) && (c <=? 90))%N then (c + 32)%N else c);
  stringifyContacts := fun l => printJSON (JArray (map contactJSON l));
  parseContacts := readRecords contactOfJSON;
  stringifyHistory := fun l => printJSON (JArray (map messageJSON l));
  parseHistory := readRecords messageOfJSON
|}.

Definition mySecretKey : bytes := repeat "s"%char 32.
Definition aliceKey : bytes := repeat "A"%char 32.
Definition bobKey : bytes := repeat "B"%char 32.
Definition carolKey : bytes := repeat "C"%char 32.
Definition exampleNonce : bytes := repeat "n"%char 24.

Definition alice : Contact.t :=
  Contact.mk (js "AAAAAAAAAAAA") (Some (js "Alice")) (Some (toHex aliceKey))
             None None false false true false None.

Definition bob : Contact.t :=
  Contact.mk (js "BBBBBBBBBBBB") (Some (js "Bob")) (Some (toHex bobKey))
             None None false true false false None.

(** The envelope a known sender makes of a text, as the relay delivers it. *)
Definition sealed (senderKey : bytes) (text : jsstring) : jsstring :=
  uint8ArrayToString (exampleNonce ++ take 2 senderKey ++ stringToUint8Array text).

(** The envelope of an anonymous handshake. *)
Definition sealedAnonymous (senderKey : bytes) (text : jsstring) : jsstring :=
  uint8ArrayToString
    (senderKey ++ exampleNonce ++ take 2 senderKey ++ stringToUint8Array text).

Definition now0 : Z := 1700000000000.

Definition entropy0 : Entropy :=
  mkEntropy now0 (now0 + 1) (now0 + 2) (repeat "r"%char 8) (repeat "q"%char 16).

Definition old : Message.t :=
  Message.mk (js "m1") (js "old") (now0 - 61000) false None.
Definition recent : Message.t :=
  Message.mk (js "m2") (js "recent") (now0 - 59000) true (Some (js "sent")).

Definition exampleWorld : World := {|
  encKeyAvailable := true;
  contactsRecord := Some (Parsed [alice; bob]);
  histories := {[ Contact.id alice := Parsed [recent; old] ;
                  Contact.id bob := Parsed [] ]};
  lastRead := ∅;
  timers := {[ Contact.id alice := js "60" ; Contact.id bob := js "60" ]};
  files := [];
  acks := []
|}.

Definition fromAlice : InboundItem := mkItem (Some 1%Z) (sealed aliceKey (js "hi")).
Definition fromBob : InboundItem := mkItem (Some 2%Z) (sealed bobKey (js "hello")).
Definition badMedia : InboundItem :=
  mkItem (Some 3%Z) (sealed aliceKey (js "GHOST_MEDIA:AUDIO:AAAA:x")).
Definition stray : InboundItem := mkItem (Some 7%Z) (sealed carolKey (js "who")).

Definition exampleBatch : list (Entropy * InboundItem) :=
  [(entropy0, fromAlice); (entropy0, fromBob); (entropy0, badMedia); (entropy0, stray)].

Definition carolHandshake (claimedKey : bytes) : jsstring :=
  js "GHOST_SIGNAL:ACCEPT:id=CCCCCCCCCCCC,key=" ++ toHex claimedKey ++ js ",name=Carol".

(** A handshake that names Bob's identifier with Carol's key. *)
Definition rotatedBob : json :=
  JObject [(js "id", JString (js "BBBBBBBBBBBB"));
           (js "key", JString (toHex carolKey));
           (js "name", JString (js "Bob"))].

(** The claim of C5 as it is written: every delivery ID of the batch is in
    an acknowledgement that was sent. *)
Definition everyItemAcknowledged (messages : list (Entropy * InboundItem))
    (w' : World) : Prop :=
  forall e msg z,
    (e, msg) ∈ messages -> msg_id msg = Some z -> z <> 0%Z ->
    exists ids, ids ∈ acks w' /\ z ∈ ids.

Section Scenario.
Existing Instance modelPlatform.

(** An anonymous handshake is accepted when it restates the key that opens
    it, and dropped when it names another. *)
Example anonymous_accepted :
  openAnonymous
    (stringToUint8Array (sealedAnonymous carolKey (carolHandshake carolKey)))
    mySecretKey
  = Some (carolHandshake carolKey).
Proof. vm_compute. reflexivity. Qed.

Example anonymous_rejected :
  openAnonymous
    (stringToUint8Array (sealedAnonymous carolKey (carolHandshake aliceKey)))
    mySecretKey
  = None.
Proof. vm_compute. reflexivity. Qed.

Example anonymous_adds_contact :
  storedContact
    (snd (processMessage [alice; bob] mySecretKey entropy0
            (mkItem (Some 9%Z) (sealedAnonymous carolKey (carolHandshake carolKey)))
            [] exampleWorld))
    (js "CCCCCCCCCCCC")
  = Some (newContact (js "CCCCCCCCCCCC") (Some (js "Carol"))
            (Some (toHex carolKey)) None).
Proof. vm_compute. reflexivity. Qed.

(** The contact list and the histories of the example are read back as they
    are written: their texts hold no code unit above 255. *)
Example example_kept :
  keptContacts [alice; bob] /\ keptHistory [recent; old] /\ keptHistory [recent].
Proof. vm_compute. repeat split. Qed.

(** A handshake with Bob's identifier and Carol's key stages the key. *)
Lemma C1_witness :
  exists l0 idx,
    contactsRecord exampleWorld = Some (Parsed l0) /\
    findIndex (handshakeId rotatedBob) l0 = Some idx /\
    l0 !! idx = Some bob /\
    let c' := withKeyWarning bob (Some (toHex carolKey)) in
    let l' := <[idx := c']> l0 in
    addContactFromHandshake now0 rotatedBob exampleWorld
    = (Returned tt, withContacts l' exampleWorld) /\
    find (hasId (handshakeId rotatedBob)) l' = Some c' /\
    Contact.key c' = Contact.key bob /\
    Contact.securityWarning c' = true /\
    Contact.pendingNewKey c' = Some (toHex carolKey) /\
    (keptContacts l' ->
     storedContact (withContacts l' exampleWorld) (handshakeId rotatedBob) = Some c').
Proof.
  refine (proj1 C1_key_rotation_staged now0 rotatedBob exampleWorld bob
            (toHex carolKey) _ _ _ _ _).
  - reflexivity.
  - vm_compute. reflexivity.
  - reflexivity.
  - vm_compute. reflexivity.
  - vm_compute. discriminate.
Defined.

(** The list with the staged key is read back as it was written, so that
    the staged contact is the contact stored. *)
Example staged_stored :
  storedContact (snd (addContactFromHandshake now0 rotatedBob exampleWorld))
    (Contact.id bob)
  = Some (withKeyWarning bob (Some (toHex carolKey))).
Proof. vm_compute. reflexivity. Qed.

(** The approval then installs the staged key and withdraws the
    verification. *)
Example rotation_approved :
  exists w1 w2,
    addContactFromHandshake now0 rotatedBob exampleWorld = (Returned tt, w1) /\
    storedContact w1 (js "BBBBBBBBBBBB")
    = Some (withKeyWarning bob (Some (toHex carolKey))) /\
    approveNewKey (js "BBBBBBBBBBBB") w1 = (Returned tt, w2) /\
    option_map Contact.key (storedContact w2 (js "BBBBBBBBBBBB"))
    = Some (Some (toHex carolKey)).
Proof. eexists. eexists. vm_compute. repeat split. Qed.

(** The claim of C1 as written fails on the example world: Bob deletes me,
    as his delete signal does, and a handshake then names Bob's identifier
    with Carol's key.  The key stored for Bob's identifier is now Carol's,
    with no warning, and nothing was approved. *)
Lemma C1_counterexample :
  ~ keyChangesOnlyByApproval
      [DeleteLocally (Contact.id bob); Handshake now0 rotatedBob] exampleWorld.
Proof.
  intros H.
  specialize (H (Contact.id bob) bob
                (newContact (js "BBBBBBBBBBBB") (Some (js "Bob"))
                   (Some (toHex carolKey)) None)).
  assert (Hin : Approve (Contact.id bob)
                ∈ [DeleteLocally (Contact.id bob); Handshake now0 rotatedBob]).
  { apply H.
    - vm_compute. reflexivity.
    - vm_compute. reflexivity.
    - vm_compute. discriminate. }
  apply elem_of_cons in Hin as [Hin|Hin]; [discriminate|].
  apply list_elem_of_singleton in Hin. discriminate.
Qed.

Example readded_without_warning :
  storedContact
    (performAll [DeleteLocally (Contact.id bob); Handshake now0 rotatedBob] exampleWorld)
    (Contact.id bob)
  = Some (newContact (js "BBBBBBBBBBBB") (Some (js "Bob")) (Some (toHex carolKey)) None).
Proof. vm_compute. reflexivity. Qed.

(** What the low-byte mask of [secureSet] does to a list that is written
    with a code unit above 255.  The handshake restates Bob's own key, so
    nothing is staged and its avatar is stored; the avatar holds U+0122,
    which is written as it is and read back as a quote. *)
Definition forgedAvatar : jsstring :=
  js "x" ++ [290%N] ++ js "," ++ [290%N] ++ js "key" ++ [290%N] ++ js ":"
  ++ [290%N] ++ toHex carolKey.

Definition sameKeyBob : json :=
  JObject [(js "id", JString (js "BBBBBBBBBBBB"));
           (js "key", JString (toHex bobKey));
           (js "name", JString (js "Bob"));
           (js "avatar", JString forgedAvatar)].

Example masked_write_changes_key :
  validateHandshakeData sameKeyBob = true /\
  optString (prop sameKeyBob (js "key")) = Contact.key bob /\
  option_map (fun c => (Contact.key c, Contact.avatar c, Contact.securityWarning c))
    (storedContact (snd (perform (Handshake now0 sameKeyBob) exampleWorld))
       (Contact.id bob))
  = Some (Some (toHex carolKey), Some (js "x"), false).
Proof. vm_compute. repeat split. Qed.

Lemma exampleBatch_run :
  exists w1,
    processAll [alice; bob] mySecretKey exampleBatch [] exampleWorld
    = (Returned [1; 2; 3]%Z, w1) /\
    histories w1 !! Contact.id bob = Some (Parsed []) /\
    option_map (fun s => match s with Parsed l => length l | Unparseable => 0%nat end)
      (histories w1 !! Contact.id alice) = Some 3%nat.
Proof. eexists. vm_compute. repeat split. Qed.

(** The poll of the example batch: the blocked sender's item and the invalid
    media are acknowledged with the stored message; the item no key opens is
    not. *)
Lemma C5_witness :
  [1; 2; 3]%Z = acknowledged [alice; bob] mySecretKey exampleBatch /\
  acks (snd (processAll [alice; bob] mySecretKey exampleBatch [] exampleWorld))
  = acks exampleWorld /\
  checkGlobalMessages (Some mySecretKey) (Ok exampleBatch) exampleWorld
  = (Returned tt,
     withAck [1; 2; 3]%Z
       (snd (processAll [alice; bob] mySecretKey exampleBatch [] exampleWorld))).
Proof.
  refine (proj1 (C5_acknowledges_decrypted mySecretKey exampleBatch exampleWorld
                   [alice; bob] _ eq_refl)
            [1; 2; 3]%Z _ _).
  - discriminate.
  - vm_compute. reflexivity.
Defined.

(** The claim of C5 as written fails on the example batch: the delivery ID 7
    of the item that no key opens is in no acknowledgement. *)
Lemma C5_counterexample :
  ~ everyItemAcknowledged exampleBatch
      (snd (checkGlobalMessages (Some mySecretKey) (Ok exampleBatch) exampleWorld)).
Proof.
  intros H.
  destruct (H entropy0 stray 7%Z) as (ids & Hids & Hin).
  - unfold exampleBatch. do 3 right. left.
  - reflexivity.
  - discriminate.
  - assert (Hacks :
      acks (snd (checkGlobalMessages (Some mySecretKey) (Ok exampleBatch) exampleWorld))
      = [[1; 2; 3]%Z]) by (vm_compute; reflexivity).
    rewrite Hacks in Hids. apply list_elem_of_singleton in Hids. subst ids.
    repeat (apply elem_of_cons in Hin as [Hin|Hin]; [discriminate|]).
    inversion Hin.
Qed.

(** A history read from a legacy record in plain text may hold a code unit
    above 255; here a message of mine whose text is U+0122.  The first
    message of Alice is put in front of it and the history is written; what
    is read back does not parse, so the second message of the same poll ends
    the loop and nothing is acknowledged. *)
Definition legacyWorld : World := {|
  encKeyAvailable := true;
  contactsRecord := Some (Parsed [alice; bob]);
  histories := {[ Contact.id alice :=
                    Parsed [Message.mk (js "m0") [290%N] (now0 - 1000) true
                              (Some (js "sent"))] ]};
  lastRead := ∅;
  timers := ∅;
  files := [];
  acks := []
|}.

Example poll_stopped_by_own_write :
  storable legacyWorld /\
  fst (processAll [alice; bob] mySecretKey
         [(entropy0, fromAlice); (entropy0, fromAlice)] [] legacyWorld) = Threw /\
  histories (snd (processAll [alice; bob] mySecretKey
                    [(entropy0, fromAlice); (entropy0, fromAlice)] [] legacyWorld))
    !! Contact.id alice = Some Unparseable /\
  acks (snd (checkGlobalMessages (Some mySecretKey)
               (Ok [(entropy0, fromAlice); (entropy0, fromAlice)]) legacyWorld)) = [].
Proof.
  split; [|vm_compute; repeat split].
  split; [reflexivity|]. intros id H. unfold legacyWorld in H. cbn [histories] in H.
  apply lookup_singleton_Some in H as [_ H]. discriminate.
Qed.


Example sweep_run :
  unexpired now0 (60 * 1000) [recent; old] = [recent] /\
  histories (snd (cleanExpiredEphemeralMessages now0 exampleWorld))
  = {[ Contact.id alice := Parsed [recent] ; Contact.id bob := Parsed [] ]}.
Proof. vm_compute. split; reflexivity. Qed.

(** Removed on the details screen, Alice is no longer on the list; her
    history and her timer stay, and the sweep does not come to her history:
    the message of 61 seconds ago stays stored. *)
Example unlisted_not_swept :
  let w := snd (deleteContact (Contact.id alice) exampleWorld) in
  storedContact w (Contact.id alice) = None /\
  ttl w (Contact.id alice) = Some 60%Z /\
  histories (snd (cleanExpiredEphemeralMessages now0 w)) !! Contact.id alice
  = Some (Parsed [recent; old]).
Proof. vm_compute. repeat split. Qed.


(** Bob is blocked: his message changes nothing and is recorded for
    acknowledgement. *)
Lemma C10_witness :
  exists r w',
    processMessage [alice; bob] mySecretKey entropy0 fromBob [] exampleWorld = (r, w') /\
    histories w' = histories exampleWorld /\
    mediaFiles (files w') = mediaFiles (files exampleWorld) /\
    (js "hello" <> [] -> r = Returned (pushId (msg_id fromBob) []) /\ w' = exampleWorld).
Proof.
  refine (C10_blocked_sender_dropped [alice; bob] mySecretKey entropy0 fromBob []
            exampleWorld (sealed bobKey (js "hello")) (js "hello") bob _ _ _ _).
  - vm_compute. reflexivity.
  - vm_compute. reflexivity.
  - reflexivity.
  - reflexivity.
Defined.

End Scenario.

(** *** The sender of an envelope *)

Section Delivery.
Context {P : Platform}.

(** The contact's key opens the box. *)
Definition opensUnder (contact : Contact.t) (ciphertext nonce secretKey : bytes)
  : option bytes :=
  if Contact.isSelf contact then None
  else match Contact.key contact with
       | None => None
       | Some k => match fromHex k with
                   | Threw => None
                   | Returned peerKey => box_open ciphertext nonce peerKey secretKey
                   end
       end.

Lemma trialDecrypt_cons (contact : Contact.t) (rest : list Contact.t)
    (ciphertext nonce secretKey : bytes) :
  trialDecrypt (contact :: rest) ciphertext nonce secretKey
  = match opensUnder contact ciphertext nonce secretKey with
    | Some result => Some (uint8ArrayToString result, contact)
    | None => trialDecrypt rest ciphertext nonce secretKey
    end.
Proof.
  unfold opensUnder. cbn [trialDecrypt].
  destruct (Contact.isSelf contact); [reflexivity|].
  destruct (Contact.key contact) as [k|]; [|reflexivity].
  destruct (fromHex k); [|reflexivity].
  now destruct (box_open _ _ _ _).
Qed.

Lemma trialDecrypt_none (contacts : list Contact.t) (ciphertext nonce secretKey : bytes) :
  trialDecrypt contacts ciphertext nonce secretKey = None <->
  Forall (fun c => opensUnder c ciphertext nonce secretKey = None) contacts.
Proof.
  induction contacts as [|c rest IH].
  - split; [constructor | reflexivity].
  - rewrite trialDecrypt_cons. split.
    + destruct (opensUnder c _ _ _) eqn:Hc; [discriminate|].
      intros H. constructor; [exact Hc | now apply IH].
    + intros H. inversion H as [|? ? Hc Hrest]; subst.
      rewrite Hc. now apply IH.
Qed.

(** X15.  The loop over the contacts names as sender the first contact of the
    list, other than oneself, whose key turns into bytes and opens the box;
    the text is what the box holds. *)
Theorem X15_trialDecrypt_first
    (contacts : list Contact.t) (ciphertext nonce secretKey : bytes)
    (text : jsstring) (sender : Contact.t) :
  trialDecrypt contacts ciphertext nonce secretKey = Some (text, sender) <->
  exists before after result,
    contacts = before ++ sender :: after /\
    Forall (fun c => opensUnder c ciphertext nonce secretKey = None) before /\
    opensUnder sender ciphertext nonce secretKey = Some result /\
    text = uint8ArrayToString result.
Proof.
  revert text sender. induction contacts as [|c rest IH]; intros text sender.
  - split; [discriminate|].
    intros (before & after & result & H & _). now destruct before.
  - rewrite trialDecrypt_cons. split.
    + destruct (opensUnder c _ _ _) as [result|] eqn:Hc.
      * intros [= <- <-]. exists [], rest, result. now repeat split.
      * intros H. apply IH in H as (before & after & result & -> & Hb & Hs & ->).
        exists (c :: before), after, result. repeat split; try assumption.
        now constructor.
    + intros (before & after & result & Heq & Hb & Hs & ->).
      destruct before as [|b before]; cbn [app] in Heq; injection Heq as -> ->.
      * now rewrite Hs.
      * inversion Hb as [|? ? Hc' Hb']; subst. rewrite Hc'.
        apply IH. now exists before, after, result.
Qed.

(** *** Blocking *)

Lemma withBlocked_twice (c : Contact.t) :
  withBlocked (withBlocked c (negb (Contact.isBlocked c)))
              (negb (Contact.isBlocked (withBlocked c (negb (Contact.isBlocked c))))) = c.
Proof. destruct c as [? ? ? ? ? ? b ? ? ?]. cbn. now rewrite negb_involutive. Qed.

(** What one toggle makes of the list. *)
Definition toggled (contactId : jsstring) (l : list Contact.t) : list Contact.t :=
  map (fun c => if hasId contactId c
                then withBlocked c (negb (Contact.isBlocked c)) else c) l.

Lemma toggled_twice (contactId : jsstring) (l : list Contact.t) :
  toggled contactId (toggled contactId l) = l.
Proof.
  unfold toggled. rewrite map_map.
  rewrite (map_ext _ (fun c => c)), map_id; [reflexivity|].
  intros c. destruct (hasId contactId c) eqn:Hc.
  - assert (Hc' : hasId contactId (withBlocked c (negb (Contact.isBlocked c))) = true)
      by exact Hc.
    rewrite Hc'. apply withBlocked_twice.
  - now rewrite Hc.
Qed.

Lemma withContacts_restores (w : World) (l l1 : list Contact.t) :
  contactsRecord w = Some (Parsed l) -> keptContacts l ->
  withContacts l (withContacts l1 w) = w.
Proof.
  intros Hl Hkept. destruct w. unfold withContacts. cbn in *.
  unfold keptContacts in Hkept. now rewrite Hkept, Hl.
Qed.

(** X16.  One toggle of the block of a contact writes the list with
    [isBlocked] of that contact negated and nothing else changed; when the
    two lists are read back as they are written, toggling twice restores the
    state. *)
Theorem X16_toggleBlock_twice
    (contactId : jsstring) (w : World) (l : list Contact.t) :
  encKeyAvailable w = true ->
  contactsRecord w = Some (Parsed l) ->
  toggleBlock contactId w = (Returned tt, withContacts (toggled contactId l) w) /\
  (forall c, find (hasId contactId) l = Some c ->
     find (hasId contactId) (toggled contactId l)
     = Some (withBlocked c (negb (Contact.isBlocked c)))) /\
  (forall j, j <> contactId ->
     find (hasId j) (toggled contactId l) = find (hasId j) l) /\
  (keptContacts (toggled contactId l) -> keptContacts l ->
   toggleBlock contactId (withContacts (toggled contactId l) w) = (Returned tt, w)).
Proof.
  intros Hk Hl.
  assert (Hids : forall x, Contact.id (if hasId contactId x
                                       then withBlocked x (negb (Contact.isBlocked x))
                                       else x) = Contact.id x)
    by (intros x; now destruct (hasId contactId x)).
  split; [|split; [|split]].
  - unfold toggleBlock. now rewrite editContacts_run, Hk, Hl.
  - intros c Hfind. unfold toggled. rewrite find_map_same_id by exact Hids.
    rewrite Hfind. cbn [option_map].
    apply find_some in Hfind as [_ ->]. reflexivity.
  - intros j Hj. unfold toggled. rewrite find_map_same_id by exact Hids.
    destruct (find (hasId j) l) as [c|] eqn:Hfind; [|reflexivity].
    cbn [option_map].
    apply find_some in Hfind as [_ Hc]. apply hasId_true in Hc.
    replace (hasId contactId c) with false; [reflexivity|].
    symmetry. apply hasId_false. congruence.
  - intros Hkept1 Hkept. unfold toggleBlock. rewrite editContacts_run.
    cbn [encKeyAvailable contactsRecord withContacts]. rewrite Hk.
    unfold keptContacts in Hkept1. rewrite Hkept1.
    fold (toggled contactId (toggled contactId l)). rewrite toggled_twice.
    f_equal. fold (withContacts (toggled contactId l) w).
    now apply withContacts_restores.
Qed.


(** X17.  Blocking a contact does not stop its control signals.  When the
    first contact whose key opens an envelope sent a signal, the item is
    recorded for acknowledgement and the signal is handled, whether that
    contact is blocked or not: the block is looked at only after the
    signals, and the handling of a signal does not depend on it.  (A text
    that is not a signal is dropped when the sender is blocked.) *)
Theorem X17_signal_ignores_block
    (contacts : list Contact.t) (secretKey : bytes) (e : Entropy)
    (msg : InboundItem) (processedIds : list Z)
    (decoded text : jsstring) (sender : Contact.t) :
  decodeBase64 (content msg) = Some decoded ->
  trialDecrypt contacts (drop nonceLength (stringToUint8Array decoded))
               (take nonceLength (stringToUint8Array decoded)) secretKey
    = Some (text, sender) ->
  startsWith (js "GHOST_SIGNAL:") text = true ->
  processMessage contacts secretKey e msg processedIds
  = (handleSignal e text (Some sender) ;;
     ret (pushId (msg_id msg) processedIds)) /\
  (forall blocked,
     handleSignal e text (Some (withBlocked sender blocked))
     = handleSignal e text (Some sender)) /\
  (forall blocked,
     dispatch e text (Some (withBlocked sender blocked)) = dispatch e text (Some sender)).
Proof.
  intros Hdec Htrial Hsig. split; [|split].
  - unfold processMessage. rewrite Hdec. unfold openEnvelope. rewrite Htrial.
    destruct text as [|c text]; [discriminate Hsig|].
    cbn [truthyText default]. unfold dispatch, id. now rewrite Hsig.
  - intros blocked. unfold handleSignal. cbv zeta.
    repeat match goal with
           | |- context [bool_decide ?p] => destruct (bool_decide p)
           end; reflexivity.
  - intros blocked. unfold dispatch. now rewrite Hsig.
Qed.

(** *** Read receipts *)

Definition markedRead (history : list Message.t) : list Message.t :=
  map (fun m => if Message.isMe m then withStatusRead m else m) history.



Lemma markedRead_idem (history : list Message.t) :
  markedRead (markedRead history) = markedRead history.
Proof.
  unfold markedRead. rewrite map_map. apply map_ext. intros m.
  destruct (Message.isMe m) eqn:Hm; [|now rewrite Hm].
  cbn [withStatusRead Message.isMe]. now rewrite Hm.
Qed.


(** The state after [secureSet(historyKey, JSON.stringify(l))]. *)
Definition withHistory (contactId : jsstring) (l : list Message.t) (w : World) : World :=
  mkWorld (encKeyAvailable w) (contactsRecord w)
          (<[contactId := writtenHistory l]> (histories w)) (lastRead w)
          (timers w) (files w) (acks w).

Lemma setHistory_available (contactId : jsstring) (l : list Message.t) (w : World) :
  encKeyAvailable w = true ->
  setHistory contactId l w = (Returned tt, withHistory contactId l w).
Proof. unfold setHistory, withHistory. now intros ->. Qed.

Lemma withHistory_here (contactId : jsstring) (l : list Message.t) (w : World) :
  histories (withHistory contactId l w) !! contactId = Some (writtenHistory l).
Proof. apply lookup_insert_eq. Qed.

Lemma withHistory_other (contactId j : jsstring) (l : list Message.t) (w : World) :
  j <> contactId -> histories (withHistory contactId l w) !! j = histories w !! j.
Proof. intros Hj. cbn [histories withHistory]. now apply lookup_insert_ne. Qed.



(** *** Storing a message *)

Definition isPlainText (text : jsstring) : Prop :=
  startsWith (js "GHOST_SIGNAL:") text = false /\
  startsWith (js "GHOST_MEDIA:") text = false.

(** X19.  A text that is neither a signal nor a media message, from a contact
    that is not blocked, is put at the head of that contact's history, as a
    message that is not mine, stamped with the clock, and the history is
    written; nothing else changes, and the record holds exactly that list
    when it is read back as it was written.  Without the encryption key the
    write throws and nothing is stored. *)
Theorem X19_message_stored
    (e : Entropy) (text : jsstring) (sender : Contact.t) (w : World) :
  isPlainText text ->
  Contact.isBlocked sender = false ->
  let newMsg := Message.mk (numberToString (Some (now2 e)) ++ js "_" ++ toHex (random2 e))
                           text (now3 e) false None in
  (forall history,
     encKeyAvailable w = true ->
     histories w !! Contact.id sender = Some (Parsed history)
     \/ (histories w !! Contact.id sender = None /\ history = []) ->
     dispatch e text (Some sender) w
     = (Returned tt, withHistory (Contact.id sender) (newMsg :: history) w) /\
     (forall j, j <> Contact.id sender ->
        histories (withHistory (Contact.id sender) (newMsg :: history) w) !! j
        = histories w !! j) /\
     (keptHistory (newMsg :: history) ->
      histories (withHistory (Contact.id sender) (newMsg :: history) w)
        !! Contact.id sender = Some (Parsed (newMsg :: history)))) /\
  (encKeyAvailable w = false -> dispatch e text (Some sender) w = (Threw, w)).
Proof.
  intros [Hsig Hmedia] Hb. cbv zeta. unfold dispatch. rewrite Hsig, Hb, Hmedia.
  unfold storeMessage, bind, getHistory. split.
  - intros history Hk Hh. rewrite Hk. split; [|split].
    + destruct Hh as [Hh | [Hh ->]]; rewrite Hh; cbn [parse ret];
        now apply setHistory_available.
    + intros j Hj. now apply withHistory_other.
    + intros Hkept. rewrite withHistory_here. unfold keptHistory in Hkept.
      now rewrite Hkept.
  - intros Hk. rewrite Hk. cbn [ret]. unfold setHistory. now rewrite Hk.
Qed.

(** *** Deleting a contact *)

(** The list without the records of an identifier. *)
Definition without (contactId : jsstring) (l : list Contact.t) : list Contact.t :=
  filter (fun c => hasId contactId c = false) l.

(** X20.  When a contact deletes me, [deleteContactLocally] writes the list
    without that contact - every other contact is in it as before - and
    removes the contact's history and last-read mark; every other
    conversation is as it was and the contact's ephemeral timer stays.  The
    removal from the details screen writes the same list and keeps the
    history.  When the list is read back as it was written, the contact is
    no longer stored and every other contact is stored as before. *)
Theorem X20_contact_deleted
    (contactId : jsstring) (w : World) (l : list Contact.t) :
  encKeyAvailable w = true ->
  contactsRecord w = Some (Parsed l) ->
  (find (hasId contactId) (without contactId l) = None /\
   forall j, j <> contactId ->
     find (hasId j) (without contactId l) = find (hasId j) l) /\
  (exists w',
     deleteContactLocally contactId w = (Returned tt, w') /\
     contactsRecord w' = Some (writtenContacts (without contactId l)) /\
     histories w' !! contactId = None /\
     lastRead w' !! contactId = None /\
     (forall j, j <> contactId ->
        histories w' !! j = histories w !! j /\
        lastRead w' !! j = lastRead w !! j) /\
     timers w' = timers w /\
     (keptContacts (without contactId l) ->
      storedContact w' contactId = None /\
      forall j, j <> contactId -> storedContact w' j = storedContact w j)) /\
  (exists w',
     deleteContact contactId w = (Returned tt, w') /\
     contactsRecord w' = Some (writtenContacts (without contactId l)) /\
     histories w' = histories w /\ lastRead w' = lastRead w /\ timers w' = timers w /\
     (keptContacts (without contactId l) ->
      storedContact w' contactId = None /\
      forall j, j <> contactId -> storedContact w' j = storedContact w j)).
Proof.
  intros Hk Hl.
  assert (Hgone : find (hasId contactId) (without contactId l) = None).
  { unfold without. rewrite find_filter_other. now rewrite decide_True. }
  assert (Hothers : forall j, j <> contactId ->
            find (hasId j) (without contactId l) = find (hasId j) l).
  { intros j Hj. unfold without. rewrite find_filter_other.
    now rewrite decide_False by congruence. }
  assert (Hstored : forall w',
            contactsRecord w' = Some (writtenContacts (without contactId l)) ->
            keptContacts (without contactId l) ->
            storedContact w' contactId = None /\
            forall j, j <> contactId -> storedContact w' j = storedContact w j).
  { intros w' Hrec Hkept. unfold keptContacts in Hkept. unfold storedContact.
    rewrite Hrec, Hkept, Hl. split; [exact Hgone | exact Hothers]. }
  split; [now split|]. split.
  - unfold deleteContactLocally. rewrite tryCatch_world.
    unfold bind, getContacts, setContacts, clearLastRead, clearHistory.
    rewrite Hk, Hl. cbn [parse ret]. rewrite Hk.
    cbn [encKeyAvailable contactsRecord histories lastRead timers files acks snd].
    eexists. split; [reflexivity|].
    cbn [encKeyAvailable contactsRecord histories lastRead timers files acks].
    split; [reflexivity|].
    split; [apply lookup_delete_eq|]. split; [apply lookup_delete_eq|].
    split; [|split; [reflexivity|]].
    + intros j Hj. rewrite !lookup_delete_ne by congruence. now split.
    + now apply Hstored.
  - unfold deleteContact. rewrite editContacts_run, Hk, Hl.
    eexists. split; [reflexivity|].
    cbn [contactsRecord withContacts histories lastRead timers].
    split; [reflexivity|]. repeat (split; [reflexivity|]).
    now apply Hstored.
Qed.

End Delivery.

Section SweepMore.
Context {P : Platform}.






















End SweepMore.

(** *** The timer of a conversation (contact details screen) *)

(** [handleEphemeralTimerChange(value)] for the contact [contactId]; [value]
    is in seconds, [None] is [null]. *)
Definition handleEphemeralTimerChange (contactId : jsstring) (value : option Z)
    (w : World) : World :=
  mkWorld (encKeyAvailable w) (contactsRecord w) (histories w) (lastRead w)
          (match value with
           | None => delete contactId (timers w)
           | Some v => <[contactId := numberToString (Some v)]> (timers w)
           end)
          (files w) (acks w).

Section Timer.
Context {P : Platform}.





End Timer.

(** *** Unread counts (utils/BadgeManager.ts, app/(tabs)/index.tsx) *)



Section Badges.
Context {P : Platform}.













End Badges.

(** *** The time left on a message (app/chat.tsx) *)

Definition EXPIRED : jsstring := js "expir" ++ [233%N].

(** [formatTimeRemaining(timestamp, timerSeconds)]; [now] is [Date.now()]. *)
Definition formatTimeRemaining (now timestamp timerSeconds : Z) : jsstring :=
  let expiresAt := (timestamp + timerSeconds * 1000)%Z in
  let remaining := Z.max 0 (expiresAt - now) in
  if (remaining <=? 0)%Z then EXPIRED
  else
    let secs := (remaining / 1000)%Z in
    if (secs <? 60)%Z then numberToString (Some secs) ++ js "s"
    else
      let mins := (secs / 60)%Z in
      if (mins <? 60)%Z then numberToString (Some mins) ++ js "min"
      else
        let hours := (mins / 60)%Z in
        if (hours <? 24)%Z then numberToString (Some hours) ++ js "h"
        else
          let days := (hours / 24)%Z in
          numberToString (Some days) ++ js "j".

Lemma last_snoc_ne (s t : jsstring) (c : N) :
  c <> 233%N -> s ++ t ++ [c] <> EXPIRED.
Proof.
  intros Hc H. apply (f_equal (fun l => last l)) in H.
  rewrite app_assoc, last_snoc in H. vm_compute in H. congruence.
Qed.

Section TimeLeft.
Context {P : Platform}.

(** X24.  The label under a message reads [expiré] exactly when the sweep of
    the conversation, run at the same time with the same timer, drops the
    message. *)
Theorem X24_expired_label (now timerSeconds : Z) (m : Message.t) :
  formatTimeRemaining now (Message.timestamp m) timerSeconds = EXPIRED <->
  unexpired now (timerSeconds * 1000) [m] = [].
Proof.
  unfold formatTimeRemaining, unexpired. cbv zeta.
  rewrite filter_cons, filter_nil.
  set (expiresAt := (Message.timestamp m + timerSeconds * 1000)%Z).
  destruct (Z.leb_spec (Z.max 0 (expiresAt - now)) 0) as [Hle|Hgt].
  - split; [|reflexivity]. intros _. rewrite decide_False; [reflexivity|].
    subst expiresAt. lia.
  - rewrite decide_True by (subst expiresAt; lia).
    split; [|discriminate]. intros H. exfalso. revert H.
    repeat match goal with |- context [if ?b then _ else _] => destruct b end.
    + apply (last_snoc_ne _ []). discriminate.
    + apply (last_snoc_ne _ (js "mi")). discriminate.
    + apply (last_snoc_ne _ []). discriminate.
    + apply (last_snoc_ne _ []). discriminate.
Qed.

End TimeLeft.

(** *** A media message on the chat screen (app/chat.tsx) *)

(** [l.join(sep)] *)
Fixpoint joinWith (sep : jsstring) (l : list jsstring) : jsstring :=
  match l with
  | [] => []
  | x :: rest =>
      match rest with
      | [] => x
      | _ :: _ => x ++ sep ++ joinWith sep rest
      end
  end.

Record MediaView : Type := mkMediaView {
  shownAsMedia : bool;
  mediaType : jsstring;
  mediaUri : option jsstring;
  caption : jsstring
}.

(** What [renderItem] works out of a message: [isMedia || isMediaRef],
    [mediaType], [mediaUri] and [caption].  [localUri] is [item.localUri],
    which the messages stored by the dispatcher do not have. *)
Definition mediaView (text : jsstring) (localUri : option jsstring) : MediaView :=
  let isMedia := startsWith (js "GHOST_MEDIA:") text in
  let isMediaRef := startsWith (js "GHOST_MEDIA_REF:") text in
  if isMedia && negb (truthyText localUri) then
    let parts := split (js ":") text in
    let mediaType := default [] (parts !! 1%nat) in
    let mediaUri :=
      js "data:" ++ (if jsstring_eqb mediaType (js "VIDEO")
                     then js "video/mp4" else js "image/jpeg")
        ++ js ";base64," ++ default (js "undefined") (parts !! 2%nat) in
    let caption := default [] (orElse (parts !! 3%nat) None) in
    mkMediaView (isMedia || isMediaRef) mediaType (Some mediaUri) caption
  else if isMediaRef then
    let parts := split (js ":") text in
    let mediaType := default [] (parts !! 1%nat) in
    let caption := default [] (parts !! (length parts - 1)%nat) in
    let mediaUri :=
      joinWith (js ":") (take (length parts - 1 - 2) (drop 2 parts)) in
    mkMediaView (isMedia || isMediaRef) mediaType (Some mediaUri) caption
  else mkMediaView (isMedia || isMediaRef) [] localUri [].

(** **** Splitting at a colon *)

Definition colon : N := 58.

Lemma js_colon : js ":" = [colon].
Proof. reflexivity. Qed.

Lemma splitFrom_colon (s : jsstring) :
  forall current,
    splitFrom [colon] 0 current s
    = match split [colon] s with
      | x :: xs => (rev current ++ x) :: xs
      | [] => []
      end.
Proof.
  unfold split. induction s as [|c rest IH]; intros current.
  - cbn. now rewrite app_nil_r.
  - cbn [splitFrom startsWith length Nat.sub].
    destruct (colon =? c)%N eqn:Hc; cbn [andb].
    + now rewrite app_nil_r.
    + rewrite (IH (c :: current)), (IH [c]).
      destruct (splitFrom [colon] 0 [] rest) as [|x xs]; [reflexivity|].
      cbn [rev app]. now rewrite <- app_assoc.
Qed.

Lemma split_colon_nil : split [colon] [] = [[]].
Proof. reflexivity. Qed.

Lemma split_colon_here (rest : jsstring) :
  split [colon] (colon :: rest) = [] :: split [colon] rest.
Proof. reflexivity. Qed.

Lemma split_colon_other (c : N) (rest : jsstring) :
  c <> colon ->
  split [colon] (c :: rest)
  = match split [colon] rest with
    | x :: xs => (c :: x) :: xs
    | [] => []
    end.
Proof.
  intros Hc. unfold split at 1. cbn [splitFrom startsWith length Nat.sub].
  replace (colon =? c)%N with false by (symmetry; apply N.eqb_neq; congruence).
  cbn [andb]. now rewrite splitFrom_colon.
Qed.

Lemma split_colon_nonempty (s : jsstring) : split [colon] s <> [].
Proof.
  induction s as [|c rest IH]; [discriminate|].
  destruct (N.eq_dec c colon) as [->|Hc]; [discriminate|].
  rewrite split_colon_other by exact Hc.
  now destruct (split [colon] rest).
Qed.

(** A text without a colon is one piece. *)
Lemma split_colon_free (s : jsstring) :
  colon ∉ s -> split [colon] s = [s].
Proof.
  induction s as [|c rest IH]; intros Hs; [reflexivity|].
  apply not_elem_of_cons in Hs as [Hc Hrest].
  rewrite split_colon_other by congruence. now rewrite IH.
Qed.

Lemma split_colon_app (a b : jsstring) :
  split [colon] (a ++ colon :: b) = split [colon] a ++ split [colon] b.
Proof.
  induction a as [|c a IH]; [reflexivity|]. cbn [app].
  destruct (N.eq_dec c colon) as [->|Hc].
  - now rewrite !split_colon_here, IH.
  - rewrite !split_colon_other, IH by exact Hc.
    pose proof (split_colon_nonempty a) as Hne.
    now destruct (split [colon] a).
Qed.

(** No piece holds a colon. *)
Lemma split_colon_pieces (s : jsstring) :
  Forall (fun piece => colon ∉ piece) (split [colon] s).
Proof.
  induction s as [|c rest IH].
  - repeat constructor. apply not_elem_of_nil.
  - destruct (N.eq_dec c colon) as [->|Hc].
    + rewrite split_colon_here. constructor; [apply not_elem_of_nil | exact IH].
    + rewrite split_colon_other by exact Hc.
      destruct (split [colon] rest) as [|x xs]; [constructor|].
      inversion IH as [|? ? Hx Hxs]; subst. constructor; [|exact Hxs].
      apply not_elem_of_cons. split; [congruence | exact Hx].
Qed.

Lemma joinWith_split (s : jsstring) : joinWith [colon] (split [colon] s) = s.
Proof.
  induction s as [|c rest IH]; [reflexivity|].
  pose proof (split_colon_nonempty rest) as Hne.
  destruct (N.eq_dec c colon) as [->|Hc].
  - rewrite split_colon_here.
    destruct (split [colon] rest) as [|x xs] eqn:E; [congruence|].
    rewrite <- IH. reflexivity.
  - rewrite split_colon_other by exact Hc.
    destruct (split [colon] rest) as [|x xs] eqn:E; [congruence|].
    rewrite <- IH. destruct xs; reflexivity.
Qed.

Definition MEDIA_REF : jsstring := js "GHOST_MEDIA_REF".

(** The pieces of a media reference. *)
Lemma split_media_ref (type uri caption : jsstring) :
  colon ∉ type -> colon ∉ caption ->
  split (js ":") (js "GHOST_MEDIA_REF:" ++ type ++ js ":" ++ uri ++ js ":" ++ caption)
  = MEDIA_REF :: type :: split [colon] uri ++ [caption].
Proof.
  intros Ht Hc. rewrite js_colon.
  change (js "GHOST_MEDIA_REF:" ++ type ++ [colon] ++ uri ++ [colon] ++ caption)
    with (MEDIA_REF ++ colon :: (type ++ colon :: (uri ++ colon :: caption))).
  rewrite !split_colon_app.
  rewrite (split_colon_free MEDIA_REF), (split_colon_free type),
    (split_colon_free caption); try assumption; [reflexivity|].
  unfold MEDIA_REF, colon. vm_compute. intros H.
  repeat (apply elem_of_cons in H as [H|H]; [discriminate|]). inversion H.
Qed.

Lemma mediaView_ref (type uri caption : jsstring) (localUri : option jsstring) :
  colon ∉ type -> colon ∉ caption ->
  mediaView (js "GHOST_MEDIA_REF:" ++ type ++ js ":" ++ uri ++ js ":" ++ caption) localUri
  = mkMediaView true type (Some uri) caption.
Proof.
  intros Ht Hc. unfold mediaView.
  set (text := js "GHOST_MEDIA_REF:" ++ type ++ js ":" ++ uri ++ js ":" ++ caption).
  assert (H1 : startsWith (js "GHOST_MEDIA:") text = false) by reflexivity.
  assert (H2 : startsWith (js "GHOST_MEDIA_REF:") text = true) by reflexivity.
  rewrite H1, H2. cbn [andb orb]. cbv zeta.
  unfold text. rewrite (split_media_ref type uri caption Ht Hc).
  set (pieces := split [colon] uri).
  cbn [lookup list_lookup default length drop].
  rewrite length_app. cbn [length].
  replace (S (S (length pieces + 1)) - 1)%nat with (S (S (length pieces))) by lia.
  replace (S (S (length pieces)) - 2)%nat with (length pieces) by lia.
  unfold id. change (drop 0 (pieces ++ [caption])) with (pieces ++ [caption]).
  rewrite take_app_length.
  change (MEDIA_REF :: type :: pieces ++ [caption])
    with ([MEDIA_REF; type] ++ pieces ++ [caption]).
  rewrite lookup_app_r by (cbn [length]; lia). cbn [length].
  replace (S (S (length pieces)) - 2)%nat with (length pieces + 0)%nat by lia.
  rewrite lookup_app_r by lia.
  replace (length pieces + 0 - length pieces)%nat with 0%nat by lia.
  cbn [lookup list_lookup default]. unfold id.
  rewrite js_colon. unfold pieces. now rewrite joinWith_split.
Qed.

Section MediaReference.
Context {P : Platform}.

(** X28.  The reference the dispatcher stores for a received media is read back
    by the chat screen: the screen shows it as a media of the same type, at
    the file the dispatcher wrote, with the caption the dispatcher kept -
    at most 500 code units of the piece after the third colon.  In general
    a reference is read back as it was made when neither the type nor the
    caption holds a colon; the address of the file may hold colons. *)
Theorem X28_media_reference :
  (forall (e : Entropy) (decrypted ref : jsstring) (w w' : World),
     saveMedia e decrypted w = (Returned (Some ref), w') ->
     exists type fileUri b64 kept,
       (type = js "IMAGE" \/ type = js "VIDEO") /\
       files w' = (fileUri, b64) :: files w /\
       split (js ":") decrypted !! 2%nat = Some b64 /\
       kept = take 500 (default [] (orElse (split (js ":") decrypted !! 3%nat) None)) /\
       ref = js "GHOST_MEDIA_REF:" ++ type ++ js ":" ++ fileUri ++ js ":" ++ kept /\
       mediaView ref None = mkMediaView true type (Some fileUri) kept) /\
  (forall (type uri caption : jsstring) (localUri : option jsstring),
     colon ∉ type -> colon ∉ caption ->
     mediaView (js "GHOST_MEDIA_REF:" ++ type ++ js ":" ++ uri ++ js ":" ++ caption)
               localUri
     = mkMediaView true type (Some uri) caption).
Proof.
  split; [|exact mediaView_ref].
  intros e decrypted ref w w'. unfold saveMedia, tryCatch. cbv zeta.
  set (parts := split (js ":") decrypted).
  set (type := default [] (parts !! 1%nat)).
  set (kept := take 500 (default [] (orElse (parts !! 3%nat) None))).
  assert (Hkept : colon ∉ kept).
  { unfold kept. intros Hin. apply elem_of_take in Hin as (i & Hi & _).
    apply list_elem_of_lookup_2 in Hi. revert Hi.
    pose proof (split_colon_pieces decrypted) as Hall. rewrite <- js_colon in Hall.
    fold parts in Hall.
    destruct (parts !! 3%nat) as [[|c piece]|] eqn:E; cbn [orElse default];
      try apply not_elem_of_nil.
    rewrite Forall_lookup in Hall. exact (Hall _ _ E). }
  destruct (jsstring_eqb type (js "IMAGE")) eqn:Himg;
    destruct (jsstring_eqb type (js "VIDEO")) eqn:Hvid; cbn [negb andb];
    try (unfold ret; discriminate).
  all: destruct (parts !! 2%nat) as [[|c b64]|] eqn:Hb64; try (unfold ret; discriminate).
  all: destruct (mediaTooLarge (c :: b64)); try (unfold ret; discriminate).
  all: unfold bind, writeFile; destruct (fileWriteFails _ _); try (unfold ret; discriminate).
  all: unfold ret; intros [= <- <-]; cbn [files].
  all: eexists type, _, (c :: b64), kept.
  all: assert (Htype : type = js "IMAGE" \/ type = js "VIDEO")
         by (unfold jsstring_eqb in *;
             first [apply bool_decide_eq_true in Himg; now left
                   |apply bool_decide_eq_true in Hvid; now right]).
  all: split; [exact Htype|].
  all: split; [reflexivity|]. 
  all: split; [reflexivity|].
  all: split; [reflexivity|].
  all: split; [reflexivity|].
  all: apply mediaView_ref; [|exact Hkept].
  all: destruct Htype as [-> | ->]; vm_compute; intros H;
         repeat (apply elem_of_cons in H as [H|H]; [discriminate|]); inversion H.
Qed.

End MediaReference.

(** A caption of my own that holds a colon is cut on the screen, and the
    rest goes to the address. *)
Example caption_with_colon :
  mediaView (js "GHOST_MEDIA_REF:IMAGE:file:///a.jpg:see: this") (Some (js "file:///a.jpg"))
  = mkMediaView true (js "IMAGE") (Some (js "file:///a.jpg:see")) (js " this").
Proof. vm_compute. reflexivity. Qed.

(** *** Identifiers stay unique *)

Lemma ids_map (f : Contact.t -> Contact.t) (l : list Contact.t) :
  (forall c, Contact.id (f c) = Contact.id c) -> idsOf (map f l) = idsOf l.
Proof.
  intros Hf. unfold idsOf. rewrite map_map. apply map_ext. exact Hf.
Qed.

Lemma ids_filter_sublist (i : jsstring) (l : list Contact.t) :
  sublist (idsOf (filter (fun c => hasId i c = false) l)) (idsOf l).
Proof.
  induction l as [|c l IH]; [constructor|].
  rewrite filter_cons. destruct (decide _); cbn [idsOf map].
  - now apply sublist_skip.
  - now apply sublist_cons.
Qed.

Lemma ids_insert (l : list Contact.t) (idx : nat) (c0 c1 : Contact.t) :
  l !! idx = Some c0 -> Contact.id c1 = Contact.id c0 ->
  idsOf (<[idx := c1]> l) = idsOf l.
Proof.
  revert idx. induction l as [|x l IH]; intros [|idx] Hl Hid; try discriminate.
  - injection Hl as ->. cbn. now rewrite Hid.
  - cbn. f_equal. now apply IH.
Qed.

Lemma find_none_ids (i : jsstring) (l : list Contact.t) :
  find (hasId i) l = None -> i ∉ idsOf l.
Proof.
  induction l as [|c l IH]; [intros _; apply not_elem_of_nil|].
  cbn [find]. destruct (hasId i c) eqn:Hc; [discriminate|].
  intros H. apply not_elem_of_cons. split; [|now apply IH].
  apply hasId_false in Hc. congruence.
Qed.

Lemma find_unique (i : jsstring) (l : list Contact.t) (c : Contact.t) :
  NoDup (idsOf l) -> c ∈ l -> Contact.id c = i -> find (hasId i) l = Some c.
Proof.
  induction l as [|x l IH]; intros Hnd Hin Hid; [inversion Hin|].
  cbn [idsOf map] in Hnd. apply NoDup_cons in Hnd as [Hx Hnd].
  cbn [find]. apply elem_of_cons in Hin as [->|Hin].
  - assert (H : hasId i x = true) by now apply hasId_true.
    now rewrite H.
  - assert (H : hasId i x = false).
    { apply hasId_false. intros Heq. apply Hx. rewrite Heq, <- Hid.
      now apply (list_elem_of_fmap_2 Contact.id). }
    rewrite H. now apply IH.
Qed.

(** The identifiers of the second list are distinct when those of the first
    are. *)
Definition distinctKept (l l' : list Contact.t) : Prop :=
  NoDup (idsOf l) -> NoDup (idsOf l').

(** A list of distinct identifiers was written, and the list read back has
    an identifier twice. *)
Definition duplicatedByWrite {P : Platform} (w' : World) : Prop :=
  exists l',
    NoDup (idsOf l') /\ contactsRecord w' = Some (writtenContacts l') /\
    ~ NoDup (idsOf (contactsOf w')).

Section Unique.
Context {P : Platform}.

Lemma perform_unique (op : TrustOp) (w : World) :
  listStep distinctKept w (snd (perform op w)).
Proof.
  assert (Hmap : forall (f : Contact.t -> Contact.t) l,
            (forall c, Contact.id (f c) = Contact.id c) -> distinctKept l (map f l)).
  { intros f l Hf H. now rewrite ids_map. }
  assert (Hshape : (forall i, op <> Approve i) ->
                   listStep distinctKept w (snd (perform op w))).
  { intros Hop. apply perform_shape.
    - intros f l Hf _. now apply Hmap.
    - intros i l H. eapply sublist_NoDup; [exact H | apply ids_filter_sublist].
    - intros i l idx c0 c1 _ Hl Hid _ H. now rewrite (ids_insert l idx c0 c1).
    - intros i l c Hfind Hid H. unfold idsOf. rewrite map_app. cbn [map].
      apply NoDup_app. split; [exact H|]. split; [|apply NoDup_singleton].
      intros x Hx Hx'. apply list_elem_of_singleton in Hx'. subst x.
      rewrite Hid in Hx. now apply (find_none_ids i l Hfind).
    - exact Hop. }
  destruct op as [| |i| | | | | | | |]; try (apply Hshape; intros k; discriminate).
  cbn [perform]. unfold approveNewKey. apply editContacts_shape.
  intros l. apply Hmap. intros c. now destruct (hasId i c).
Qed.

Lemma perform_distinct (op : TrustOp) (w : World) :
  NoDup (idsOf (contactsOf w)) ->
  NoDup (idsOf (contactsOf (snd (perform op w)))) \/
  duplicatedByWrite (snd (perform op w)).
Proof.
  intros Hnd.
  destruct (perform_unique op w) as [Hsame | (l' & Hl' & Hrec)].
  - left. unfold contactsOf in *. now rewrite Hsame.
  - destruct (decide (NoDup (idsOf (contactsOf (snd (perform op w))))))
      as [Hyes|Hno]; [now left|].
    right. exists l'. split; [now apply Hl'|]. now split.
Qed.

(** X29.  No operation on the contact list - a handshake, a contact added by
    hand, an approval, a change of the verification, alias or block, a
    profile update, a removal - writes a list with two contacts of the same
    identifier: when the identifiers on record are distinct before it, the
    operation leaves the record as it was or writes a list of distinct
    identifiers, which is the list on record afterwards when it is read back
    as written.  Along a sequence of operations the identifiers on record
    stay distinct unless, at some step, a list of distinct identifiers was
    written and the list read back has an identifier twice.  On a list of
    distinct identifiers the record found for an identifier is the only
    record that has it. *)
Theorem X29_unique_ids :
  (forall (op : TrustOp) (w : World),
     NoDup (idsOf (contactsOf w)) ->
     contactsRecord (snd (perform op w)) = contactsRecord w \/
     exists l',
       contactsRecord (snd (perform op w)) = Some (writtenContacts l') /\
       NoDup (idsOf l') /\
       (keptContacts l' -> contactsOf (snd (perform op w)) = l')) /\
  (forall (ops : list TrustOp) (w : World),
     NoDup (idsOf (contactsOf w)) ->
     NoDup (idsOf (contactsOf (performAll ops w))) \/
     exists before op after,
       ops = before ++ op :: after /\
       NoDup (idsOf (contactsOf (performAll before w))) /\
       duplicatedByWrite (snd (perform op (performAll before w)))) /\
  (forall (w : World) (c : Contact.t),
     NoDup (idsOf (contactsOf w)) ->
     (c ∈ contactsOf w <-> storedContact w (Contact.id c) = Some c)).
Proof.
  split; [|split].
  - intros op w Hnd.
    destruct (perform_unique op w) as [Hsame | (l' & Hl' & Hrec)]; [now left|].
    right. exists l'. split; [exact Hrec|]. split; [now apply Hl'|].
    intros Hkept. unfold contactsOf. rewrite Hrec.
    unfold keptContacts in Hkept. now rewrite Hkept.
  - intros ops. induction ops as [|op ops IH]; intros w Hnd; [now left|].
    cbn [performAll fold_left].
    destruct (perform_distinct op w Hnd) as [Hnext | Hdup].
    + destruct (IH _ Hnext) as [Hall | (before & op' & after & -> & Hb & Hdup)].
      * now left.
      * right. exists (op :: before), op', after. now repeat split.
    + right. exists [], op, ops. now repeat split.
  - intros w c Hnd. unfold storedContact, contactsOf in *.
    destruct (contactsRecord w) as [[l|]|].
    + split.
      * intros Hin. now apply find_unique.
      * intros Hfind. apply find_some in Hfind as [Hin _]. now apply list_elem_of_In.
    + split; [intros H; inversion H | discriminate].
    + split; [intros H; inversion H | discriminate].
Qed.

End Unique.

(** *** The sending side (app/chat.tsx, contact list and profile screens) *)

Class Sender : Type := {
  (** [nacl.box(message, nonce, theirPublicKey, mySecretKey)].  tweetnacl
      throws on a nonce or a key of the wrong size; the statements give it
      24 and 32 bytes. *)
  box : bytes -> bytes -> bytes -> bytes -> bytes;
  (** [nacl.box.keyPair.fromSecretKey(secretKey).publicKey] *)
  publicKeyOf : bytes -> bytes;
  (** [encode] of base-64 *)
  encodeBase64 : jsstring -> jsstring;
  JSON_stringify : json -> jsstring
}.

Section Sending.
Context {P : Platform} {S : Sender}.

(** What [send], [sendReadSignal], [sendScreenshotSignal], [sendDeleteSignal]
    and [broadcastProfileUpdate] post as [encryptedContent]: the nonce and
    the box of the text for the contact's key, in base-64.  The key is turned
    into bytes as in the receiving loop; without a match it throws. *)
Definition encryptedContent (nonce : bytes) (content contactKey : jsstring)
    (mySecretKey : bytes) : Result jsstring :=
  match fromHex contactKey with
  | Threw => Threw
  | Returned peerPublicKeyBytes =>
      let msgBytes := stringToUint8Array content in
      let encrypted := box msgBytes nonce peerPublicKeyBytes mySecretKey in
      let fullMessage := nonce ++ encrypted in
      Returned (encodeBase64 (uint8ArrayToString fullMessage))
  end.

(** [contentToSend] of [send()]: [message] is the typed text, [pendingMedia]
    the type and the base-64 data of the picked media. *)
Definition contentToSend (trimmed : jsstring) (pendingMedia : option (jsstring * jsstring))
  : jsstring :=
  match pendingMedia with
  | Some (type, b64) => js "GHOST_MEDIA:" ++ type ++ js ":" ++ b64 ++ js ":" ++ trimmed
  | None => trimmed
  end.

(** The profile of [sendHandshake]: [myProfile] and the stored profile. *)
Record MyProfile : Type := mkMyProfile {
  profile_id : jsstring;
  profile_key : jsstring;
  profile_name : option json;
  profile_avatar : option json
}.

Definition orJson (a b : option json) : option json :=
  if truthyProp a then a else b.

(** [handshakeData]; a property whose value is [undefined] is left out by
    [JSON.stringify]. *)
Definition handshakeData (myProfile : MyProfile) (profile : json) : json :=
  let name := orJson (prop profile (js "pseudo")) (profile_name myProfile) in
  let avatar := default JNull (orJson (orJson (prop profile (js "avatar"))
                                              (profile_avatar myProfile))
                                      (Some JNull)) in
  JObject ([(js "id", JString (profile_id myProfile))]
           ++ match name with
              | Some v => [(js "name", v)]
              | None => []
              end
           ++ [(js "key", JString (profile_key myProfile)); (js "avatar", avatar)]).

(** What [sendHandshake(target)] posts:
    [SENDER_PK || NONCE || box(signal)], in base-64. *)
Definition handshakeContent (nonce : bytes) (myProfile : MyProfile) (profile : json)
    (targetKey : jsstring) (mySecretKey : bytes) : Result jsstring :=
  match fromHex targetKey with
  | Threw => Threw
  | Returned targetPub =>
      let signal := ACCEPT_PREFIX ++ JSON_stringify (handshakeData myProfile profile) in
      let encrypted := box (stringToUint8Array signal) nonce targetPub mySecretKey in
      let myPubKey := publicKeyOf mySecretKey in
      let fullMessage := myPubKey ++ nonce ++ encrypted in
      Returned (encodeBase64 (uint8ArrayToString fullMessage))
  end.

End Sending.

(** What the statements ask of the libraries: a box made for a key pair
    opens under the maker's public key and the receiver's secret key, and
    base-64 decodes what it encoded. *)
Class SenderLaws (P : Platform) (S : Sender) : Prop := {
  box_open_box :
    forall message nonce mySecretKey theirSecretKey,
      length nonce = nonceLength ->
      box_open (box message nonce (publicKeyOf theirSecretKey) mySecretKey)
               nonce (publicKeyOf mySecretKey) theirSecretKey
      = Some message;
  box_length :
    forall message nonce theirPublicKey mySecretKey,
      length (box message nonce theirPublicKey mySecretKey) = (16 + length message)%nat;
  publicKeyOf_length : forall secretKey, length (publicKeyOf secretKey) = 32%nat;
  decodeBase64_encodeBase64 :
    forall b : bytes,
      decodeBase64 (encodeBase64 (uint8ArrayToString b)) = Some (uint8ArrayToString b)
}.

Section SendingTheorems.
Context {P : Platform} {S : Sender}.

Lemma fromHex_publicKey (L : SenderLaws P S) (secretKey : bytes) :
  fromHex (toHex (publicKeyOf secretKey)) = Returned (publicKeyOf secretKey).
Proof.
  pose proof (publicKeyOf_length secretKey) as Hlen.
  destruct (publicKeyOf secretKey) as [|a b]; [discriminate|].
  apply fromHex_toHex_cons.
Qed.

(** What is posted for a text is opened by the poll of the contact it was
    sealed for. *)
Lemma sealed_is_opened
    (L : SenderLaws P S)
    (nonce mySecretKey theirSecretKey : bytes) (sent posted : jsstring)
    (before after : list Contact.t) (me : Contact.t)
    (e : Entropy) (deliveryId : option Z) (processedIds : list Z) :
  length nonce = nonceLength ->
  encryptedContent nonce sent (toHex (publicKeyOf theirSecretKey)) mySecretKey
  = Returned posted ->
  Contact.key me = Some (toHex (publicKeyOf mySecretKey)) ->
  Contact.isSelf me = false ->
  Forall (fun c => opensUnder c (box (stringToUint8Array sent) nonce
                                     (publicKeyOf theirSecretKey) mySecretKey)
                              nonce theirSecretKey = None) before ->
  lowBytes sent <> [] ->
  exists decoded,
    decodeBase64 posted = Some decoded /\
    openEnvelope (before ++ me :: after) theirSecretKey (stringToUint8Array decoded)
    = (Some (lowBytes sent), Some me) /\
    processMessage (before ++ me :: after) theirSecretKey e
                   (mkItem deliveryId posted) processedIds
    = (dispatch e (lowBytes sent) (Some me) ;;
       ret (pushId deliveryId processedIds)).
Proof.
  intros Hn Hpost Hkey Hself Hbefore Hne.
  unfold encryptedContent in Hpost. rewrite fromHex_publicKey in Hpost by exact L.
  cbv zeta in Hpost. injection Hpost as <-.
  set (boxed := box (stringToUint8Array sent) nonce
                    (publicKeyOf theirSecretKey) mySecretKey) in *.
  exists (uint8ArrayToString (nonce ++ boxed)).
  split; [apply decodeBase64_encodeBase64|].
  assert (Hopen :
    openEnvelope (before ++ me :: after) theirSecretKey
      (stringToUint8Array (uint8ArrayToString (nonce ++ boxed)))
    = (Some (lowBytes sent), Some me)).
  { rewrite stringToUint8Array_uint8ArrayToString. unfold openEnvelope. cbv zeta.
    rewrite take_app_length' by (symmetry; exact Hn).
    rewrite drop_app_length' by (symmetry; exact Hn).
    assert (Htrial : trialDecrypt (before ++ me :: after) boxed nonce theirSecretKey
                     = Some (lowBytes sent, me)).
    { clear -L Hn Hkey Hself Hbefore. induction Hbefore as [|c before Hc _ IH].
      - cbn [app]. rewrite trialDecrypt_cons. unfold opensUnder.
        rewrite Hself, Hkey, fromHex_publicKey by exact L.
        subst boxed. rewrite box_open_box by exact Hn.
        now rewrite lowBytes_roundtrip.
      - cbn [app]. rewrite trialDecrypt_cons, Hc. exact IH. }
    rewrite Htrial.
    destruct (lowBytes sent) as [|c text] eqn:E; [congruence|]. reflexivity. }
  split; [exact Hopen|].
  unfold processMessage. cbn [content msg_id].
  rewrite decodeBase64_encodeBase64, Hopen.
  destruct (lowBytes sent) as [|c text] eqn:E; [congruence|]. reflexivity.
Qed.

Lemma contentToSend_nonempty (trimmed : jsstring)
    (pendingMedia : option (jsstring * jsstring)) :
  trimmed <> [] \/ pendingMedia <> None ->
  lowBytes (contentToSend trimmed pendingMedia) <> [].
Proof.
  intros Hguard. unfold contentToSend.
  destruct pendingMedia as [[type b64]|].
  - rewrite lowBytes_app, lowBytes_js. discriminate.
  - destruct Hguard as [Ht|Hm]; [|congruence].
    destruct trimmed; [congruence | discriminate].
Qed.

(** X25.  What [send] posts for a contact is opened by that contact's poll.
    [send] goes on only with a text or a media to send; when I am in the
    receiver's list under my public key, and no contact before me opens the
    box, the text the dispatcher handles is the content sent - the typed text,
    or the media message made of it - with every code unit reduced to its
    low byte, and I am its sender; the delivery is recorded for
    acknowledgement once it is handled. *)
Theorem X25_sent_is_received
    (L : SenderLaws P S)
    (nonce mySecretKey theirSecretKey : bytes) (trimmed posted : jsstring)
    (pendingMedia : option (jsstring * jsstring))
    (before after : list Contact.t) (me : Contact.t)
    (e : Entropy) (deliveryId : option Z) (processedIds : list Z) :
  let sent := contentToSend trimmed pendingMedia in
  length nonce = nonceLength ->
  trimmed <> [] \/ pendingMedia <> None ->
  encryptedContent nonce sent (toHex (publicKeyOf theirSecretKey)) mySecretKey
  = Returned posted ->
  Contact.key me = Some (toHex (publicKeyOf mySecretKey)) ->
  Contact.isSelf me = false ->
  Forall (fun c => opensUnder c (box (stringToUint8Array sent) nonce
                                     (publicKeyOf theirSecretKey) mySecretKey)
                              nonce theirSecretKey = None) before ->
  exists decoded,
    decodeBase64 posted = Some decoded /\
    openEnvelope (before ++ me :: after) theirSecretKey (stringToUint8Array decoded)
    = (Some (lowBytes sent), Some me) /\
    processMessage (before ++ me :: after) theirSecretKey e
                   (mkItem deliveryId posted) processedIds
    = (dispatch e (lowBytes sent) (Some me) ;;
       ret (pushId deliveryId processedIds)).
Proof.
  cbv zeta. intros Hn Hguard Hpost Hkey Hself Hbefore.
  apply (sealed_is_opened L nonce mySecretKey theirSecretKey
           (contentToSend trimmed pendingMedia) posted before after me e deliveryId
           processedIds Hn Hpost Hkey Hself Hbefore).
  now apply contentToSend_nonempty.
Qed.


Lemma handshakeData_key (myProfile : MyProfile) (profile : json) :
  getProp (handshakeData myProfile profile) (js "key")
  = Returned (Some (JString (profile_key myProfile))).
Proof.
  unfold handshakeData. cbv zeta.
  destruct (orJson (prop profile (js "pseudo")) (profile_name myProfile));
    reflexivity.
Qed.

(** X26.  The handshake that [sendHandshake] posts is accepted by the poll of
    its target: when no contact of the target opens it as a message, it opens
    as an anonymous handshake, the key it restates is the key that opened
    it, and the data it carries are handed to [addContactFromHandshake]. *)
Theorem X26_handshake_accepted
    (L : SenderLaws P S)
    (nonce mySecretKey theirSecretKey : bytes) (myProfile : MyProfile)
    (profile : json) (posted : jsstring) (contacts : list Contact.t)
    (e : Entropy) (deliveryId : option Z) (processedIds : list Z) :
  let data := handshakeData myProfile profile in
  let signal := ACCEPT_PREFIX ++ JSON_stringify data in
  let fullMessage :=
    publicKeyOf mySecretKey ++ nonce
    ++ box (stringToUint8Array signal) nonce (publicKeyOf theirSecretKey) mySecretKey in
  length nonce = nonceLength ->
  handshakeContent nonce myProfile profile (toHex (publicKeyOf theirSecretKey))
                   mySecretKey = Returned posted ->
  profile_key myProfile = toHex (publicKeyOf mySecretKey) ->
  JSON_parse (lowBytes (JSON_stringify data)) = Some data ->
  trialDecrypt contacts (drop nonceLength fullMessage) (take nonceLength fullMessage)
               theirSecretKey = None ->
  exists decoded,
    decodeBase64 posted = Some decoded /\
    openAnonymous (stringToUint8Array decoded) theirSecretKey
    = Some (ACCEPT_PREFIX ++ lowBytes (JSON_stringify data)) /\
    processMessage contacts theirSecretKey e (mkItem deliveryId posted) processedIds
    = (addContactFromHandshake (now1 e) data ;;
       ret (pushId deliveryId processedIds)).
Proof.
  cbv zeta. intros Hn Hpost Hkey Hjson Htrial.
  unfold handshakeContent in Hpost. rewrite fromHex_publicKey in Hpost by exact L.
  cbv zeta in Hpost.
  set (data := handshakeData myProfile profile) in *.
  set (signal := ACCEPT_PREFIX ++ JSON_stringify data) in *.
  set (boxed := box (stringToUint8Array signal) nonce
                    (publicKeyOf theirSecretKey) mySecretKey) in *.
  set (pk := publicKeyOf mySecretKey) in *.
  assert (Hposted : posted = encodeBase64 (uint8ArrayToString (pk ++ nonce ++ boxed)))
    by congruence.
  clear Hpost. subst posted.
  assert (Hpk : length pk = 32%nat) by apply publicKeyOf_length.
  assert (Htext : lowBytes signal = ACCEPT_PREFIX ++ lowBytes (JSON_stringify data)).
  { unfold signal, ACCEPT_PREFIX. now rewrite lowBytes_app, lowBytes_js. }
  exists (uint8ArrayToString (pk ++ nonce ++ boxed)).
  split; [apply decodeBase64_encodeBase64|].
  assert (Hanon :
    openAnonymous (pk ++ nonce ++ boxed) theirSecretKey
    = Some (ACCEPT_PREFIX ++ lowBytes (JSON_stringify data))).
  { unfold openAnonymous.
    replace (32 + 24 <? length (pk ++ nonce ++ boxed))%nat with true.
    2:{ symmetry. apply Nat.ltb_lt. rewrite !length_app, Hpk, Hn.
        unfold boxed. rewrite box_length. unfold nonceLength. lia. }
    rewrite take_app_length' by (symmetry; exact Hpk).
    replace (32 + 24)%nat with (length pk + length nonce)%nat
      by (rewrite Hpk, Hn; reflexivity).
    rewrite <- drop_drop, !drop_app_length.
    rewrite <- Hpk at 1. rewrite drop_app_length.
    rewrite take_app_length' by (symmetry; exact Hn).
    unfold boxed, pk. rewrite box_open_box by exact Hn.
    rewrite lowBytes_roundtrip, Htext, startsWith_app, drop_app_length, Hjson.
    pose proof (handshakeData_key myProfile profile) as Hprop. fold data in Hprop.
    unfold restatesKey. rewrite Hprop, Hkey.
    assert (Hne : toHex (publicKeyOf mySecretKey) <> []).
    { intros H0. pose proof (toHex_length (publicKeyOf mySecretKey)) as Hl.
      rewrite H0, publicKeyOf_length in Hl. discriminate. }
    cbn [truthyProp truthy]. unfold jsstring_eqb.
    rewrite bool_decide_eq_false_2 by exact Hne.
    now rewrite bool_decide_eq_true_2 by reflexivity. }
  rewrite stringToUint8Array_uint8ArrayToString.
  split; [exact Hanon|].
  clearbody boxed pk. clearbody signal. clearbody data.
  unfold processMessage. cbn [content msg_id].
  rewrite decodeBase64_encodeBase64, stringToUint8Array_uint8ArrayToString.
  assert (Hpre : startsWith ACCEPT_PREFIX (ACCEPT_PREFIX ++ lowBytes (JSON_stringify data))
                 = true) by apply startsWith_app.
  assert (Hdrop : drop (length ACCEPT_PREFIX)
                    (ACCEPT_PREFIX ++ lowBytes (JSON_stringify data))
                  = lowBytes (JSON_stringify data)) by apply drop_app_length.
  destruct (accept_is_signal _ Hpre) as [Hsig Htype].
  set (text := ACCEPT_PREFIX ++ lowBytes (JSON_stringify data)) in *.
  clearbody text.
  unfold openEnvelope. rewrite Htrial. cbn [truthyText]. rewrite Hanon.
  destruct text as [|c text]; [discriminate Hpre|].
  cbn [truthyText default]. unfold dispatch, id.
  rewrite Hsig. unfold handleSignal. rewrite Htype, Hpre.
  rewrite bool_decide_eq_true_2 by reflexivity.
  rewrite Hdrop, Hjson. reflexivity.
Qed.

End SendingTheorems.

(** *** The scenario, continued *)

Section MoreScenario.
Existing Instance modelPlatform.

Definition readSignal : jsstring := js "GHOST_SIGNAL:READ".

(** Bob is blocked; two toggles bring the example world back. *)
Lemma X16_witness :
  toggleBlock (Contact.id bob) exampleWorld
  = (Returned tt, withContacts (toggled (Contact.id bob) [alice; bob]) exampleWorld) /\
  find (hasId (Contact.id bob)) (toggled (Contact.id bob) [alice; bob])
  = Some (withBlocked bob false) /\
  toggleBlock (Contact.id bob)
    (withContacts (toggled (Contact.id bob) [alice; bob]) exampleWorld)
  = (Returned tt, exampleWorld).
Proof.
  destruct (X16_toggleBlock_twice (Contact.id bob) exampleWorld [alice; bob]
              eq_refl eq_refl) as (Hrun & Hfound & _ & Hback).
  split; [exact Hrun|]. split.
  - apply (Hfound bob). vm_compute. reflexivity.
  - apply Hback; vm_compute; reflexivity.
Defined.

(** Bob is blocked, and his read receipt is handled. *)
Definition bobReceipt : InboundItem := mkItem (Some 4%Z) (sealed bobKey readSignal).

Lemma X17_witness :
  processMessage [alice; bob] mySecretKey entropy0 bobReceipt []
  = (handleSignal entropy0 readSignal (Some bob) ;;
     ret (pushId (msg_id bobReceipt) [])) /\
  (forall blocked,
     handleSignal entropy0 readSignal (Some (withBlocked bob blocked))
     = handleSignal entropy0 readSignal (Some bob)) /\
  (forall blocked,
     dispatch entropy0 readSignal (Some (withBlocked bob blocked))
     = dispatch entropy0 readSignal (Some bob)).
Proof.
  refine (X17_signal_ignores_block [alice; bob] mySecretKey entropy0 bobReceipt []
            (sealed bobKey readSignal) readSignal bob _ _ _).
  - vm_compute. reflexivity.
  - vm_compute. reflexivity.
  - reflexivity.
Defined.


Lemma X19_witness :
  let newMsg := Message.mk (numberToString (Some (now2 entropy0)) ++ js "_"
                              ++ toHex (random2 entropy0))
                           (js "hi") (now3 entropy0) false None in
  dispatch entropy0 (js "hi") (Some alice) exampleWorld
  = (Returned tt, withHistory (Contact.id alice) (newMsg :: [recent; old]) exampleWorld) /\
  histories (withHistory (Contact.id alice) (newMsg :: [recent; old]) exampleWorld)
    !! Contact.id alice
  = Some (Parsed (newMsg :: [recent; old])).
Proof.
  cbv zeta.
  destruct (X19_message_stored entropy0 (js "hi") alice exampleWorld) as [Hstore _].
  - split; reflexivity.
  - reflexivity.
  - destruct (Hstore [recent; old] eq_refl) as (Hrun & _ & Hkept).
    + left. vm_compute. reflexivity.
    + split; [exact Hrun|]. apply Hkept. vm_compute. reflexivity.
Defined.

Lemma X20_witness :
  exists w',
    deleteContactLocally (Contact.id alice) exampleWorld = (Returned tt, w') /\
    contactsRecord w' = Some (Parsed [bob]) /\
    storedContact w' (Contact.id alice) = None /\
    storedContact w' (Contact.id bob) = Some bob /\
    histories w' !! Contact.id alice = None /\
    timers w' = timers exampleWorld.
Proof.
  destruct (X20_contact_deleted (Contact.id alice) exampleWorld [alice; bob]
              eq_refl eq_refl)
    as (_ & (w' & Hrun & Hrec & Hh & _ & _ & Ht & Hkept) & _).
  destruct Hkept as [Hgone Hothers]; [vm_compute; reflexivity|].
  exists w'. split; [exact Hrun|]. split; [rewrite Hrec; vm_compute; reflexivity|].
  split; [exact Hgone|]. split; [|now split].
  rewrite Hothers by (vm_compute; discriminate). vm_compute. reflexivity.
Defined.






End MoreScenario.


(** Alice's conversation holds messages of 59 and 61 seconds ago: a timer of
    30 seconds empties it, a timer of 0 and no timer leave it alone. *)
Example timer_run :
  let after value :=
    histories (snd (cleanExpiredEphemeralMessages (P := modelPlatform) now0
                      (handleEphemeralTimerChange (Contact.id alice) value exampleWorld)))
      !! Contact.id alice in
  after (Some 30%Z) = None /\
  after (Some 0%Z) = Some (Parsed [recent; old]) /\
  after None = Some (Parsed [recent; old]).
Proof. vm_compute. repeat split; reflexivity. Qed.


(** What the low-byte mask does to the identifiers: Alice's profile update
    carries a pseudo with U+0122, and the record read back for her has
    Bob's identifier, so that two records have it and the one found first
    holds Alice's key. *)
Definition forgedPseudo : jsstring :=
  js "x" ++ [290%N] ++ js "," ++ [290%N] ++ js "id" ++ [290%N] ++ js ":"
  ++ [290%N] ++ js "BBBBBBBBBBBB".

Example masked_write_duplicates_id :
  let w' := snd (perform (P := modelPlatform)
                   (ProfileUpdate now0 (Contact.id alice) forgedPseudo None)
                   exampleWorld) in
  idsOf (contactsOf w') = [js "BBBBBBBBBBBB"; js "BBBBBBBBBBBB"] /\
  option_map Contact.key (storedContact w' (Contact.id bob)) = Some (Contact.key alice) /\
  duplicatedByWrite (P := modelPlatform) w'.
Proof.
  cbv zeta. split; [vm_compute; reflexivity|]. split; [vm_compute; reflexivity|].
  exists [withProfile alice (Some forgedPseudo) None; bob].
  split; [apply (bool_decide_unpack _); vm_compute; reflexivity|].
  split; [vm_compute; reflexivity|].
  intros Hnd. apply (bool_decide_pack _) in Hnd. vm_compute in Hnd. exact Hnd.
Qed.

(** *** Two devices on an executable platform

    The public key of a secret key is its mirror, cut or padded to 32 bytes;
    a box is the first 16 bytes of the maker's public key followed by the
    text; an object is written as [name=value] fields separated by commas,
    which is what [modelFields] reads. *)

Definition modelPublicKey (secretKey : bytes) : bytes :=
  take 32 (rev secretKey ++ repeat zero 32).

Fixpoint modelFieldsText (fields : list (jsstring * json)) : jsstring :=
  match fields with
  | [] => []
  | (k, x) :: rest =>
      let field := k ++ js "=" ++ match x with
                                  | JString s => s
                                  | _ => js "null"
                                  end in
      match rest with
      | [] => field
      | _ :: _ => field ++ js "," ++ modelFieldsText rest
      end
  end.

Definition modelStringify (v : json) : jsstring :=
  match v with
  | JObject fields => modelFieldsText fields
  | _ => js "null"
  end.

Definition boxPlatform : Platform := {|
  decodeBase64 := fun s => if forallb (fun c => (c <? 256)%N) s then Some s else None;
  box_open := fun box nonce theirPublicKey mySecretKey =>
    if (16 <=? length box)%nat && (length theirPublicKey =? 32)%nat
       && bool_decide (take 16 box = take 16 theirPublicKey)
    then Some (drop 16 box) else None;
  JSON_parse := fun s => option_map JObject (modelFields s);
  documentDirectory := js "file:///doc/";
  fileWriteFails := fun _ _ => false;
  parseInt := fun s => option_map Z.of_int (NilZero.int_of_string (LockScreen.unjs s));
  toLowerCase := map (fun c => if ((65 <=? c) && (c <=? 90))%N then (c + 32)%N else c);
  stringifyContacts := fun l => printJSON (JArray (map contactJSON l));
  parseContacts := readRecords contactOfJSON;
  stringifyHistory := fun l => printJSON (JArray (map messageJSON l));
  parseHistory := readRecords messageOfJSON
|}.

Definition modelSender : Sender := {|
  box := fun message nonce theirPublicKey mySecretKey =>
    take 16 (modelPublicKey mySecretKey) ++ message;
  publicKeyOf := modelPublicKey;
  encodeBase64 := fun s => s;
  JSON_stringify := modelStringify
|}.

Lemma modelPublicKey_length (secretKey : bytes) : length (modelPublicKey secretKey) = 32%nat.
Proof.
  unfold modelPublicKey. rewrite length_take, length_app, repeat_length. lia.
Qed.

Lemma sender_model_laws : SenderLaws boxPlatform modelSender.
Proof.
  split.
  - intros message nonce mySecretKey theirSecretKey _.
    cbn [box box_open publicKeyOf boxPlatform modelSender].
    assert (H16 : length (take 16 (modelPublicKey mySecretKey)) = 16%nat)
      by (rewrite length_take, modelPublicKey_length; reflexivity).
    rewrite length_app, H16, modelPublicKey_length.
    replace (16 <=? 16 + length message)%nat with true
      by (symmetry; apply Nat.leb_le; lia).
    rewrite take_app_length' by (symmetry; exact H16).
    rewrite bool_decide_eq_true_2 by reflexivity. cbn [andb Nat.eqb].
    now rewrite drop_app_length' by (symmetry; exact H16).
  - intros message nonce theirPublicKey mySecretKey.
    cbn [box modelSender]. rewrite length_app, length_take, modelPublicKey_length.
    reflexivity.
  - exact modelPublicKey_length.
  - intros b. cbn [decodeBase64 encodeBase64 boxPlatform modelSender].
    now rewrite SecureStorage.forallb_uint8ArrayToString.
Qed.

Definition kimSecretKey : bytes := repeat "k"%char 32.

(** The kim as the receiver's contact list has it. *)
Definition kim : Contact.t :=
  Contact.mk (js "KKKKKKKKKKKK") (Some (js "Kim"))
             (Some (toHex (modelPublicKey kimSecretKey)))
             None None false false true false None.

Definition postedHi : jsstring :=
  uint8ArrayToString
    (exampleNonce ++ take 16 (modelPublicKey kimSecretKey)
       ++ stringToUint8Array (js "hi")).

Lemma X25_witness :
  exists decoded,
    decodeBase64 (Platform := boxPlatform) postedHi = Some decoded /\
    openEnvelope (P := boxPlatform) ([alice] ++ kim :: [bob]) mySecretKey
      (stringToUint8Array decoded)
    = (Some (lowBytes (contentToSend (js "hi") None)), Some kim) /\
    processMessage (P := boxPlatform) ([alice] ++ kim :: [bob]) mySecretKey entropy0
      (mkItem (Some 5%Z) postedHi) []
    = (dispatch (P := boxPlatform) entropy0 (lowBytes (contentToSend (js "hi") None))
         (Some kim) ;;
       ret (pushId (Some 5%Z) [])).
Proof.
  refine (X25_sent_is_received (P := boxPlatform) (S := modelSender) sender_model_laws
            exampleNonce kimSecretKey mySecretKey (js "hi") postedHi None
            [alice] [bob] kim entropy0 (Some 5%Z) [] eq_refl _ _ eq_refl eq_refl _).
  - left. discriminate.
  - vm_compute. reflexivity.
  - constructor; [vm_compute; reflexivity | constructor].
Defined.

Definition kimProfile : MyProfile :=
  mkMyProfile (js "KKKKKKKKKKKK") (toHex (modelPublicKey kimSecretKey))
              (Some (JString (js "Kim"))) (Some (JString (js "avatar.png"))).

Definition postedHandshake : jsstring :=
  uint8ArrayToString
    (modelPublicKey kimSecretKey ++ exampleNonce
       ++ take 16 (modelPublicKey kimSecretKey)
       ++ stringToUint8Array
            (ACCEPT_PREFIX ++ modelStringify (handshakeData kimProfile (JObject [])))).

Lemma X26_witness :
  exists decoded,
    decodeBase64 (Platform := boxPlatform) postedHandshake = Some decoded /\
    openAnonymous (P := boxPlatform) (stringToUint8Array decoded) mySecretKey
    = Some (ACCEPT_PREFIX
              ++ lowBytes (modelStringify (handshakeData kimProfile (JObject [])))) /\
    processMessage (P := boxPlatform) [alice; bob] mySecretKey entropy0
      (mkItem (Some 6%Z) postedHandshake) []
    = (addContactFromHandshake (P := boxPlatform) (now1 entropy0)
         (handshakeData kimProfile (JObject [])) ;;
       ret (pushId (Some 6%Z) [])).
Proof.
  refine (X26_handshake_accepted (P := boxPlatform) (S := modelSender) sender_model_laws
            exampleNonce kimSecretKey mySecretKey kimProfile (JObject [])
            postedHandshake [alice; bob] entropy0 (Some 6%Z) [] eq_refl _ eq_refl _ _).
  - vm_compute. reflexivity.
  - vm_compute. reflexivity.
  - vm_compute. reflexivity.
Defined.

End Dispatcher.
